(** * The channel-backed response stream of go-ipfs-cmds (chan.go)

    A shallow embedding of [chanStream] and of the methods that
    [chanResponse] and [chanResponseEmitter] define on it, followed by the
    properties of the stream core.

    Reading guide.
    - [Go]     : the Go values the code handles: errors, emitted values,
                 contexts, and channels as far as closing goes.
    - [Stream] : the [chanStream] struct and every method of chan.go,
                 each a function of the stream's state.
    - [Sched]  : one producer goroutine and one consumer goroutine running
                 those methods against one stream, interleaved by a
                 schedule.  The unbuffered channel [ch] is a rendezvous: a
                 send and a receive complete in one step, when one side
                 reaches its [select] and finds the other parked there.
                 A cancellation settles the [select]s parked at that
                 moment.
    - Predicates on runs, then their proofs: three invariants (the
      stream's fields agree; what a run without cancellation logs; the
      logs follow the programs) and, from them, the properties.
    - [Adder], [AdderSpec], [AdderFacts] : the handlers of the example
      commands of package adder, written against the emitter and
      response interfaces, and what they emit and print.
    - [Suggest], [SuggestFacts] : the suggestions for an unknown
      command of package cli. *)

From Stdlib Require Import List String Bool NArith Lia.
From Stdlib Require Import ZArith Ascii DecimalString Permutation Sorted.
Import ListNotations.
Open Scope string_scope.
Open Scope list_scope.

(* ------------------------------------------------------------------ *)
(** ** Go values                                                        *)
(* ------------------------------------------------------------------ *)

Module Go.

(** [cmdkit.Error] (package go-ipfs-cmdkit): a message and a numeric
    error kind; kind [0] is [ErrNormal], what a struct literal that sets
    only [Message] gets. *)
Record cmdkit_Error := mk_cmdkit_Error { Message : string; Code : N }.

(** The cause a [context.Context] reports once it is done. *)
Inductive ctx_cause := Canceled | DeadlineExceeded.

(** Values of interface type [error].  [cmdkit.Error] has a value
    receiver, so both the struct and a pointer to it are errors; chan.go
    tells them apart with type assertions, and so does this type.
    Pointers are compared by what they point to. *)
Inductive error :=
| io_EOF
| ErrClosedEmitter
| ErrClosingClosedEmitter
| context_err (c : ctx_cause)
| cmdkit_Error_val (e : cmdkit_Error)
| cmdkit_Error_ptr (e : cmdkit_Error)
| errors_New (msg : string).

(** Values of type [interface{}] as [Emit] sees them after line 128:
    a [chan interface{}] or [<-chan interface{}] argument is handed to
    [EmitChan] before the stream is touched and never reaches the code
    embedded here, so channel values are not part of this type. *)
Inductive value :=
| nil_value                 (* the nil interface *)
| Plain (x : string)        (* an application value, named by a string *)
| Single (Value : value)
| ErrorValue (e : error).

(** A Go channel, as far as [close] and "is it closed" go. *)
Inductive chan_state := Open | Closed.

(** Run-time panics the code can raise. *)
Inductive panic :=
| value_is_an_error
| nil_pointer_dereference
| close_of_closed_channel
| send_on_closed_channel.

(** [context.Context]: [ctx_Err] is [Err()], nil until [Done()] is closed. *)
Record Context := mk_Context { ctx_Err : option error }.

Definition context_Background : Context := mk_Context None.

Definition ctx_Done (c : Context) : chan_state :=
  match ctx_Err c with None => Open | Some _ => Closed end.

Definition is_closed (c : chan_state) : bool :=
  match c with Closed => true | Open => false end.

(** [select { case <-c: default: close(c) }] *)
Definition close_unless_closed (c : chan_state) : chan_state :=
  match c with
  | Closed => Closed
  | Open => Closed
  end.

(** [_, ok := v.(error)] *)
Definition is_error (v : value) : bool :=
  match v with ErrorValue _ => true | _ => false end.

(** [_, ok := v.(Single)] *)
Definition is_Single (v : value) : bool :=
  match v with Single _ => true | _ => false end.

Definition error_eqb_EOF (e : error) : bool :=
  match e with io_EOF => true | _ => false end.

End Go.
Import Go.

(** Modelled from the spec: [debug.AssertNotError] lives in package
    [debug], outside the files at hand.  Per the comment at its call site
    and the spec ("a deliberately-asserted misuse ... intentionally
    fatal"), it panics exactly when its argument is an error value. *)
Definition AssertNotError (v : value) : option panic :=
  if is_error v then Some value_is_an_error else None.

(* ------------------------------------------------------------------ *)
(** ** The stream                                                       *)
(* ------------------------------------------------------------------ *)

Module Stream.

(** [Request], reduced to the one field chan.go reads.  [Context] is an
    interface value and may be nil ([None]); [Next] checks for that.
    The stream's [req] pointer itself is taken to be non-nil:
    [NewChanResponsePair] is given a request. *)
Record Request := mk_Request { Context : option Go.Context }.

(** [chanStream].  The mutex [wl] has no field here: every producer call
    holds it from entry to return, so producer calls never overlap, and
    the producer of [Sched] runs them one after the other.  [length] is
    a [uint64] that is only stored and returned, never computed with. *)
Record chanStream := mk_chanStream {
  req : Request;
  ch : chan_state;
  closed : bool;
  closeCh : chan_state;
  err : option error;
  waitLen : chan_state;
  length : N
}.

Definition NewChanResponsePair (req : Request) : chanStream :=
  {| req := req; ch := Open; closed := false; closeCh := Open;
     err := None; waitLen := Open; length := 0%N |}.

Definition set_waitLen (c : chan_state) (s : chanStream) : chanStream :=
  {| req := req s; ch := ch s; closed := closed s; closeCh := closeCh s;
     err := err s; waitLen := c; length := length s |}.

Definition set_length (l : N) (s : chanStream) : chanStream :=
  {| req := req s; ch := ch s; closed := closed s; closeCh := closeCh s;
     err := err s; waitLen := waitLen s; length := l |}.

Definition set_closed (b : bool) (s : chanStream) : chanStream :=
  {| req := req s; ch := ch s; closed := b; closeCh := closeCh s;
     err := err s; waitLen := waitLen s; length := length s |}.

Definition set_err (e : option error) (s : chanStream) : chanStream :=
  {| req := req s; ch := ch s; closed := closed s; closeCh := closeCh s;
     err := e; waitLen := waitLen s; length := length s |}.

Definition set_ch (c : chan_state) (s : chanStream) : chanStream :=
  {| req := req s; ch := c; closed := closed s; closeCh := closeCh s;
     err := err s; waitLen := waitLen s; length := length s |}.

Definition set_closeCh (c : chan_state) (s : chanStream) : chanStream :=
  {| req := req s; ch := ch s; closed := closed s; closeCh := c;
     err := err s; waitLen := waitLen s; length := length s |}.

Definition set_req (r : Request) (s : chanStream) : chanStream :=
  {| req := r; ch := ch s; closed := closed s; closeCh := closeCh s;
     err := err s; waitLen := waitLen s; length := length s |}.

(** *** Consumer side: [chanResponse] *)

Section Messages.

(** The texts of the two sentinel errors are declared with them, outside
    chan.go; [Error] only passes them through. *)
Variables (msg_ErrClosedEmitter msg_ErrClosingClosedEmitter : string).

(** [err.Error()] *)
Definition error_string (e : error) : string :=
  match e with
  | io_EOF => "EOF"
  | ErrClosedEmitter => msg_ErrClosedEmitter
  | ErrClosingClosedEmitter => msg_ErrClosingClosedEmitter
  | context_err Canceled => "context canceled"
  | context_err DeadlineExceeded => "context deadline exceeded"
  | cmdkit_Error_val e => Message e
  | cmdkit_Error_ptr e => Message e
  | errors_New msg => msg
  end.

(** [func (r *chanResponse) Error() *cmdkit.Error]; [None] is the nil
    pointer. *)
Definition Error (r : chanStream) : option cmdkit_Error :=
  match closeCh r with
  | Closed =>
      match err r with
      | None => None
      | Some e =>
          if error_eqb_EOF e then None
          else match e with
               | cmdkit_Error_ptr e' => Some e'
               | _ => Some {| Message := error_string e; Code := 0%N |}
               end
      end
  | Open => None
  end.

End Messages.

(** [func (r *chanResponse) Length() uint64]: [None] while the receive
    from [waitLen] blocks. *)
Definition Length (r : chanStream) : option N :=
  match waitLen r with
  | Closed => Some (length r)
  | Open => None
  end.

(** What the [select] in [Next] can do. *)
Inductive next_step :=
| NextReturn (v : value) (e : option error)
| NextReceive (v : value)          (* took [v] from the parked sender *)
| NextBlock.

(** The type switch on the received value. *)
Definition unwrap (v : value) : value :=
  match v with
  | Single val => val
  | _ => v
  end.

(** [func (r *chanResponse) Next() (interface{}, error)].
    [r = None] is the nil receiver.  [sender] is the value of an [Emit]
    parked on [ch], if there is one; [pick_ctx] is the scheduler's choice
    when both cases of the [select] are ready. *)
Definition Next (r : option chanStream) (sender : option value)
    (pick_ctx : bool) : next_step :=
  match r with
  | None => NextReturn nil_value (Some io_EOF)
  | Some r =>
      let ctx := match Context (req r) with
                 | Some rctx => rctx
                 | None => context_Background
                 end in
      let recv_ready :=
        is_closed (ch r) || match sender with Some _ => true | None => false end in
      let ctx_ready := is_closed (ctx_Done ctx) in
      if recv_ready && negb (ctx_ready && pick_ctx) then
        match ch r, sender with
        | Closed, _ => NextReturn nil_value (err r)
        | Open, Some v => NextReceive v
        | Open, None => NextBlock
        end
      else if ctx_ready then NextReturn nil_value (ctx_Err ctx)
      else NextBlock
  end.

(** *** Producer side: [chanResponseEmitter] *)

(** [func (re *chanResponseEmitter) closeWithError(err error)].
    [close(re.ch)] panics on a closed channel; the fields written before
    it stay written. *)
Definition closeWithError (e : option error) (re : chanStream)
    : option panic * chanStream :=
  let re := set_closed true re in
  let e := match e with None => io_EOF | Some e => e end in
  let e := match e with cmdkit_Error_val c => cmdkit_Error_ptr c | _ => e end in
  let re := set_err (Some e) re in
  match ch re with
  | Closed => (Some close_of_closed_channel, re)
  | Open =>
      let re := set_ch Closed re in
      let re := set_waitLen (close_unless_closed (waitLen re)) re in
      let re := set_closeCh (close_unless_closed (closeCh re)) re in
      (None, re)
  end.

(** How a producer call ends: it returns an [error] (nil is [None]) or
    panics. *)
Inductive result :=
| Return (e : option error)
| Panics (p : panic).

(** [func (re *chanResponseEmitter) CloseWithError(err error) error] *)
Definition CloseWithError (e : option error) (re : chanStream)
    : result * chanStream :=
  if closed re then (Return (Some ErrClosingClosedEmitter), re)
  else match closeWithError e re with
       | (Some p, re') => (Panics p, re')
       | (None, re') => (Return None, re')
       end.

(** [func (re *chanResponseEmitter) Close() error] *)
Definition Close (re : chanStream) : result * chanStream :=
  CloseWithError None re.

(** [func (re *chanResponseEmitter) SetLength(l uint64)] *)
Definition SetLength (l : N) (re : chanStream) : chanStream :=
  match waitLen re with
  | Closed => re
  | Open => set_length l re
  end.

(** [Emit] in three pieces, cut where the goroutine can be parked.

    [Emit_enter]: from the lock to the [select].  Entering the [select]
    evaluates [ctx.Done()], a method call on a nil interface when the
    request has no context. *)
Inductive emit_entry :=
| EntryDone (r : result) (re : chanStream)
| EntrySelect (ctx : Go.Context) (re : chanStream).

Definition Emit_enter (v : value) (re : chanStream) : emit_entry :=
  match AssertNotError v with
  | Some p => EntryDone (Panics p) re
  | None =>
      let re := set_waitLen (close_unless_closed (waitLen re)) re in
      if closed re then EntryDone (Return (Some ErrClosedEmitter)) re
      else match Context (req re) with
           | None => EntryDone (Panics nil_pointer_dereference) re
           | Some ctx => EntrySelect ctx re
           end
  end.

(** [Emit_select]: the [select] itself.  [receiver] tells whether a
    [Next] is parked on [ch].  The context is an object shared with
    whoever cancels it; its present state is read where the model keeps
    it, in the request. *)
Inductive emit_step :=
| EmitSent                           (* case re.ch <- v *)
| EmitCanceled (e : option error)    (* case <-ctx.Done(): return ctx.Err() *)
| EmitPanics (p : panic)
| EmitBlock.

Definition Emit_select (receiver : bool) (pick_ctx : bool)
    (re : chanStream) : emit_step :=
  match Context (req re) with
  | None => EmitPanics nil_pointer_dereference
  | Some ctx =>
      let ctx_ready := is_closed (ctx_Done ctx) in
      match ch re with
      | Closed =>
          (* a send on a closed channel is always ready, and panics *)
          if ctx_ready && pick_ctx then EmitCanceled (ctx_Err ctx)
          else EmitPanics send_on_closed_channel
      | Open =>
          if receiver && negb (ctx_ready && pick_ctx) then EmitSent
          else if ctx_ready then EmitCanceled (ctx_Err ctx)
          else EmitBlock
      end
  end.

(** [Emit_sent]: the body of [case re.ch <- v]. *)
Definition Emit_sent (v : value) (re : chanStream) : result * chanStream :=
  if is_Single v then
    match closeWithError None re with
    | (Some p, re') => (Panics p, re')
    | (None, re') => (Return None, re')
    end
  else (Return None, re).

End Stream.
Import Stream.

(* ------------------------------------------------------------------ *)
(** ** One producer and one consumer on one stream                      *)
(* ------------------------------------------------------------------ *)

(** The handler's goroutine calls the emitter methods one after the
    other; the caller's goroutine does the same with the response
    methods.  A schedule says whose turn it is, and when the request's
    context is canceled.  [ch] is unbuffered: a send and a receive
    complete together, when one side arrives at its [select] and finds
    the other parked there.  A cancellation settles the [select]s that
    are parked at that moment.

    A producer call is one step, except that an [Emit] can stay parked
    at its [select] and runs the body of its send case in a step of its
    own.  [closeWithError] is one step: the consumer reads [err] only
    after it has seen [ch] or [closeCh] closed, and both are closed
    after [err] is written.  A goroutine that panicked stops; its other
    calls are never made. *)

Module Sched.

(** The calls of the producer's program and of the consumer's. *)
Inductive pcall :=
| PEmit (v : value)
| PClose
| PCloseWithError (e : option error)
| PSetLength (l : N).

Inductive ccall := CNext | CLength | CError.

Inductive pstatus :=
| PIdle                  (* between calls *)
| PSelect (v : value)    (* in [Emit v], parked at the [select] *)
| PSent (v : value)      (* in [Emit v], the send done, its case body not yet run *)
| PDead (p : panic).     (* the goroutine panicked *)

Inductive cstatus :=
| CIdle
| CInNext                (* parked at the [select] of [Next] *)
| CInLength.             (* parked on [<-r.waitLen] *)

(** What a finished call of the consumer gave back.  (In the producer's
    log, [SetLength], which returns nothing, is entered as
    [Return None].) *)
Inductive cresult :=
| NextResult (v : value) (e : option error)
| LengthResult (l : N)
| ErrorResult (e : option cmdkit_Error).

(** The stream, and for each goroutine the calls still to make, where
    it is in the current one, and the calls made with their results. *)
Record system := mk_system {
  stream : chanStream;
  p_todo : list pcall;
  p_status : pstatus;
  p_log : list (pcall * result);
  c_todo : list ccall;
  c_status : cstatus;
  c_log : list cresult
}.

(** One turn of the schedule.  [pick_ctx] is the choice the runtime
    makes when both cases of a [select] are ready. *)
Inductive tick :=
| Producer (pick_ctx : bool)
| Consumer (pick_ctx : bool)
| Cancel (c : ctx_cause).

Definition init (rq : Request) (p : list pcall) (c : list ccall) : system :=
  {| stream := NewChanResponsePair rq;
     p_todo := p; p_status := PIdle; p_log := [];
     c_todo := c; c_status := CIdle; c_log := [] |}.

(** The body of [case v, ok := <-r.ch] with [ok] true. *)
Definition Next_received (v : value) : cresult := NextResult (unwrap v) None.

Definition receiver_parked (s : system) : bool :=
  match c_status s with CInNext => true | _ => false end.

Definition sender_parked (s : system) : option value :=
  match p_status s with PSelect v => Some v | _ => None end.

(** The producer's current call is over. *)
Definition p_finish (c : pcall) (r : result) (st : chanStream) (s : system)
    : system :=
  {| stream := st;
     p_todo := p_todo s;
     p_status := match r with Panics p => PDead p | Return _ => PIdle end;
     p_log := p_log s ++ [(c, r)];
     c_todo := c_todo s; c_status := c_status s; c_log := c_log s |}.

Definition p_park (st : pstatus) (s : system) : system :=
  {| stream := stream s; p_todo := p_todo s; p_status := st;
     p_log := p_log s;
     c_todo := c_todo s; c_status := c_status s; c_log := c_log s |}.

Definition p_pop (s : system) : system :=
  {| stream := stream s; p_todo := tl (p_todo s); p_status := p_status s;
     p_log := p_log s;
     c_todo := c_todo s; c_status := c_status s; c_log := c_log s |}.

Definition with_stream (st : chanStream) (s : system) : system :=
  {| stream := st; p_todo := p_todo s; p_status := p_status s;
     p_log := p_log s;
     c_todo := c_todo s; c_status := c_status s; c_log := c_log s |}.

(** The consumer's current call is over. *)
Definition c_finish (r : cresult) (s : system) : system :=
  {| stream := stream s; p_todo := p_todo s; p_status := p_status s;
     p_log := p_log s;
     c_todo := c_todo s; c_status := CIdle; c_log := c_log s ++ [r] |}.

Definition c_park (st : cstatus) (s : system) : system :=
  {| stream := stream s; p_todo := p_todo s; p_status := p_status s;
     p_log := p_log s;
     c_todo := c_todo s; c_status := st; c_log := c_log s |}.

Definition c_pop (s : system) : system :=
  {| stream := stream s; p_todo := p_todo s; p_status := p_status s;
     p_log := p_log s;
     c_todo := tl (c_todo s); c_status := c_status s; c_log := c_log s |}.

(** The producer is at the [select] of [Emit v]. *)
Definition emit_at_select (v : value) (pick_ctx : bool) (s : system)
    : system :=
  match Emit_select (receiver_parked s) pick_ctx (stream s) with
  | EmitSent => p_park (PSent v) (c_finish (Next_received v) s)
  | EmitCanceled e => p_finish (PEmit v) (Return e) (stream s) s
  | EmitPanics p => p_finish (PEmit v) (Panics p) (stream s) s
  | EmitBlock => p_park (PSelect v) s
  end.

Definition producer_step (pick_ctx : bool) (s : system) : system :=
  match p_status s with
  | PDead _ => s
  | PSent v =>
      let (r, st) := Emit_sent v (stream s) in p_finish (PEmit v) r st s
  | PSelect v => emit_at_select v pick_ctx s
  | PIdle =>
      match p_todo s with
      | [] => s
      | c :: _ =>
          let s := p_pop s in
          match c with
          | PSetLength l =>
              p_finish c (Return None) (SetLength l (stream s)) s
          | PClose =>
              let (r, st) := Close (stream s) in p_finish c r st s
          | PCloseWithError e =>
              let (r, st) := CloseWithError e (stream s) in p_finish c r st s
          | PEmit v =>
              match Emit_enter v (stream s) with
              | EntryDone r st => p_finish c r st s
              | EntrySelect _ st =>
                  emit_at_select v pick_ctx (with_stream st s)
              end
          end
      end
  end.

Section Messages.

Variables (msg_ErrClosedEmitter msg_ErrClosingClosedEmitter : string).

(** The consumer is at the [select] of [Next]. *)
Definition next_at_select (pick_ctx : bool) (s : system) : system :=
  match Next (Some (stream s)) (sender_parked s) pick_ctx with
  | NextReturn v e => c_finish (NextResult v e) s
  | NextReceive v => p_park (PSent v) (c_finish (Next_received v) s)
  | NextBlock => c_park CInNext s
  end.

Definition length_at_wait (s : system) : system :=
  match Length (stream s) with
  | Some l => c_finish (LengthResult l) s
  | None => c_park CInLength s
  end.

Definition consumer_step (pick_ctx : bool) (s : system) : system :=
  match c_status s with
  | CInNext => next_at_select pick_ctx s
  | CInLength => length_at_wait s
  | CIdle =>
      match c_todo s with
      | [] => s
      | c :: _ =>
          let s := c_pop s in
          match c with
          | CNext => next_at_select pick_ctx s
          | CLength => length_at_wait s
          | CError =>
              c_finish
                (ErrorResult
                   (Error msg_ErrClosedEmitter msg_ErrClosingClosedEmitter
                      (stream s))) s
          end
      end
  end.

(** The request's context is canceled (or its deadline passes); a
    context is done once and for all. *)
Definition cancel (c : ctx_cause) (st : chanStream) : chanStream :=
  match Context (req st) with
  | Some (mk_Context None) =>
      set_req (mk_Request (Some (mk_Context (Some (context_err c))))) st
  | _ => st
  end.

(** Closing [ctx.Done()] wakes the goroutines parked on it: a [select]
    that is parked when the context is canceled is settled there and
    then, and a partner that comes to [ch] later does not find it.  The
    [Emit] takes [<-ctx.Done()]; so does the [Next], unless [ch] was
    closed on it before, which settled it on that case. *)
Definition wake (s : system) : system :=
  let s := match p_status s with
           | PSelect _ => producer_step true s
           | _ => s
           end in
  match c_status s with
  | CInNext => consumer_step false s
  | _ => s
  end.

Definition step (t : tick) (s : system) : system :=
  match t with
  | Producer pick_ctx => producer_step pick_ctx s
  | Consumer pick_ctx => consumer_step pick_ctx s
  | Cancel c => wake (with_stream (cancel c (stream s)) s)
  end.

Fixpoint run (sched : list tick) (s : system) : system :=
  match sched with
  | [] => s
  | t :: sched' => run sched' (step t s)
  end.

End Messages.

(** Both goroutines have run all their calls. *)
Definition finished (s : system) : bool :=
  match p_todo s, p_status s, c_todo s, c_status s with
  | [], PIdle, [], CIdle => true
  | _, _, _, _ => false
  end.

(** Turn and turn about, for [n] rounds. *)
Fixpoint round_robin (n : nat) : list tick :=
  match n with
  | O => []
  | S n' => Producer false :: Consumer false :: round_robin n'
  end.

End Sched.

Import Sched.

(* ------------------------------------------------------------------ *)
(** ** Predicates on runs                                               *)
(* ------------------------------------------------------------------ *)

(** The flag, the three channels and the error move together. *)
Record consistent (st : chanStream) : Prop := {
  cons_ch : ch st = (if closed st then Closed else Open);
  cons_closeCh : closeCh st = (if closed st then Closed else Open);
  cons_waitLen : closed st = true -> waitLen st = Closed;
  cons_err : closed st = false <-> err st = None;
  cons_ptr : forall c, err st <> Some (cmdkit_Error_val c)
}.

(** Why a logged call may have panicked. *)
Definition panic_cause (c : pcall) (p : panic) (st : chanStream) : Prop :=
  (exists e, c = PEmit (ErrorValue e) /\ p = value_is_an_error) \/
  (exists v, c = PEmit v /\ p = nil_pointer_dereference /\
             Context (req st) = None).

(** Holds of every state of every run: the stream is consistent; an
    [Emit] in flight passed the assertion and found the stream open and
    a context; sender and receiver are never both parked; panics have
    one of the two causes; a dead producer logged its panic. *)
Record wf (s : system) : Prop := {
  wf_stream : consistent (stream s);
  wf_emit : forall v, p_status s = PSelect v \/ p_status s = PSent v ->
      closed (stream s) = false /\ is_error v = false /\
      waitLen (stream s) = Closed /\ Context (req (stream s)) <> None;
  wf_parked : forall v, p_status s = PSelect v -> c_status s <> CInNext;
  wf_panics : forall c p, In (c, Panics p) (p_log s) ->
      panic_cause c p (stream s);
  wf_dead : forall p, p_status s = PDead p ->
      exists c, In (c, Panics p) (p_log s)
}.

(** Logs only grow: what a call returned stays returned. *)
Definition extends (s0 s : system) : Prop :=
  (exists pl, p_log s = p_log s0 ++ pl) /\
  (exists cl, c_log s = c_log s0 ++ cl).

(** The error [closeWithError] records for the argument [e]. *)
Definition recorded (e : option error) : error :=
  match e with
  | None => io_EOF
  | Some (cmdkit_Error_val c) => cmdkit_Error_ptr c
  | Some e' => e'
  end.

(** The part of [wf] about logged panics. *)
Definition log_ok (s : system) : Prop :=
  forall c p, In (c, Panics p) (p_log s) -> panic_cause c p (stream s).

(** Schedules in which the context is never canceled. *)
Definition is_cancel (t : tick) : bool :=
  match t with Cancel _ => true | _ => false end.

Definition no_cancel (sched : list tick) : bool :=
  forallb (fun t => negb (is_cancel t)) sched.

(** The request's context, if it has one, is not done. *)
Definition ctx_live (rq : Request) : bool :=
  match Context rq with
  | Some c => negb (is_closed (ctx_Done c))
  | None => true
  end.

Definition has_ctx (rq : Request) : bool :=
  match Context rq with Some _ => true | None => false end.

(** What a producer call gives on a stream whose [closed] flag is [cl],
    when nothing is canceled. *)
Definition expected (hc cl : bool) (c : pcall) : result :=
  match c with
  | PEmit v =>
      if is_error v then Panics value_is_an_error
      else if cl then Return (Some ErrClosedEmitter)
      else if hc then Return None
      else Panics nil_pointer_dereference
  | PClose | PCloseWithError _ =>
      if cl then Return (Some ErrClosingClosedEmitter) else Return None
  | PSetLength _ => Return None
  end.

(** The logged call closed the stream. *)
Definition closes (c : pcall) (r : result) : bool :=
  match r with
  | Return None =>
      match c with
      | PClose | PCloseWithError _ => true
      | PEmit v => is_Single v
      | PSetLength _ => false
      end
  | _ => false
  end.

(** The [closed] flag after the calls of [log], from the flag [cl]. *)
Fixpoint closed_after (cl : bool) (log : list (pcall * result)) : bool :=
  match log with
  | [] => cl
  | (c, r) :: log' => closed_after (cl || closes c r) log'
  end.

(** Every result of [log] is the [expected] one, given the flag the
    earlier calls left. *)
Fixpoint sound (hc cl : bool) (log : list (pcall * result)) : Prop :=
  match log with
  | [] => True
  | (c, r) :: log' => r = expected hc cl c /\ sound hc (cl || closes c r) log'
  end.

(** The error the first closing call of the log recorded. *)
Fixpoint first_close (log : list (pcall * result)) : option error :=
  match log with
  | [] => None
  | (c, r) :: log' =>
      if closes c r then
        Some (match c with PCloseWithError e => recorded e | _ => io_EOF end)
      else first_close log'
  end.

(** The values of the sends that went through, in order. *)
Fixpoint sent_values (log : list (pcall * result)) : list value :=
  match log with
  | [] => []
  | (PEmit v, Return None) :: log' => v :: sent_values log'
  | _ :: log' => sent_values log'
  end.

(** A value sent by an [Emit] that has not returned yet. *)
Definition pending (st : pstatus) : list value :=
  match st with PSent v => [v] | _ => [] end.

Definition delivered (s : system) : list value :=
  sent_values (p_log s) ++ pending (p_status s).

Definition is_next (r : cresult) : bool :=
  match r with NextResult _ _ => true | _ => false end.

(** Holds of every state of a run without cancellation: the log is
    [sound], flag and error are those the log tells, and the [Next]
    results so far are the values delivered, in order, followed by [k]
    times nil with the recorded error, [k] being 0 while the stream is
    open. *)
Record quiet (s : system) : Prop := {
  q_live : ctx_live (req (stream s)) = true;
  q_closed : closed (stream s) = closed_after false (p_log s);
  q_sound : sound (has_ctx (req (stream s))) false (p_log s);
  q_err : err (stream s) = first_close (p_log s);
  q_order : exists k,
      filter is_next (c_log s) =
        map Next_received (delivered s) ++
        repeat (NextResult nil_value (err (stream s))) k /\
      (k <> 0 -> closed (stream s) = true)
}.

(** The call a goroutine is in the middle of, if any. *)
Definition inflight (st : pstatus) : list pcall :=
  match st with
  | PSelect v | PSent v => [PEmit v]
  | _ => []
  end.

Definition c_inflight (st : cstatus) : list ccall :=
  match st with
  | CIdle => []
  | CInNext => [CNext]
  | CInLength => [CLength]
  end.

(** The call a consumer result came from. *)
Definition call_of (r : cresult) : ccall :=
  match r with
  | NextResult _ _ => CNext
  | LengthResult _ => CLength
  | ErrorResult _ => CError
  end.

Definition no_panic (log : list (pcall * result)) : Prop :=
  forall c p, ~ In (c, Panics p) log.

(** The logs, the calls in flight and the calls to come make up the two
    programs [P] and [C]; a producer that is not dead logged no panic. *)
Record follows (P : list pcall) (C : list ccall) (s : system) : Prop := {
  f_prod : map fst (p_log s) ++ inflight (p_status s) ++ p_todo s = P;
  f_cons : map call_of (c_log s) ++ c_inflight (c_status s) ++ c_todo s = C;
  f_alive : (forall q, p_status s <> PDead q) -> no_panic (p_log s)
}.

(** In every run, canceled or not: the stream is closed exactly when the
    log holds a [Close]/[CloseWithError] that returned nil or an [Emit]
    of a [Single] that returned nil. *)
Definition flagged (s : system) : Prop :=
  closed (stream s) = closed_after false (p_log s).

(** A request with [context.Background()]. *)
Definition live_request : Request := mk_Request (Some context_Background).

(** [st'] has the length of [st], and its [waitLen] is closed if that
    of [st] is. *)
Definition frozen (st st' : chanStream) : Prop :=
  length st' = length st /\ (waitLen st = Closed -> waitLen st' = Closed).

Definition is_SetLength (c : pcall) : bool :=
  match c with PSetLength _ => true | _ => false end.

(** The producer has so far called nothing but [SetLength]. *)
Definition only_SetLength (s : system) : Prop :=
  p_status s = PIdle /\
  forallb (fun cr => is_SetLength (fst cr)) (p_log s) = true.

(** Until the first [Emit] or [Close], [waitLen] is open. *)
Definition fresh (s : system) : Prop :=
  only_SetLength s -> waitLen (stream s) = Open.

(** The length is 0 and no [SetLength] is left to run. *)
Definition never_set (s : system) : Prop :=
  length (stream s) = 0%N /\
  forallb (fun c => negb (is_SetLength c)) (p_todo s) = true.

(** A length that [Length] returned is the stored one. *)
Definition length_logged (s : system) : Prop :=
  forall l, In (LengthResult l) (c_log s) ->
    waitLen (stream s) = Closed /\ length (stream s) = l.

(** What the spec asks [Error] to return for a stream closed with the
    error [e] ([None]: closed without one): nil for a success or the
    end-of-stream sentinel, a structured error as it is, any other error
    as a plain message. *)
Definition structured (m1 m2 : string) (e : option error)
    : option cmdkit_Error :=
  match e with
  | None | Some io_EOF => None
  | Some (cmdkit_Error_val c) | Some (cmdkit_Error_ptr c) => Some c
  | Some e' => Some {| Message := error_string m1 m2 e'; Code := 0%N |}
  end.




(** The consumer asks first, the producer hands over and returns. *)
Definition relay_one : list tick :=
  [Consumer false; Producer false; Producer false].

(** [n] hand-overs. *)
Fixpoint relay (n : nat) : list tick :=
  match n with
  | O => []
  | S n' => relay_one ++ relay n'
  end.



(** The values [Next] returned with a nil error, in order. *)
Fixpoint received (clog : list cresult) : list value :=
  match clog with
  | [] => []
  | NextResult v None :: clog' => v :: received clog'
  | _ :: clog' => received clog'
  end.

(** What [received] is in every run. *)
Definition delivery (s : system) : Prop :=
  received (c_log s) = map unwrap (delivered s).

Definition is_CNext (c : ccall) : bool :=
  match c with CNext => true | _ => false end.

(** The length that the [SetLength] calls at the head of a program
    declare: the argument of the last of them, [l0] if there is none. *)
Fixpoint declared (l0 : N) (calls : list pcall) : N :=
  match calls with
  | PSetLength l :: calls' => declared l calls'
  | _ => l0
  end.

(** The stored length is the one the calls made so far declare, and,
    between calls, [waitLen] is open exactly while all of them were
    [SetLength]. *)
Record length_declared (s : system) : Prop := {
  ld_length : length (stream s) = declared 0%N (map fst (p_log s));
  ld_open : p_status s = PIdle ->
      (waitLen (stream s) = Open <->
       forallb is_SetLength (map fst (p_log s)) = true)
}.

(** An [Emit v] that found nobody to take its value: nothing is logged,
    the call is about to be made or is parked at its [select], the
    consumer is not in [Next] and has no [Next] to make, and the
    request's context is not done. *)
Record waiting_for_receiver (v : value) (rest : list pcall) (s : system)
    : Prop := {
  wr_log : p_log s = [];
  wr_status : (p_status s = PIdle /\ p_todo s = PEmit v :: rest) \/
              p_status s = PSelect v;
  wr_todo : forallb (fun c => negb (is_CNext c)) (c_todo s) = true;
  wr_cons : c_status s <> CInNext;
  wr_nolog : received (c_log s) = [];
  wr_open : closed (stream s) = false /\ ch (stream s) = Open;
  wr_ctx : Context (req (stream s)) = Some (mk_Context None)
}.

(** The [Next] calls a program needs for its [Emit]s to return, from a
    stream whose [closed] flag is [cl]; whether it leaves the stream
    closed; and a schedule that runs it with a consumer that has that
    many [Next] calls to make. *)
Fixpoint needs (cl : bool) (P : list pcall) : nat :=
  match P with
  | [] => 0
  | PEmit v :: P' => if cl then needs cl P' else S (needs (is_Single v) P')
  | PClose :: P' | PCloseWithError _ :: P' => needs true P'
  | PSetLength _ :: P' => needs cl P'
  end.

Fixpoint closed_by (cl : bool) (P : list pcall) : bool :=
  match P with
  | [] => cl
  | PEmit v :: P' => closed_by (cl || is_Single v) P'
  | PClose :: P' | PCloseWithError _ :: P' => closed_by true P'
  | PSetLength _ :: P' => closed_by cl P'
  end.

Fixpoint schedule_for (cl : bool) (P : list pcall) : list tick :=
  match P with
  | [] => []
  | PEmit v :: P' =>
      if cl then Producer false :: schedule_for cl P'
      else relay_one ++ schedule_for (is_Single v) P'
  | PClose :: P' | PCloseWithError _ :: P' =>
      Producer false :: schedule_for true P'
  | PSetLength _ :: P' => Producer false :: schedule_for cl P'
  end.

Definition emits_no_error (P : list pcall) : bool :=
  forallb (fun c => match c with PEmit v => negb (is_error v) | _ => true end)
    P.

(** Both goroutines between calls, the stream's fields in agreement, the
    request's context not done. *)
Record idle (s : system) : Prop := {
  idle_p : p_status s = PIdle;
  idle_c : c_status s = CIdle;
  idle_ch : ch (stream s) = (if closed (stream s) then Closed else Open);
  idle_ctx : Context (req (stream s)) = Some (mk_Context None)
}.

(* ------------------------------------------------------------------ *)
(** ** The adder commands (package adder)                               *)
(* ------------------------------------------------------------------ *)

(** The handlers of the example commands [simpleAdd], [encodeAdd],
    [postRunAdd] and [exitAdd], written against the interfaces they are
    given: whatever [cmds.ResponseEmitter] and [cmds.Response] they run
    on is a record of functions on a state.  [strconv.Atoi] is a
    parameter.  [int] is taken 64 bits wide, as on amd64 and arm64;
    standard output takes every write; [time.Sleep] is left out. *)

Module Adder.

(** [type AddStatus struct { Current int; Left int }] *)
Record AddStatus := mk_AddStatus { Current : Z; Left : Z }.

(** The values the handlers emit and receive: a string, a
    [*AddStatus], or anything else (nil included). *)
Inductive emitted :=
| Str (s : string)
| Status (a : AddStatus)
| Other (type_name : string).

(** [cmds.ResponseEmitter]; [SetStatus] is there when the emitter is a
    [cli.ResponseEmitter]. *)
Record ResponseEmitter (E : Type) := mk_ResponseEmitter {
  Emit : emitted -> E -> option error * E;
  Close : E -> option error * E;
  SetStatus : option (Z -> E -> E)
}.

(** [cmds.Response], as far as [PostRun] uses it. *)
Record Response (R : Type) := mk_Response {
  Next : R -> (emitted * option error) * R
}.

Arguments Emit {E}. Arguments Close {E}. Arguments SetStatus {E}.
Arguments Next {R}.

(** Wrap-around of [int] arithmetic. *)
Definition int_wrap (z : Z) : Z :=
  ((z + 2 ^ 63) mod 2 ^ 64 - 2 ^ 63)%Z.

(** The verb [%d]. *)
Definition itoa (z : Z) : string := NilZero.string_of_int (Z.to_int z).

Definition LF : string := String (Ascii.ascii_of_nat 10) "".
Definition CR : string := String (Ascii.ascii_of_nat 13) "".

(** [fmt.Sprintf("intermediate result: %d; %d left", sum, left)] *)
Definition intermediate_line (sum left : Z) : string :=
  ("intermediate result: " ++ itoa sum ++ "; " ++ itoa left ++ " left")%string.

(** [fmt.Sprintf("total: %d", sum)] *)
Definition total_line (sum : Z) : string := ("total: " ++ itoa sum)%string.

(** [strings.Repeat(" ", n)] *)
Fixpoint spaces (n : nat) : string :=
  match n with
  | O => ""
  | S n' => String " " (spaces n')
  end.

Section Handlers.

(** [strconv.Atoi]: the number, or the error. *)
Variable Atoi : string -> Z + error.

Context {E : Type} (re : ResponseEmitter E).

(** The [for] loop of [simpleAdd]'s [Run], at index [i] of [n]
    arguments with [args] still to come: the error it returns with, or
    the sum it ends with. *)
Fixpoint simpleAdd_loop (n i : nat) (args : list string) (sum : Z) (e : E)
    : (error + Z) * E :=
  match args with
  | [] => (inr sum, e)
  | str :: args' =>
      match Atoi str with
      | inr err => (inl err, e)
      | inl num =>
          let sum := int_wrap (sum + num) in
          match Emit re (Str (intermediate_line sum
                                (Z.of_nat (n - i - 1)))) e with
          | (Some err, e') => (inl err, e')
          | (None, e') => simpleAdd_loop n (S i) args' sum e'
          end
      end
  end.

(** [simpleAdd]'s [Run], on [req.Arguments]. *)
Definition simpleAdd (args : list string) (e : E) : option error * E :=
  match simpleAdd_loop (List.length args) 0 args 0%Z e with
  | (inl err, e') => (Some err, e')
  | (inr sum, e') => Emit re (Str (total_line sum)) e'
  end.

(** The [Run] that [encodeAdd], [postRunAdd] and [exitAdd] share. *)
Fixpoint statusAdd_loop (n i : nat) (args : list string) (sum : Z) (e : E)
    : option error * E :=
  match args with
  | [] => (None, e)
  | str :: args' =>
      match Atoi str with
      | inr err => (Some err, e)
      | inl num =>
          let sum := int_wrap (sum + num) in
          match Emit re (Status {| Current := sum;
                                   Left := Z.of_nat (n - i - 1) |}) e with
          | (Some err, e') => (Some err, e')
          | (None, e') => statusAdd_loop n (S i) args' sum e'
          end
      end
  end.

Definition statusAdd (args : list string) (e : E) : option error * E :=
  statusAdd_loop (List.length args) 0 args 0%Z e.

End Handlers.

(** The text encoder of [encodeAdd]: what it writes to [w] and what it
    returns. *)
Definition encodeText (v : emitted) (w : string) : option error * string :=
  match v with
  | Status s =>
      if (Left s =? 0)%Z
      then (None, (w ++ "total: " ++ itoa (Current s) ++ LF)%string)
      else (None, (w ++ intermediate_line (Current s) (Left s) ++ LF)%string)
  | Str _ => (Some (errors_New "cast error, got type string"), w)
  | Other t => (Some (errors_New ("cast error, got type " ++ t)), w)
  end.

(** How a [PostRun] ends. *)
Inductive ending :=
| Returned (err : option error)
| Panicked.

(** One update of the progress line: what [fmt.Printf] writes. *)
Definition progress_line (s : AddStatus) : string :=
  if (0 <? Left s)%Z
  then (CR ++ "calculation sum... current: " ++ itoa (Current s) ++
        "; left: " ++ itoa (Left s))%string
  else (CR ++ "sum is " ++ itoa (Current s) ++ ".")%string.

Section PostRun.

Context {R E : Type} (res : Response R) (re : ResponseEmitter E).

(** The [for] loop of both [PostRun]s, with at most [fuel] calls of
    [Next]: how it ends ([None]: still running), the response, what was
    printed, and [exit]. *)
Fixpoint postRun_loop (fuel : nat) (lastLen : nat) (exit : Z)
    (r : R) (out : string) : option ending * R * string * Z :=
  match fuel with
  | O => (None, r, out, exit)
  | S fuel' =>
      match Next res r with
      | ((v, Some err), r') =>
          if error_eqb_EOF err then (Some (Returned None), r', out, exit)
          else (Some (Returned (Some err)), r', out, exit)
      | ((v, None), r') =>
          let out := (out ++ CR ++ spaces lastLen)%string in
          match v with
          | Status s =>
              let line := progress_line s in
              postRun_loop fuel' (String.length line)
                (if (0 <? Left s)%Z then exit else Current s)
                r' (out ++ line)%string
          | _ => (Some Panicked, r', out, exit)
          end
      end
  end.

(** [postRunAdd]'s [PostRun]: the deferred [fmt.Println()] and
    [re.Close()] run in that order however the loop ends. *)
Definition postRunAdd (fuel : nat) (r : R) (e : E) (out : string)
    : option (ending * R * E * string) :=
  match postRun_loop fuel 0 0%Z r out with
  | (None, _, _, _) => None
  | (Some how, r', out', _) =>
      Some (how, r', snd (Close re e), (out' ++ LF)%string)
  end.

(** [exitAdd]'s [PostRun]: the type assertion on [re] comes before any
    [defer]; then [SetStatus(exit)] and [fmt.Println()] are deferred. *)
Definition exitAdd (fuel : nat) (r : R) (e : E) (out : string)
    : option (ending * R * E * string) :=
  match SetStatus re with
  | None => Some (Panicked, r, e, out)
  | Some set =>
      match postRun_loop fuel 0 0%Z r out with
      | (None, _, _, _) => None
      | (Some how, r', out', exit) =>
          Some (how, r', set exit e, (out' ++ LF)%string)
      end
  end.

End PostRun.

End Adder.

(** *** What the adder handlers amount to *)

Module AdderSpec.
Import Adder.

Section Spec.

Variable Atoi : string -> Z + error.

(** The numbers of the arguments up to the first that [Atoi] rejects,
    and the error of that one. *)
Fixpoint parse_all (args : list string) : list Z * option error :=
  match args with
  | [] => ([], None)
  | str :: args' =>
      match Atoi str with
      | inr err => ([], Some err)
      | inl num => let (nums, err) := parse_all args' in (num :: nums, err)
      end
  end.

End Spec.

(** The sums after each number, from [sum]. *)
Fixpoint running (sum : Z) (nums : list Z) : list Z :=
  match nums with
  | [] => []
  | num :: nums' =>
      let sum := int_wrap (sum + num) in sum :: running sum nums'
  end.

(** The intermediate results for the sums, from index [i] of [n]. *)
Fixpoint lines_from (n i : nat) (sums : list Z) : list emitted :=
  match sums with
  | [] => []
  | sum :: sums' =>
      Str (intermediate_line sum (Z.of_nat (n - i - 1))) ::
      lines_from n (S i) sums'
  end.

Fixpoint statuses_from (n i : nat) (sums : list Z) : list AddStatus :=
  match sums with
  | [] => []
  | sum :: sums' =>
      {| Current := sum; Left := Z.of_nat (n - i - 1) |} ::
      statuses_from n (S i) sums'
  end.

(** Emit the values one after the other and stop at the first error. *)
Fixpoint emit_each {E} (re : ResponseEmitter E) (vs : list emitted) (e : E)
    : option error * E :=
  match vs with
  | [] => (None, e)
  | v :: vs' =>
      match Emit re v e with
      | (Some err, e') => (Some err, e')
      | (None, e') => emit_each re vs' e'
      end
  end.

(** An emitter that takes everything and keeps it; it counts its
    [Close] calls and remembers the last status set. *)
Record recorder := mk_recorder {
  taken : list emitted;
  closes : nat;
  status : option Z
}.

Definition recording : ResponseEmitter recorder :=
  {| Emit := fun v r =>
       (None, {| taken := taken r ++ [v]; closes := closes r;
                 status := status r |});
     Close := fun r =>
       (None, {| taken := taken r; closes := S (closes r);
                 status := status r |});
     SetStatus := Some (fun z r =>
       {| taken := taken r; closes := closes r; status := Some z |}) |}.

Definition fresh_recorder : recorder :=
  {| taken := []; closes := 0; status := None |}.

(** A response that hands out the values of a list and then fails with
    [err] for ever. *)
Definition scripted (err : error) : Response (list emitted) :=
  {| Next := fun r =>
       match r with
       | v :: r' => ((v, None), r')
       | [] => ((Other "<nil>", Some err), [])
       end |}.

(** What the progress loop prints for the statuses, the last line being
    [lastLen] long. *)
Fixpoint rendering (lastLen : nat) (ss : list AddStatus) : string :=
  match ss with
  | [] => ""
  | s :: ss' =>
      (CR ++ spaces lastLen ++ progress_line s ++
       rendering (String.length (progress_line s)) ss')%string
  end.

(** [lastLen] after the progress lines of the statuses. *)
Definition last_len (lastLen : nat) (ss : list AddStatus) : nat :=
  fold_left (fun _ s => String.length (progress_line s)) ss lastLen.

(** The [exit] the loop of [exitAdd] ends with. *)
Definition exit_of (ss : list AddStatus) : Z :=
  fold_left (fun exit s => if (0 <? Left s)%Z then exit else Current s)
    ss 0%Z.

(** The encoder on the values of a list, one after the other, up to
    the first it rejects. *)
Fixpoint encode_all (vs : list emitted) (w : string) : option error * string :=
  match vs with
  | [] => (None, w)
  | v :: vs' =>
      match encodeText v w with
      | (Some err, w') => (Some err, w')
      | (None, w') => encode_all vs' w'
      end
  end.

(** The strings of a list of emitted values, each on a line of its own. *)
Fixpoint text_of (vs : list emitted) : string :=
  match vs with
  | [] => ""
  | Str s :: vs' => (s ++ LF ++ text_of vs')%string
  | _ :: vs' => text_of vs'
  end.

(** The sum of the numbers, as an [int]. *)
Definition int_sum (nums : list Z) : Z := int_wrap (fold_right Z.add 0%Z nums).

(** A stand-in for [strconv.Atoi] on the decimal strings of the numbers
    0 to 9, for the examples. *)
Definition digit_Atoi (s : string) : Z + error :=
  match s with
  | String c "" =>
      let n := Ascii.nat_of_ascii c in
      if (48 <=? n)%nat && (n <=? 57)%nat then inl (Z.of_nat (n - 48))
      else inr (errors_New "invalid syntax")
  | _ => inr (errors_New "invalid syntax")
  end.

End AdderSpec.

(* ------------------------------------------------------------------ *)
(** ** Suggestions for an unknown command (package cli)                 *)
(* ------------------------------------------------------------------ *)

(** [suggestUnknownCmd] and [printSuggestions].  Of a [cmds.Command]
    they use the names of its subcommands only.  A [for ... range] over
    that map visits the names in an order Go leaves open, [sort.Sort]
    leaves open the order of equal elements, and the Levenshtein
    distance comes from a library: the two orders, the sort and the
    distance are parameters. *)

Module Suggest.

(** [type suggestion struct { cmd string; levenshtein int }] *)
Record suggestion := mk_suggestion { cmd : string; levenshtein : Z }.

(** A [*cmds.Command]: the keys of its [Subcommands] map. *)
Record Command := mk_Command { Subcommands : list string }.

(** [strings.Contains(s, substr)] *)
Fixpoint Contains (s substr : string) : bool :=
  String.prefix substr s ||
  match s with
  | EmptyString => false
  | String _ s' => Contains s' substr
  end.

Definition MinLevenshtein : Z := 3.

Definition QUOTE : string := String (Ascii.ascii_of_nat 34) "".
Definition TAB : string := String (Ascii.ascii_of_nat 9) "".
Definition NL : string := String (Ascii.ascii_of_nat 10) "".

Section Suggestions.

(** The orders in which the first and the second loop visit the names. *)
Variables range1 range2 : list string -> list string.

(** [levenshtein.DistanceForStrings] with the options of lines 43 to 50. *)
Variable DistanceForStrings : string -> string -> Z.

(** [sort.Sort] on a [suggestionSlice]. *)
Variable sort_Sort : list suggestion -> list suggestion.

(** The loop of lines 53 to 57. *)
Fixpoint contains_loop (arg : string) (names suggestions : list string)
    : list string :=
  match names with
  | [] => suggestions
  | name :: names' =>
      contains_loop arg names'
        (if Contains arg name then suggestions ++ [name] else suggestions)
  end.

(** The loop of lines 64 to 69. *)
Fixpoint distance_loop (arg : string) (names : list string)
    (sortableSuggestions : list suggestion) : list suggestion :=
  match names with
  | [] => sortableSuggestions
  | name :: names' =>
      let lev := DistanceForStrings arg name in
      distance_loop arg names'
        (if (lev <=? MinLevenshtein)%Z
         then sortableSuggestions ++ [mk_suggestion name lev]
         else sortableSuggestions)
  end.

(** [suggestUnknownCmd]; [None] is the run-time panic of [args[0]] on
    an empty slice, [Some []] the nil slice. *)
Definition suggestUnknownCmd (args : list string) (root : option Command)
    : option (list string) :=
  match root with
  | None => Some []
  | Some root =>
      match args with
      | [] => None
      | arg :: _ =>
          let suggestions :=
            contains_loop arg (range1 (Subcommands root)) [] in
          if (0 <? List.length suggestions)%nat then Some suggestions
          else
            let sortableSuggestions :=
              distance_loop arg (range2 (Subcommands root)) [] in
            Some (map cmd (sort_Sort sortableSuggestions))
      end
  end.

(** [printSuggestions]: the message of the error it returns; [None] is
    a run-time panic. *)
Definition printSuggestions (inputs : list string) (root : option Command)
    : option string :=
  match suggestUnknownCmd inputs root with
  | None => None
  | Some suggestions =>
      match inputs with
      | [] => None
      | input0 :: _ =>
          if (1 <? List.length suggestions)%nat then
            Some ("Unknown Command " ++ QUOTE ++ input0 ++ QUOTE ++ NL ++ NL ++
                  "Did you mean any of these?" ++ NL ++ NL ++ TAB ++
                  String.concat (NL ++ TAB) suggestions)%string
          else
            match suggestions with
            | s0 :: _ =>
                Some ("Unknown Command " ++ QUOTE ++ input0 ++ QUOTE ++
                      NL ++ NL ++ "Did you mean this?" ++ NL ++ NL ++ TAB ++
                      s0)%string
            | [] =>
                Some ("Unknown Command " ++ QUOTE ++ input0 ++ QUOTE ++
                      NL)%string
            end
      end
  end.

End Suggestions.

(** What the caller can rely on from the parameters: each loop visits
    every name once, and [sort.Sort] rearranges its slice so that no
    element has a smaller distance than one before it. *)
Definition visits_all (range : list string -> list string) : Prop :=
  forall names, Permutation (range names) names.

Definition by_distance (a b : suggestion) : Prop :=
  (levenshtein a <= levenshtein b)%Z.

Definition sorts (sort_Sort : list suggestion -> list suggestion) : Prop :=
  forall l, Permutation (sort_Sort l) l /\
            StronglySorted by_distance (sort_Sort l).

(** The names the second loop keeps. *)
Definition near (DistanceForStrings : string -> string -> Z)
    (arg name : string) : bool :=
  (DistanceForStrings arg name <=? MinLevenshtein)%Z.

(** [sub] occurs in [s]. *)
Definition occurs_in (sub s : string) : Prop :=
  exists pre post, s = (pre ++ sub ++ post)%string.

(** Every string of the list on a line of its own, behind a tab. *)
Fixpoint each_on_a_line (l : list string) : string :=
  match l with
  | [] => ""
  | s :: l' => (NL ++ TAB ++ s ++ each_on_a_line l')%string
  end.

(** For the examples: an insertion sort, and the edit distance with
    insertions at 1, deletions at 3 and substitutions at 2. *)
Fixpoint insert_by_distance (x : suggestion) (l : list suggestion)
    : list suggestion :=
  match l with
  | [] => [x]
  | y :: l' =>
      if (levenshtein x <=? levenshtein y)%Z then x :: l
      else y :: insert_by_distance x l'
  end.

Fixpoint insertion_sort (l : list suggestion) : list suggestion :=
  match l with
  | [] => []
  | x :: l' => insert_by_distance x (insertion_sort l')
  end.

Fixpoint edit_distance (source : string) : string -> Z :=
  fix to (target : string) : Z :=
    match source, target with
    | EmptyString, _ => Z.of_nat (String.length target)
    | _, EmptyString => 3 * Z.of_nat (String.length source)
    | String a source', String b target' =>
        Z.min (3 + edit_distance source' target)
          (Z.min ((if Ascii.eqb a b then 0 else 2) +
                  edit_distance source' target')
                 (1 + to target'))
    end%Z.

End Suggest.

(* ------------------------------------------------------------------ *)
(** ** Proofs                                                           *)
(* ------------------------------------------------------------------ *)

(* ------------------------------------------------------------------ *)
(** ** Invariants of every run                                          *)
(* ------------------------------------------------------------------ *)

Lemma consistent_new rq : consistent (NewChanResponsePair rq).
Proof.
  constructor; simpl; auto; try discriminate.
  split; auto.
Qed.

Lemma wf_init rq p c : wf (init rq p c).
Proof.
  constructor; simpl.
  - apply consistent_new.
  - intros v [H | H]; discriminate.
  - discriminate.
  - contradiction.
  - discriminate.
Qed.

Lemma closeWithError_open e st :
  consistent st -> closed st = false ->
  closeWithError e st =
    (None, {| req := req st; ch := Closed; closed := true;
              closeCh := Closed; err := Some (recorded e);
              waitLen := Closed; length := length st |}).
Proof.
  intros [Hch Hcc _ _ _] Hcl.
  rewrite Hcl in Hch, Hcc.
  unfold closeWithError; simpl. rewrite Hch, Hcc; simpl.
  destruct (waitLen st); destruct e as [[]|]; reflexivity.
Qed.

Lemma consistent_closed rq e l :
  (forall c, e <> cmdkit_Error_val c) ->
  consistent {| req := rq; ch := Closed; closed := true;
                closeCh := Closed; err := Some e;
                waitLen := Closed; length := l |}.
Proof.
  intros H.
  constructor; simpl; auto.
  - split; discriminate.
  - intros c Hc. inversion Hc. eapply H; eauto.
Qed.

Lemma recorded_not_val e c : recorded e <> cmdkit_Error_val c.
Proof. destruct e as [[]|]; simpl; discriminate. Qed.

Lemma consistent_set_waitLen st :
  consistent st -> consistent (set_waitLen Closed st).
Proof.
  intros [H1 H2 H3 H4 H5]; constructor; simpl; auto.
Qed.

Lemma consistent_set_length st l :
  consistent st -> consistent (set_length l st).
Proof.
  intros [H1 H2 H3 H4 H5]; constructor; simpl; auto.
Qed.

Lemma consistent_set_req st r :
  consistent st -> consistent (set_req r st).
Proof.
  intros [H1 H2 H3 H4 H5]; constructor; simpl; auto.
Qed.

Lemma close_unless_closed_Closed c : close_unless_closed c = Closed.
Proof. destruct c; reflexivity. Qed.

Lemma panic_cause_req c p st st' :
  req st' = req st -> panic_cause c p st -> panic_cause c p st'.
Proof.
  intros E [H | (v & H1 & H2 & H3)]; [left; exact H | right].
  exists v. rewrite E. auto.
Qed.

Lemma wf_p_finish c r st s :
  consistent st ->
  req st = req (stream s) ->
  log_ok s ->
  (forall p, r = Panics p -> panic_cause c p st) ->
  wf (p_finish c r st s).
Proof.
  intros Hst Hreq Hlog Hr.
  constructor; simpl.
  - exact Hst.
  - intros v [H | H]; destruct r; discriminate.
  - intros v H; destruct r; discriminate.
  - intros c' p Hin. apply in_app_or in Hin.
    destruct Hin as [Hin | [Hin | []]].
    + eapply panic_cause_req; [exact Hreq | auto].
    + inversion Hin; subst. auto.
  - intros p Hp. exists c. apply in_or_app. right. left.
    destruct r; inversion Hp; reflexivity.
Qed.

Lemma wf_emit_at_select v pick s :
  wf s ->
  closed (stream s) = false -> is_error v = false ->
  waitLen (stream s) = Closed -> Context (req (stream s)) <> None ->
  wf (emit_at_select v pick s).
Proof.
  intros W Hcl Hv Hw Hctx.
  pose proof W as [Hst Hemit Hpark Hpan Hdead].
  unfold emit_at_select, Emit_select.
  destruct (Context (req (stream s))) as [ctx|] eqn:Hc; [|congruence].
  rewrite (cons_ch _ Hst), Hcl.
  destruct (receiver_parked s && negb (is_closed (ctx_Done ctx) && pick)) eqn:Hr.
  - constructor; simpl; auto.
    + intros v0 [H | H]; inversion H; subst; repeat split; auto; congruence.
    + discriminate.
    + discriminate.
  - destruct (is_closed (ctx_Done ctx)) eqn:Hd.
    + apply wf_p_finish; auto. discriminate.
    + constructor; simpl; auto.
      * intros v0 [H | H]; inversion H; subst; repeat split; auto; congruence.
      * intros _ _. simpl in Hr. rewrite andb_true_r in Hr.
        unfold receiver_parked in Hr. destruct (c_status s); discriminate.
      * discriminate.
Qed.

Lemma wf_popped st s :
  wf s -> p_status s = PIdle -> consistent st -> req st = req (stream s) ->
  wf (with_stream st (p_pop s)).
Proof.
  intros [Hst Hemit Hpark Hpan Hdead] Hps Hc Hreq.
  constructor; simpl; auto.
  - intros v [H | H]; congruence.
  - intros c p Hin. eapply panic_cause_req; eauto.
Qed.

Lemma log_ok_pop s : wf s -> log_ok (p_pop s).
Proof. intros W c p Hin. exact (wf_panics _ W c p Hin). Qed.

Lemma wf_close e c s :
  wf s -> p_status s = PIdle ->
  wf (let (r, st) := CloseWithError e (stream (p_pop s)) in
      p_finish c r st (p_pop s)).
Proof.
  intros W Hps. pose proof (wf_stream _ W) as Hst.
  unfold CloseWithError. simpl stream.
  destruct (closed (stream s)) eqn:Hcl.
  - apply wf_p_finish; auto using log_ok_pop. discriminate.
  - rewrite (closeWithError_open e _ Hst Hcl).
    apply wf_p_finish; auto using log_ok_pop.
    + apply consistent_closed. apply recorded_not_val.
    + discriminate.
Qed.

Lemma wf_producer_step pick s : wf s -> wf (producer_step pick s).
Proof.
  intros W. pose proof (wf_stream _ W) as Hst.
  unfold producer_step.
  destruct (p_status s) eqn:Hps.
  - destruct (p_todo s) as [|c rest] eqn:Htodo; [exact W|].
    destruct c.
    + unfold Emit_enter, AssertNotError.
      destruct (is_error v) eqn:Hv.
      * apply wf_p_finish; auto using log_ok_pop.
        intros p Hp; inversion Hp; subst. left.
        destruct v; try discriminate. eauto.
      * rewrite close_unless_closed_Closed.
        change (closed (set_waitLen Closed (stream (p_pop s))))
          with (closed (stream s)).
        change (req (set_waitLen Closed (stream (p_pop s))))
          with (req (stream s)).
        destruct (closed (stream s)) eqn:Hcl.
        -- apply wf_p_finish; auto using log_ok_pop, consistent_set_waitLen.
           discriminate.
        -- destruct (Context (req (stream s))) as [ctx|] eqn:Hctx.
           ++ apply wf_emit_at_select; simpl; auto.
              ** apply wf_popped; auto using consistent_set_waitLen.
              ** congruence.
           ++ apply wf_p_finish; auto using log_ok_pop, consistent_set_waitLen.
              intros p Hp; inversion Hp; subst. right. exists v. auto.
    + apply (wf_close None); auto.
    + apply wf_close; auto.
    + apply wf_p_finish; auto using log_ok_pop.
      * unfold SetLength. simpl stream.
        destruct (waitLen (stream s)); auto using consistent_set_length.
      * unfold SetLength. simpl stream.
        destruct (waitLen (stream s)); reflexivity.
      * discriminate.
  - destruct (wf_emit _ W v (or_introl Hps)) as (H1 & H2 & H3 & H4).
    apply wf_emit_at_select; auto.
  - destruct (wf_emit _ W v (or_intror Hps)) as (H1 & H2 & H3 & H4).
    unfold Emit_sent. destruct (is_Single v).
    + rewrite (closeWithError_open None _ Hst H1).
      apply wf_p_finish; auto.
      * apply consistent_closed. apply recorded_not_val.
      * exact (wf_panics _ W).
      * discriminate.
    + apply wf_p_finish; auto.
      * exact (wf_panics _ W).
      * discriminate.
  - exact W.
Qed.

Lemma wf_c_finish r s : wf s -> wf (c_finish r s).
Proof.
  intros [Hst Hemit Hpark Hpan Hdead]; constructor; simpl; auto.
  discriminate.
Qed.

Lemma wf_c_pop s : wf s -> wf (c_pop s).
Proof.
  intros [Hst Hemit Hpark Hpan Hdead]; constructor; simpl; auto.
Qed.

Lemma wf_c_park_length s : wf s -> wf (c_park CInLength s).
Proof.
  intros [Hst Hemit Hpark Hpan Hdead]; constructor; simpl; auto.
  discriminate.
Qed.

Lemma wf_length_at_wait s : wf s -> wf (length_at_wait s).
Proof.
  intros W. unfold length_at_wait.
  destruct (Length (stream s)); auto using wf_c_finish, wf_c_park_length.
Qed.

Lemma wf_next_at_select pick s : wf s -> wf (next_at_select pick s).
Proof.
  intros W. pose proof W as [Hst Hemit Hpark Hpan Hdead].
  unfold next_at_select, Next.
  set (ctx := match Context (req (stream s)) with
              | Some rctx => rctx | None => context_Background end).
  unfold sender_parked.
  destruct (p_status s) eqn:Hps;
    destruct (ch (stream s)) eqn:Hch;
    destruct (is_closed (ctx_Done ctx)) eqn:Hd;
    destruct pick; simpl;
    try (apply wf_c_finish; exact W).
  all: constructor; simpl; rewrite ?Hps; auto; try congruence.
  all: intros v0 [H | H]; inversion H; subst; apply Hemit; auto.
Qed.

Section Messages.
Variables (m1 m2 : string).

Lemma wf_consumer_step pick s : wf s -> wf (consumer_step m1 m2 pick s).
Proof.
  intros W. unfold consumer_step.
  destruct (c_status s).
  - destruct (c_todo s) as [|c rest]; [exact W|].
    destruct c; auto using wf_next_at_select, wf_length_at_wait,
      wf_c_finish, wf_c_pop.
  - auto using wf_next_at_select.
  - auto using wf_length_at_wait.
Qed.

Lemma cancel_req_none c st :
  Context (req (cancel c st)) = None <-> Context (req st) = None.
Proof.
  unfold cancel. destruct (Context (req st)) as [[[e|]]|] eqn:H; simpl;
    rewrite ?H; split; congruence.
Qed.

Lemma consistent_cancel c st : consistent st -> consistent (cancel c st).
Proof.
  intros H. unfold cancel.
  destruct (Context (req st)) as [[[e|]]|]; auto using consistent_set_req.
Qed.

Lemma cancel_fields c st :
  ch (cancel c st) = ch st /\ closed (cancel c st) = closed st /\
  closeCh (cancel c st) = closeCh st /\ err (cancel c st) = err st /\
  waitLen (cancel c st) = waitLen st /\ length (cancel c st) = length st.
Proof.
  unfold cancel. destruct (Context (req st)) as [[[e|]]|]; simpl; auto 10.
Qed.

Lemma wf_cancel c s : wf s -> wf (with_stream (cancel c (stream s)) s).
Proof.
  intros [Hst Hemit Hpark Hpan Hdead].
  destruct (cancel_fields c (stream s)) as (F1 & F2 & F3 & F4 & F5 & F6).
  constructor; simpl; auto using consistent_cancel.
  - intros v H. rewrite F2, F5, cancel_req_none. auto.
  - intros c0 p Hin. destruct (Hpan c0 p Hin) as [H | (v & H1 & H2 & H3)].
    + left; exact H.
    + right. exists v. rewrite cancel_req_none. auto.
Qed.

(** What both goroutines' steps keep, a cancellation's wake-up keeps. *)
Lemma wake_inv (Inv : system -> Prop) :
  (forall pick s, Inv s -> Inv (producer_step pick s)) ->
  (forall pick s, Inv s -> Inv (consumer_step m1 m2 pick s)) ->
  forall s, Inv s -> Inv (wake m1 m2 s).
Proof.
  intros HP HC s H. unfold wake.
  assert (H' : Inv match p_status s with
                   | PSelect _ => producer_step true s
                   | _ => s
                   end) by (destruct (p_status s); auto).
  destruct (c_status _); auto.
Qed.

Lemma wf_step t s : wf s -> wf (step m1 m2 t s).
Proof.
  destruct t; simpl;
    auto using wf_producer_step, wf_consumer_step, wf_cancel.
  intros W. apply wake_inv; auto using wf_producer_step, wf_consumer_step,
    wf_cancel.
Qed.

Lemma wf_run sched : forall s, wf s -> wf (run m1 m2 sched s).
Proof.
  induction sched as [|t sched IH]; simpl; auto using wf_step.
Qed.

End Messages.

(* ------------------------------------------------------------------ *)
(** ** Runs without cancellation                                        *)
(* ------------------------------------------------------------------ *)

Lemma closed_after_app cl l1 l2 :
  closed_after cl (l1 ++ l2) = closed_after (closed_after cl l1) l2.
Proof.
  revert cl; induction l1 as [|[c r] l1 IH]; intros cl; simpl; auto.
Qed.

Lemma sound_snoc hc cl log c r :
  sound hc cl (log ++ [(c, r)]) <->
  sound hc cl log /\ r = expected hc (closed_after cl log) c.
Proof.
  revert cl; induction log as [|[c0 r0] log IH]; intros cl; simpl.
  - tauto.
  - rewrite IH. tauto.
Qed.

Lemma first_close_app l1 l2 :
  first_close (l1 ++ l2) =
  match first_close l1 with Some e => Some e | None => first_close l2 end.
Proof.
  induction l1 as [|[c r] l1 IH]; simpl; auto.
  destruct (closes c r); auto.
Qed.

Lemma sent_values_app l1 l2 :
  sent_values (l1 ++ l2) = sent_values l1 ++ sent_values l2.
Proof.
  induction l1 as [|[c r] l1 IH]; simpl; auto.
  destruct c; auto. destruct r as [[e|]|]; auto.
  simpl. f_equal. auto.
Qed.

Lemma quiet_init rq p c : ctx_live rq = true -> quiet (init rq p c).
Proof.
  intros H; constructor; simpl; auto.
  exists 0. simpl. split; [reflexivity | congruence].
Qed.

(** Finishing a producer call. *)
Lemma quiet_p_finish c r st s :
  wf s -> quiet s ->
  sent_values [(c, r)] = pending (p_status s) ->
  r = expected (has_ctx (req (stream s))) (closed (stream s)) c ->
  req st = req (stream s) ->
  closed st = closed (stream s) || closes c r ->
  err st = match err (stream s) with
           | Some e => Some e
           | None => first_close [(c, r)]
           end ->
  quiet (p_finish c r st s).
Proof.
  intros W [Hlive Hcl Hsound Herr [k [Hk1 Hk2]]] Hsent Hr Hreq Hcl' Herr'.
  pose proof (wf_stream _ W) as Hst.
  constructor; simpl.
  - rewrite Hreq. exact Hlive.
  - rewrite closed_after_app, <- Hcl. simpl. exact Hcl'.
  - rewrite Hreq. apply sound_snoc. split; auto. rewrite <- Hcl. exact Hr.
  - rewrite first_close_app, <- Herr. exact Herr'.
  - unfold delivered in *. simpl.
    rewrite sent_values_app, Hsent.
    assert (Hp : pending (match r with
                          | Return _ => PIdle | Panics p => PDead p end) = [])
      by (destruct r; reflexivity).
    rewrite Hp, app_nil_r.
    destruct (closed (stream s)) eqn:Hc.
    + exists k. split.
      * rewrite Herr'. destruct (err (stream s)) eqn:He; [exact Hk1|].
        apply (cons_err _ Hst) in He. congruence.
      * intros _. rewrite Hcl'. reflexivity.
    + exists 0. destruct k; [|discriminate Hk2; congruence].
      simpl in *. split; [exact Hk1 | congruence].
Qed.

(** [quiet] looks at a part of the system only. *)
Lemma quiet_ext s s' :
  req (stream s') = req (stream s) ->
  closed (stream s') = closed (stream s) ->
  err (stream s') = err (stream s) ->
  p_log s' = p_log s ->
  pending (p_status s') = pending (p_status s) ->
  filter is_next (c_log s') = filter is_next (c_log s) ->
  quiet s -> quiet s'.
Proof.
  intros E1 E2 E3 E4 E5 E6 [Hlive Hcl Hsound Herr Hord].
  constructor; unfold delivered in *; rewrite ?E1, ?E2, ?E3, ?E4, ?E5, ?E6;
    auto.
Qed.

Lemma filter_snoc {A} (f : A -> bool) l x :
  filter f (l ++ [x]) = filter f l ++ (if f x then [x] else []).
Proof.
  induction l as [|a l IH]; simpl.
  - destruct (f x); reflexivity.
  - rewrite IH. destruct (f a); reflexivity.
Qed.

(** A value changes hands. *)
Lemma quiet_handoff v s s' :
  wf s -> quiet s ->
  closed (stream s) = false ->
  pending (p_status s) = [] ->
  stream s' = stream s ->
  p_log s' = p_log s ->
  p_status s' = PSent v ->
  c_log s' = c_log s ++ [Next_received v] ->
  quiet s'.
Proof.
  intros W [Hlive Hcl Hsound Herr [k [Hk1 Hk2]]] Hc Hp E1 E2 E3 E4.
  rewrite Hc in Hk2.
  constructor; unfold delivered in *; rewrite ?E1, ?E2, ?E3, ?E4; auto.
  exists 0. destruct k; [|discriminate Hk2; congruence].
  simpl in *. rewrite filter_snoc. simpl.
  rewrite Hk1, Hp, !app_nil_r, map_app. simpl.
  split; [reflexivity | congruence].
Qed.

Lemma live_not_done st ctx :
  ctx_live (req st) = true -> Context (req st) = Some ctx ->
  is_closed (ctx_Done ctx) = false.
Proof.
  unfold ctx_live. intros H E. rewrite E in H.
  destruct (is_closed (ctx_Done ctx)); [discriminate | reflexivity].
Qed.

Lemma quiet_emit_at_select v pick s :
  wf s -> quiet s ->
  pending (p_status s) = [] ->
  closed (stream s) = false ->
  Context (req (stream s)) <> None ->
  quiet (emit_at_select v pick s).
Proof.
  intros W Q Hp Hcl Hctx.
  unfold emit_at_select, Emit_select.
  destruct (Context (req (stream s))) as [ctx|] eqn:Hc.
  - rewrite (live_not_done _ _ (q_live _ Q) Hc).
    rewrite (cons_ch _ (wf_stream _ W)), Hcl. simpl.
    rewrite andb_true_r.
    destruct (receiver_parked s).
    + apply (quiet_handoff v s); auto.
    + eapply quiet_ext; try exact Q; auto.
  - congruence.
Qed.

Lemma quiet_close e c s :
  wf s -> quiet s -> p_status s = PIdle ->
  c = PClose /\ e = None \/ c = PCloseWithError e ->
  quiet (let (r, st) := CloseWithError e (stream (p_pop s)) in
         p_finish c r st (p_pop s)).
Proof.
  intros W Q Hps Hc. pose proof (wf_stream _ W) as Hst.
  assert (Qp : quiet (p_pop s)) by (eapply quiet_ext; try exact Q; auto).
  assert (Wp : wf (p_pop s)) by (apply (wf_popped (stream s)); auto).
  pose proof (cons_err _ Hst) as Herr.
  unfold CloseWithError. simpl stream.
  destruct (closed (stream s)) eqn:Hcl.
  - destruct (err (stream s)) eqn:He;
      [|destruct Herr as [_ Herr]; discriminate Herr; reflexivity].
    destruct Hc as [[-> ->] | ->];
      apply quiet_p_finish; simpl; rewrite ?Hps, ?Hcl, ?He; auto.
  - rewrite (closeWithError_open e _ Hst Hcl).
    destruct Herr as [Herr _]. specialize (Herr eq_refl).
    destruct Hc as [[-> ->] | ->];
      apply quiet_p_finish; simpl; rewrite ?Hps, ?Hcl, ?Herr; auto.
Qed.

Ltac fin :=
  simpl; rewrite ?orb_false_r; try reflexivity;
  try (match goal with |- context [err ?st] => destruct (err st) end;
       reflexivity).

Lemma quiet_producer_step pick s :
  wf s -> quiet s -> quiet (producer_step pick s).
Proof.
  intros W Q. pose proof (wf_stream _ W) as Hst.
  pose proof (cons_err _ Hst) as Herr.
  unfold producer_step.
  destruct (p_status s) eqn:Hps.
  - destruct (p_todo s) as [|c rest] eqn:Htodo; [exact Q|].
    assert (Qp : quiet (p_pop s)) by (eapply quiet_ext; try exact Q; auto).
    assert (Wp : wf (p_pop s)) by (apply (wf_popped (stream s)); auto).
    destruct c.
    + unfold Emit_enter, AssertNotError.
      destruct (is_error v) eqn:Hv.
      * apply quiet_p_finish; simpl; rewrite ?Hps, ?Hv; auto; fin.
      * rewrite close_unless_closed_Closed.
        change (closed (set_waitLen Closed (stream (p_pop s))))
          with (closed (stream s)).
        change (req (set_waitLen Closed (stream (p_pop s))))
          with (req (stream s)).
        destruct (closed (stream s)) eqn:Hcl.
        -- apply quiet_p_finish; simpl; rewrite ?Hps, ?Hv, ?Hcl; auto; fin.
        -- destruct (Context (req (stream s))) as [ctx|] eqn:Hctx.
           ++ apply quiet_emit_at_select; simpl; rewrite ?Hps; auto.
              ** apply wf_popped; auto using consistent_set_waitLen.
              ** eapply quiet_ext; try exact Q; auto.
              ** congruence.
           ++ apply quiet_p_finish; simpl; rewrite ?Hps, ?Hv, ?Hcl; auto;
                unfold has_ctx; rewrite ?Hctx; fin.
    + apply (quiet_close None); auto.
    + apply quiet_close; auto.
    + apply quiet_p_finish; simpl; rewrite ?Hps; auto;
        unfold SetLength; destruct (waitLen (stream s)); fin.
  - destruct (wf_emit _ W v (or_introl Hps)) as (H1 & H2 & H3 & H4).
    apply quiet_emit_at_select; auto. rewrite Hps; reflexivity.
  - destruct (wf_emit _ W v (or_intror Hps)) as (H1 & H2 & H3 & H4).
    assert (Hhc : has_ctx (req (stream s)) = true)
      by (unfold has_ctx; destruct (Context (req (stream s))); congruence).
    pose proof (proj1 Herr H1) as He.
    unfold Emit_sent. destruct (is_Single v) eqn:Hsg.
    + rewrite (closeWithError_open None _ Hst H1).
      apply quiet_p_finish; simpl; rewrite ?Hps, ?H1, ?H2, ?Hhc, ?He, ?Hsg;
        auto.
    + apply quiet_p_finish; simpl; rewrite ?Hps, ?H1, ?H2, ?Hhc, ?He, ?Hsg;
        auto.
  - exact Q.
Qed.

Lemma quiet_c_finish_other r s :
  is_next r = false -> quiet s -> quiet (c_finish r s).
Proof.
  intros Hr Q. eapply quiet_ext; try exact Q; auto.
  simpl. rewrite filter_snoc, Hr, app_nil_r. reflexivity.
Qed.

Lemma quiet_length_at_wait s : quiet s -> quiet (length_at_wait s).
Proof.
  intros Q. unfold length_at_wait. destruct (Length (stream s)).
  - apply quiet_c_finish_other; auto.
  - eapply quiet_ext; try exact Q; auto.
Qed.

(** [Next] finds [ch] closed. *)
Lemma quiet_next_closed s :
  wf s -> quiet s -> ch (stream s) = Closed ->
  quiet (c_finish (NextResult nil_value (err (stream s))) s).
Proof.
  intros W [Hlive Hcl Hsound Herr [k [Hk1 Hk2]]] Hch.
  assert (Hc : closed (stream s) = true).
  { pose proof (cons_ch _ (wf_stream _ W)) as H. rewrite Hch in H.
    destruct (closed (stream s)); [reflexivity | discriminate]. }
  constructor; simpl; auto.
  exists (S k). split; [|auto].
  rewrite filter_snoc. simpl. unfold delivered in *; simpl.
  rewrite Hk1, <- app_assoc. f_equal.
  symmetry. apply repeat_cons.
Qed.

Lemma quiet_next_at_select pick s :
  wf s -> quiet s -> quiet (next_at_select pick s).
Proof.
  intros W Q. unfold next_at_select, Next.
  assert (Hd : is_closed (ctx_Done
            match Context (req (stream s)) with
            | Some rctx => rctx | None => context_Background end) = false).
  { destruct (Context (req (stream s))) eqn:Hc; [|reflexivity].
    eapply live_not_done; eauto. apply (q_live _ Q). }
  rewrite Hd. simpl. rewrite andb_true_r.
  destruct (ch (stream s)) eqn:Hch; simpl.
  - unfold sender_parked. destruct (p_status s) eqn:Hps;
      try (eapply quiet_ext; try exact Q; auto; fail).
    destruct (wf_emit _ W v (or_introl Hps)) as (H1 & H2 & H3 & H4).
    apply (quiet_handoff v s); auto. rewrite Hps; reflexivity.
  - apply quiet_next_closed; auto.
Qed.

Section Messages.
Variables (m1 m2 : string).

Lemma quiet_consumer_step pick s :
  wf s -> quiet s -> quiet (consumer_step m1 m2 pick s).
Proof.
  intros W Q. unfold consumer_step.
  destruct (c_status s).
  - destruct (c_todo s) as [|c rest]; [exact Q|].
    assert (Qp : quiet (c_pop s)) by (eapply quiet_ext; try exact Q; auto).
    destruct c; auto using quiet_next_at_select, quiet_length_at_wait,
      quiet_c_finish_other, wf_c_pop.
  - auto using quiet_next_at_select.
  - auto using quiet_length_at_wait.
Qed.

Lemma quiet_run sched : forall s,
  no_cancel sched = true -> wf s -> quiet s ->
  quiet (run m1 m2 sched s).
Proof.
  induction sched as [|t sched IH]; simpl; intros s Hn W Q; auto.
  apply andb_prop in Hn. destruct Hn as [Ht Hn].
  apply IH; auto using wf_step.
  destruct t; simpl in *;
    auto using quiet_producer_step, quiet_consumer_step.
  discriminate.
Qed.

End Messages.

(* ------------------------------------------------------------------ *)
(** ** The logs follow the two programs                                 *)
(* ------------------------------------------------------------------ *)

Lemma follows_init rq P C : follows P C (init rq P C).
Proof. constructor; simpl; auto. intros _ c p []. Qed.

Lemma follows_p_finish P C c r st s :
  map fst (p_log s) ++ c :: p_todo s = P ->
  map call_of (c_log s) ++ c_inflight (c_status s) ++ c_todo s = C ->
  no_panic (p_log s) ->
  follows P C (p_finish c r st s).
Proof.
  intros HP HC Hn. constructor; simpl; auto.
  - rewrite map_app, <- app_assoc. simpl.
    destruct r; simpl; exact HP.
  - intros Hq c' p' Hin. apply in_app_or in Hin.
    destruct Hin as [Hin | [Hin | []]].
    + exact (Hn _ _ Hin).
    + inversion Hin; subst. exact (Hq p' eq_refl).
Qed.

Lemma follows_handoff P C v s s' :
  map fst (p_log s) ++ PEmit v :: p_todo s = P ->
  map call_of (c_log s) ++ CNext :: c_todo s = C ->
  no_panic (p_log s) ->
  p_log s' = p_log s -> p_todo s' = p_todo s -> p_status s' = PSent v ->
  c_log s' = c_log s ++ [Next_received v] -> c_todo s' = c_todo s ->
  c_status s' = CIdle ->
  follows P C s'.
Proof.
  intros HP HC Hn E1 E2 E3 E4 E5 E6.
  constructor; rewrite ?E1, ?E2, ?E3, ?E4, ?E5, ?E6; simpl; auto.
  rewrite map_app, <- app_assoc. exact HC.
Qed.

Lemma Emit_select_sent r pick st :
  Emit_select r pick st = EmitSent -> r = true.
Proof.
  unfold Emit_select.
  destruct (Context (req st)) as [ctx|]; [|discriminate].
  destruct (ch st); destruct r; auto; simpl;
    destruct (is_closed (ctx_Done ctx)); simpl; try discriminate;
    destruct pick; discriminate.
Qed.

Lemma follows_emit_at_select P C v pick s :
  map fst (p_log s) ++ PEmit v :: p_todo s = P ->
  map call_of (c_log s) ++ c_inflight (c_status s) ++ c_todo s = C ->
  no_panic (p_log s) ->
  follows P C (emit_at_select v pick s).
Proof.
  intros HP HC Hn. unfold emit_at_select.
  destruct (Emit_select (receiver_parked s) pick (stream s)) eqn:He.
  - apply Emit_select_sent in He. unfold receiver_parked in He.
    destruct (c_status s) eqn:Hcs; try discriminate.
    apply (follows_handoff P C v s); auto.
  - apply follows_p_finish; auto.
  - apply follows_p_finish; auto.
  - constructor; simpl; auto.
Qed.

Lemma follows_producer_step P C pick s :
  follows P C s -> follows P C (producer_step pick s).
Proof.
  intros [HP HC Ha]. unfold producer_step.
  destruct (p_status s) eqn:Hps; simpl in HP.
  - destruct (p_todo s) as [|c rest] eqn:Htodo;
      [constructor; rewrite ?Hps, ?Htodo; auto|].
    assert (Hn : no_panic (p_log s)) by (apply Ha; discriminate).
    destruct c.
    + destruct (Emit_enter v (stream (p_pop s))) eqn:He.
      * apply follows_p_finish; simpl; rewrite ?Htodo; auto.
      * apply follows_emit_at_select; simpl; rewrite ?Htodo; auto.
    + destruct (Close (stream (p_pop s))) as [r st].
      apply follows_p_finish; simpl; rewrite ?Htodo; auto.
    + destruct (CloseWithError e (stream (p_pop s))) as [r st].
      apply follows_p_finish; simpl; rewrite ?Htodo; auto.
    + apply follows_p_finish; simpl; rewrite ?Htodo; auto.
  - apply follows_emit_at_select; auto. apply Ha. congruence.
  - destruct (Emit_sent v (stream s)) as [r st].
    apply follows_p_finish; auto. apply Ha. congruence.
  - constructor; rewrite ?Hps; auto.
Qed.

Lemma follows_c_finish P C r s :
  map fst (p_log s) ++ inflight (p_status s) ++ p_todo s = P ->
  map call_of (c_log s) ++ call_of r :: c_todo s = C ->
  ((forall q, p_status s <> PDead q) -> no_panic (p_log s)) ->
  follows P C (c_finish r s).
Proof.
  intros HP HC Ha. constructor; simpl; auto.
  rewrite map_app, <- app_assoc. exact HC.
Qed.

Lemma follows_c_park P C st s :
  map fst (p_log s) ++ inflight (p_status s) ++ p_todo s = P ->
  map call_of (c_log s) ++ c_inflight st ++ c_todo s = C ->
  ((forall q, p_status s <> PDead q) -> no_panic (p_log s)) ->
  follows P C (c_park st s).
Proof. intros HP HC Ha. constructor; simpl; auto. Qed.

Lemma follows_next_at_select P C pick s :
  map fst (p_log s) ++ inflight (p_status s) ++ p_todo s = P ->
  map call_of (c_log s) ++ CNext :: c_todo s = C ->
  ((forall q, p_status s <> PDead q) -> no_panic (p_log s)) ->
  follows P C (next_at_select pick s).
Proof.
  intros HP HC Ha. unfold next_at_select.
  destruct (Next (Some (stream s)) (sender_parked s) pick) eqn:Hn.
  - apply follows_c_finish; auto.
  - assert (Hs : sender_parked s = Some v).
    { unfold Next in Hn.
      destruct (sender_parked s) as [v'|];
        repeat match type of Hn with
               | context [if ?b then _ else _] => destruct b
               | context [match ch ?st with _ => _ end] => destruct (ch st)
               end; inversion Hn; reflexivity. }
    unfold sender_parked in Hs.
    destruct (p_status s) as [|v'| |] eqn:Hps; try discriminate.
    injection Hs as Hv. rewrite Hv in *.
    apply (follows_handoff P C v s); auto.
    apply Ha. congruence.
  - apply follows_c_park; auto.
Qed.

Lemma follows_length_at_wait P C s :
  map fst (p_log s) ++ inflight (p_status s) ++ p_todo s = P ->
  map call_of (c_log s) ++ CLength :: c_todo s = C ->
  ((forall q, p_status s <> PDead q) -> no_panic (p_log s)) ->
  follows P C (length_at_wait s).
Proof.
  intros HP HC Ha. unfold length_at_wait.
  destruct (Length (stream s)).
  - apply follows_c_finish; auto.
  - apply follows_c_park; auto.
Qed.

Section Messages.
Variables (m1 m2 : string).

Lemma follows_consumer_step P C pick s :
  follows P C s -> follows P C (consumer_step m1 m2 pick s).
Proof.
  intros [HP HC Ha]. unfold consumer_step.
  destruct (c_status s) eqn:Hcs; simpl in HC.
  - destruct (c_todo s) as [|c rest] eqn:Htodo;
      [constructor; rewrite ?Hcs, ?Htodo; auto|].
    destruct c.
    + apply follows_next_at_select; simpl; rewrite ?Htodo; auto.
    + apply follows_length_at_wait; simpl; rewrite ?Htodo; auto.
    + apply follows_c_finish; simpl; rewrite ?Htodo; auto.
  - apply follows_next_at_select; auto.
  - apply follows_length_at_wait; auto.
Qed.

Lemma follows_step P C t s : follows P C s -> follows P C (step m1 m2 t s).
Proof.
  destruct t; simpl;
    auto using follows_producer_step, follows_consumer_step.
  intros H. apply wake_inv;
    auto using follows_producer_step, follows_consumer_step.
  destruct H as [HP HC Ha]; constructor; auto.
Qed.

Lemma follows_run P C sched : forall s,
  follows P C s -> follows P C (run m1 m2 sched s).
Proof.
  induction sched as [|t sched IH]; simpl; auto using follows_step.
Qed.

(** Once both goroutines are through, the logs list the programs. *)
Lemma finished_logs P C s :
  follows P C s -> finished s = true ->
  map fst (p_log s) = P /\ map call_of (c_log s) = C /\
  no_panic (p_log s).
Proof.
  intros [HP HC Ha] Hf. unfold finished in Hf.
  destruct (p_todo s); try discriminate.
  destruct (p_status s) eqn:Hps; try discriminate.
  destruct (c_todo s); try discriminate.
  destruct (c_status s); try discriminate.
  simpl in *. rewrite app_nil_r in *.
  repeat split; auto. apply Ha. discriminate.
Qed.

End Messages.

(* ------------------------------------------------------------------ *)
(** ** The closed flag and the producer's log                           *)
(* ------------------------------------------------------------------ *)

Lemma flagged_p_finish c r st s :
  flagged s -> closed st = closed (stream s) || closes c r ->
  flagged (p_finish c r st s).
Proof.
  unfold flagged. intros H E. simpl.
  rewrite closed_after_app, <- H. simpl. exact E.
Qed.

Lemma flagged_emit_at_select v pick s :
  flagged s -> flagged (emit_at_select v pick s).
Proof.
  intros H. unfold emit_at_select.
  destruct (Emit_select (receiver_parked s) pick (stream s)) eqn:He;
    try exact H.
  - apply flagged_p_finish; auto.
    unfold Emit_select in He.
    destruct (Context (req (stream s))) as [[[e'|]]|]; try discriminate;
      destruct (ch (stream s)); simpl in He;
      repeat match type of He with
             | context [if ?b then _ else _] => destruct b
             end; inversion He; simpl; rewrite orb_false_r; reflexivity.
  - apply flagged_p_finish; auto. simpl. rewrite orb_false_r; reflexivity.
Qed.

Lemma flagged_producer_step pick s :
  wf s -> flagged s -> flagged (producer_step pick s).
Proof.
  intros W H. pose proof (wf_stream _ W) as Hst.
  unfold producer_step.
  destruct (p_status s) eqn:Hps.
  - destruct (p_todo s) as [|c rest]; [exact H|].
    destruct c.
    + unfold Emit_enter, AssertNotError.
      destruct (is_error v) eqn:Hv.
      * apply flagged_p_finish; auto. simpl. rewrite orb_false_r; reflexivity.
      * simpl closed. destruct (closed (stream s)) eqn:Hcl.
        -- apply flagged_p_finish; auto. simpl. rewrite Hcl. reflexivity.
        -- simpl req. destruct (Context (req (stream s))).
           ++ apply flagged_emit_at_select. exact H.
           ++ apply flagged_p_finish; auto. simpl. rewrite Hcl. reflexivity.
    + unfold Close, CloseWithError. simpl stream.
      destruct (closed (stream s)) eqn:Hcl.
      * apply flagged_p_finish; auto. simpl. rewrite Hcl. reflexivity.
      * rewrite (closeWithError_open None _ Hst Hcl).
        apply flagged_p_finish; auto. simpl. rewrite orb_true_r. reflexivity.
    + unfold CloseWithError. simpl stream.
      destruct (closed (stream s)) eqn:Hcl.
      * apply flagged_p_finish; auto. simpl. rewrite Hcl. reflexivity.
      * rewrite (closeWithError_open e _ Hst Hcl).
        apply flagged_p_finish; auto. simpl. rewrite orb_true_r. reflexivity.
    + apply flagged_p_finish; auto. unfold SetLength. simpl.
      rewrite orb_false_r. destruct (waitLen (stream s)); reflexivity.
  - apply flagged_emit_at_select. exact H.
  - destruct (wf_emit _ W v (or_intror Hps)) as (H1 & H2 & H3 & H4).
    unfold Emit_sent. destruct (is_Single v) eqn:Hsg.
    + rewrite (closeWithError_open None _ Hst H1).
      apply flagged_p_finish; auto. simpl. rewrite Hsg, orb_true_r.
      reflexivity.
    + apply flagged_p_finish; auto. simpl. rewrite Hsg, orb_false_r.
      reflexivity.
  - exact H.
Qed.

Section Messages.
Variables (m1 m2 : string).

Lemma flagged_consumer_step pick s :
  flagged s -> flagged (consumer_step m1 m2 pick s).
Proof.
  intros H. unfold consumer_step, next_at_select, length_at_wait.
  repeat match goal with
         | |- context [match ?x with _ => _ end] => destruct x
         end; exact H.
Qed.

Lemma flagged_step t s : wf s -> flagged s -> flagged (step m1 m2 t s).
Proof.
  intros W H. destruct t; simpl;
    auto using flagged_producer_step, flagged_consumer_step.
  apply (wake_inv m1 m2 (fun s => wf s /\ flagged s)).
  - intros pick s0 [W0 H0].
    auto using wf_producer_step, flagged_producer_step.
  - intros pick s0 [W0 H0].
    auto using wf_consumer_step, flagged_consumer_step.
  - split; [apply wf_cancel; exact W|].
    unfold flagged in *. simpl.
    destruct (cancel_fields c (stream s)) as (_ & F & _). rewrite F. exact H.
Qed.

Lemma flagged_run sched : forall s,
  wf s -> flagged s -> flagged (run m1 m2 sched s).
Proof.
  induction sched as [|t sched IH]; simpl; auto using flagged_step, wf_step.
Qed.

End Messages.

(* ------------------------------------------------------------------ *)
(** ** Properties of the stream core                                    *)
(* ------------------------------------------------------------------ *)

Lemma wf_reachable m1 m2 rq P C sched :
  wf (run m1 m2 sched (init rq P C)).
Proof. apply wf_run, wf_init. Qed.

(** [Next] on a nil response is the end of the stream at once. *)
Lemma Next_nil_receiver sender pick :
  Next None sender pick = NextReturn nil_value (Some io_EOF).
Proof. reflexivity. Qed.

Lemma set_waitLen_same st : waitLen st = Closed -> set_waitLen Closed st = st.
Proof. destruct st; simpl; intros ->; reflexivity. Qed.

(** C4.  An [Emit] on a closed stream, with a value that is not an error
    value, returns [ErrClosedEmitter]: the call is over within the
    producer's own step, the log gains that result and no panic, the
    consumer's log and status and the whole stream are as before, so no
    value was handed over. *)
Theorem Emit_after_close m1 m2 rq P C sched v rest pick :
  let s := run m1 m2 sched (init rq P C) in
  p_status s = PIdle -> p_todo s = PEmit v :: rest ->
  closed (stream s) = true -> is_error v = false ->
  Emit_enter v (stream s) =
    EntryDone (Return (Some ErrClosedEmitter)) (stream s) /\
  step m1 m2 (Producer pick) s =
    {| stream := stream s; p_todo := rest; p_status := PIdle;
       p_log := p_log s ++ [(PEmit v, Return (Some ErrClosedEmitter))];
       c_todo := c_todo s; c_status := c_status s; c_log := c_log s |}.
Proof.
  intros s Hps Htodo Hcl Hv.
  pose proof (wf_reachable m1 m2 rq P C sched) as W. fold s in W.
  pose proof (cons_waitLen _ (wf_stream _ W) Hcl) as Hw.
  assert (E : Emit_enter v (stream s) =
              EntryDone (Return (Some ErrClosedEmitter)) (stream s)).
  { unfold Emit_enter, AssertNotError. rewrite Hv, Hw. simpl.
    rewrite Hcl. f_equal. apply set_waitLen_same. exact Hw. }
  split; [exact E|].
  simpl. unfold producer_step. rewrite Hps, Htodo. simpl stream.
  rewrite E. unfold p_finish. simpl. rewrite Htodo. reflexivity.
Qed.

Lemma Emit_after_close_witness :
  let s := run "" "" [Producer false]
             (init live_request [PClose; PEmit (Plain "late")] [CNext]) in
  p_log (step "" "" (Producer false) s) =
    [(PClose, Return None);
     (PEmit (Plain "late"), Return (Some ErrClosedEmitter))] /\
  c_log (step "" "" (Producer false) s) = [].
Proof.
  intros s.
  destruct (Emit_after_close "" "" live_request
              [PClose; PEmit (Plain "late")] [CNext] [Producer false]
              (Plain "late") [] false eq_refl eq_refl eq_refl eq_refl)
    as [_ H].
  fold s in H. rewrite H. split; reflexivity.
Defined.

Lemma frozen_refl st : frozen st st.
Proof. split; auto. Qed.

Lemma frozen_closeWithError e st : frozen st (snd (closeWithError e st)).
Proof.
  destruct st as [rq c cd cc er w l].
  destruct c; split; simpl; auto using close_unless_closed_Closed.
Qed.

Lemma frozen_CloseWithError e st : frozen st (snd (CloseWithError e st)).
Proof.
  unfold CloseWithError.
  destruct (closed st); [apply frozen_refl|].
  pose proof (frozen_closeWithError e st) as F.
  destruct (closeWithError e st) as [[p|] st']; exact F.
Qed.

Lemma frozen_Emit_sent v st : frozen st (snd (Emit_sent v st)).
Proof.
  unfold Emit_sent.
  destruct (is_Single v); [|apply frozen_refl].
  pose proof (frozen_closeWithError None st) as F.
  destruct (closeWithError None st) as [[p|] st']; exact F.
Qed.

Lemma stream_emit_at_select v pick s :
  stream (emit_at_select v pick s) = stream s.
Proof.
  unfold emit_at_select.
  destruct (Emit_select (receiver_parked s) pick (stream s)); reflexivity.
Qed.

(** Only a [SetLength] that finds [waitLen] open writes [length]. *)
Lemma frozen_producer_step pick s :
  (forall l rest, p_status s = PIdle -> p_todo s = PSetLength l :: rest ->
                  waitLen (stream s) = Closed) ->
  frozen (stream s) (stream (producer_step pick s)).
Proof.
  intros Hset. unfold producer_step.
  destruct (p_status s) eqn:Hps.
  - destruct (p_todo s) as [|c rest] eqn:Htodo; [apply frozen_refl|].
    destruct c.
    + unfold Emit_enter. simpl stream.
      destruct (AssertNotError v); [apply frozen_refl|].
      simpl closed. simpl req. rewrite close_unless_closed_Closed.
      destruct (closed (stream s)); [split; auto|].
      destruct (Context (req (stream s))); [|split; auto].
      rewrite stream_emit_at_select. split; auto.
    + pose proof (frozen_CloseWithError None (stream s)) as F.
      unfold Close. simpl stream.
      destruct (CloseWithError None (stream s)); exact F.
    + pose proof (frozen_CloseWithError e (stream s)) as F.
      simpl stream. destruct (CloseWithError e (stream s)); exact F.
    + simpl. unfold SetLength. rewrite (Hset l rest eq_refl eq_refl).
      apply frozen_refl.
  - rewrite stream_emit_at_select. apply frozen_refl.
  - pose proof (frozen_Emit_sent v (stream s)) as F.
    destruct (Emit_sent v (stream s)); exact F.
  - apply frozen_refl.
Qed.

Lemma stream_consumer_step m1 m2 pick s :
  stream (consumer_step m1 m2 pick s) = stream s.
Proof.
  unfold consumer_step, next_at_select, length_at_wait.
  repeat match goal with
         | |- context [match ?x with _ => _ end] => destruct x
         end; reflexivity.
Qed.

(** A wake-up completes calls; it writes nothing to the stream. *)
Lemma stream_wake m1 m2 s : stream (wake m1 m2 s) = stream s.
Proof.
  unfold wake.
  assert (E : stream match p_status s with
                     | PSelect _ => producer_step true s
                     | _ => s
                     end = stream s).
  { destruct (p_status s) eqn:Hps; auto.
    unfold producer_step. rewrite Hps. apply stream_emit_at_select. }
  destruct (c_status _); rewrite ?stream_consumer_step; exact E.
Qed.

Lemma frozen_cancel c st : frozen st (cancel c st).
Proof.
  destruct (cancel_fields c st) as (_ & _ & _ & _ & F5 & F6).
  split; congruence.
Qed.

Lemma frozen_step m1 m2 t s :
  waitLen (stream s) = Closed ->
  frozen (stream s) (stream (step m1 m2 t s)).
Proof.
  intros Hw. destruct t; simpl.
  - apply frozen_producer_step; auto.
  - rewrite stream_consumer_step. apply frozen_refl.
  - rewrite stream_wake. apply frozen_cancel.
Qed.

Lemma frozen_run m1 m2 sched : forall s,
  waitLen (stream s) = Closed ->
  waitLen (stream (run m1 m2 sched s)) = Closed /\
  length (stream (run m1 m2 sched s)) = length (stream s).
Proof.
  induction sched as [|t sched IH]; simpl; intros s Hw; auto.
  destruct (frozen_step m1 m2 t s Hw) as [H1 H2].
  destruct (IH _ (H2 Hw)) as [H3 H4]. split; congruence.
Qed.





(** *** Before the first activity *)

Lemma forallb_snoc {A} (f : A -> bool) l x :
  forallb f (l ++ [x]) = forallb f l && f x.
Proof.
  rewrite forallb_app. simpl. rewrite andb_true_r. reflexivity.
Qed.

Lemma not_only_p_finish c r st s :
  is_SetLength c = false -> ~ only_SetLength (p_finish c r st s).
Proof.
  intros Hc [_ H]. simpl in H. rewrite forallb_snoc in H. simpl in H.
  rewrite Hc, andb_false_r in H. discriminate.
Qed.

Lemma fresh_emit_at_select v pick s : fresh (emit_at_select v pick s).
Proof.
  unfold emit_at_select.
  destruct (Emit_select (receiver_parked s) pick (stream s));
    intros H; try (destruct H as [H _]; discriminate H);
    exfalso; revert H; apply not_only_p_finish; reflexivity.
Qed.

Lemma fresh_producer_step pick s : fresh s -> fresh (producer_step pick s).
Proof.
  intros F. unfold producer_step.
  destruct (p_status s) eqn:Hps.
  - destruct (p_todo s) as [|c rest]; [exact F|].
    destruct c.
    + destruct (Emit_enter v (stream (p_pop s))).
      * intros H. exfalso; revert H; apply not_only_p_finish; reflexivity.
      * apply fresh_emit_at_select.
    + destruct (Close (stream (p_pop s))).
      intros H. exfalso; revert H; apply not_only_p_finish; reflexivity.
    + destruct (CloseWithError e (stream (p_pop s))).
      intros H. exfalso; revert H; apply not_only_p_finish; reflexivity.
    + intros [_ H]. simpl in *. rewrite forallb_snoc in H.
      apply andb_prop in H. destruct H as [H _].
      assert (Hw : waitLen (stream s) = Open) by (apply F; split; auto).
      unfold SetLength. rewrite Hw. exact Hw.
  - apply fresh_emit_at_select.
  - destruct (Emit_sent v (stream s)).
    intros H. exfalso; revert H; apply not_only_p_finish; reflexivity.
  - exact F.
Qed.

Lemma producer_side_consumer_step m1 m2 pick s :
  p_log (consumer_step m1 m2 pick s) = p_log s /\
  p_todo (consumer_step m1 m2 pick s) = p_todo s /\
  (p_status (consumer_step m1 m2 pick s) = PIdle -> p_status s = PIdle).
Proof.
  unfold consumer_step, next_at_select, length_at_wait.
  repeat match goal with
         | |- context [match ?x with _ => _ end] => destruct x
         end; simpl; repeat split; auto; discriminate.
Qed.

Lemma fresh_consumer_step m1 m2 pick s :
  fresh s -> fresh (consumer_step m1 m2 pick s).
Proof.
  intros F.
  destruct (producer_side_consumer_step m1 m2 pick s) as (E1 & _ & E3).
  intros [H1 H2]. rewrite stream_consumer_step. apply F.
  split; [auto | rewrite <- E1; exact H2].
Qed.

Lemma fresh_step m1 m2 t s : fresh s -> fresh (step m1 m2 t s).
Proof.
  intros F. destruct t; simpl.
  - apply fresh_producer_step; auto.
  - apply fresh_consumer_step; auto.
  - apply wake_inv; auto using fresh_producer_step, fresh_consumer_step.
    intros H. simpl.
    destruct (cancel_fields c (stream s)) as (_ & _ & _ & _ & F5 & _).
    rewrite F5. apply F. exact H.
Qed.

Lemma fresh_run m1 m2 sched : forall s, fresh s -> fresh (run m1 m2 sched s).
Proof.
  induction sched as [|t sched IH]; simpl; auto using fresh_step.
Qed.

Lemma fresh_init rq P C : fresh (init rq P C).
Proof. intros _. reflexivity. Qed.

(** *** A program that never calls [SetLength] *)

Lemma p_todo_emit_at_select v pick s :
  p_todo (emit_at_select v pick s) = p_todo s.
Proof.
  unfold emit_at_select.
  destruct (Emit_select (receiver_parked s) pick (stream s)); reflexivity.
Qed.

Lemma p_todo_producer_step pick s :
  p_todo (producer_step pick s) = p_todo s \/
  p_todo (producer_step pick s) = tl (p_todo s).
Proof.
  unfold producer_step.
  destruct (p_status s).
  - destruct (p_todo s) as [|c rest] eqn:Htodo; [left; auto|].
    right. destruct c.
    + destruct (Emit_enter v (stream (p_pop s))); simpl;
        rewrite ?p_todo_emit_at_select; simpl; rewrite ?Htodo; reflexivity.
    + destruct (Close (stream (p_pop s))); simpl; rewrite Htodo; reflexivity.
    + destruct (CloseWithError e (stream (p_pop s))); simpl;
        rewrite Htodo; reflexivity.
    + simpl. rewrite Htodo; reflexivity.
  - left. apply p_todo_emit_at_select.
  - left. destruct (Emit_sent v (stream s)); reflexivity.
  - left; reflexivity.
Qed.

Lemma forallb_tl {A} (f : A -> bool) l :
  forallb f l = true -> forallb f (tl l) = true.
Proof.
  destruct l; simpl; auto. intros H. apply andb_prop in H. tauto.
Qed.

Lemma never_set_producer_step pick s :
  never_set s -> never_set (producer_step pick s).
Proof.
  intros [H0 Hn]. split.
  - destruct (frozen_producer_step pick s) as [E _]; [|congruence].
    intros l rest _ Htodo. rewrite Htodo in Hn. discriminate.
  - destruct (p_todo_producer_step pick s) as [E | E]; rewrite E;
      auto using forallb_tl.
Qed.

Lemma never_set_consumer_step m1 m2 pick s :
  never_set s -> never_set (consumer_step m1 m2 pick s).
Proof.
  intros [H0 Hn].
  destruct (producer_side_consumer_step m1 m2 pick s) as (_ & E2 & _).
  split; [rewrite stream_consumer_step; auto | rewrite E2; auto].
Qed.

Lemma never_set_step m1 m2 t s : never_set s -> never_set (step m1 m2 t s).
Proof.
  intros H. destruct t; simpl;
    auto using never_set_producer_step, never_set_consumer_step.
  apply wake_inv;
    auto using never_set_producer_step, never_set_consumer_step.
  destruct H as [H0 Hn]. split; auto. simpl.
  destruct (frozen_cancel c (stream s)) as [E _]. congruence.
Qed.

Lemma never_set_run m1 m2 sched : forall s,
  never_set s -> never_set (run m1 m2 sched s).
Proof.
  induction sched as [|t sched IH]; simpl; auto using never_set_step.
Qed.

(** *** What [Length] returned stays true *)

Lemma c_log_emit_at_select v pick s :
  c_log (emit_at_select v pick s) = c_log s \/
  c_log (emit_at_select v pick s) = c_log s ++ [Next_received v].
Proof.
  unfold emit_at_select.
  destruct (Emit_select (receiver_parked s) pick (stream s)); simpl; auto.
Qed.

Lemma c_log_producer_step pick s :
  c_log (producer_step pick s) = c_log s \/
  exists v, c_log (producer_step pick s) = c_log s ++ [Next_received v].
Proof.
  unfold producer_step.
  destruct (p_status s).
  - destruct (p_todo s) as [|c rest]; [left; reflexivity|].
    destruct c.
    + destruct (Emit_enter v (stream (p_pop s))); [left; reflexivity|].
      destruct (c_log_emit_at_select v pick (with_stream re (p_pop s)))
        as [E | E]; rewrite E; simpl; eauto.
    + destruct (Close (stream (p_pop s))); left; reflexivity.
    + destruct (CloseWithError e (stream (p_pop s))); left; reflexivity.
    + left; reflexivity.
  - destruct (c_log_emit_at_select v pick s) as [E | E]; rewrite E; eauto.
  - destruct (Emit_sent v (stream s)); left; reflexivity.
  - left; reflexivity.
Qed.

Lemma c_log_consumer_step m1 m2 pick s :
  c_log (consumer_step m1 m2 pick s) = c_log s \/
  exists r, c_log (consumer_step m1 m2 pick s) = c_log s ++ [r] /\
    forall l, r = LengthResult l -> Length (stream s) = Some l.
Proof.
  assert (HN : forall s', stream s' = stream s -> c_log s' = c_log s ->
    c_log (next_at_select pick s') = c_log s \/
    exists r, c_log (next_at_select pick s') = c_log s ++ [r] /\
      forall l, r = LengthResult l -> Length (stream s) = Some l).
  { intros s' E1 E2. unfold next_at_select.
    destruct (Next (Some (stream s')) (sender_parked s') pick); simpl;
      rewrite E2; auto; right; eexists; split; try reflexivity;
      discriminate. }
  assert (HL : forall s', stream s' = stream s -> c_log s' = c_log s ->
    c_log (length_at_wait s') = c_log s \/
    exists r, c_log (length_at_wait s') = c_log s ++ [r] /\
      forall l, r = LengthResult l -> Length (stream s) = Some l).
  { intros s' E1 E2. unfold length_at_wait. rewrite E1.
    destruct (Length (stream s)) eqn:HLen; simpl; rewrite E2; auto.
    right; eexists; split; [reflexivity|]. congruence. }
  unfold consumer_step.
  destruct (c_status s); auto.
  destruct (c_todo s) as [|c rest]; auto.
  destruct c; auto.
  right; eexists; split; [reflexivity | discriminate].
Qed.

Lemma length_logged_producer_step pick s :
  length_logged s -> length_logged (producer_step pick s).
Proof.
  intros H l Hin.
  assert (Hin' : In (LengthResult l) (c_log s)).
  { destruct (c_log_producer_step pick s) as [E | [v E]];
      rewrite E in Hin; auto.
    apply in_app_or in Hin. destruct Hin as [Hin | [Hin | []]]; auto.
    discriminate. }
  destruct (H l Hin') as [Hw Hl].
  destruct (frozen_producer_step pick s) as [F1 F2]; auto.
  split; [auto | congruence].
Qed.

Lemma length_logged_consumer_step m1 m2 pick s :
  length_logged s -> length_logged (consumer_step m1 m2 pick s).
Proof.
  intros H l Hin. rewrite stream_consumer_step.
  destruct (c_log_consumer_step m1 m2 pick s) as [E | (r & E & Hr)];
    rewrite E in Hin; auto.
  apply in_app_or in Hin. destruct Hin as [Hin | [Hin | []]]; auto.
  specialize (Hr l Hin). unfold Length in Hr.
  destruct (waitLen (stream s)); [discriminate|].
  split; congruence.
Qed.

Lemma length_logged_step m1 m2 t s :
  length_logged s -> length_logged (step m1 m2 t s).
Proof.
  intros H. destruct t; simpl;
    auto using length_logged_producer_step, length_logged_consumer_step.
  apply wake_inv;
    auto using length_logged_producer_step, length_logged_consumer_step.
  intros l Hin. simpl in *.
  destruct (cancel_fields c (stream s)) as (_ & _ & _ & _ & F5 & F6).
  rewrite F5, F6. auto.
Qed.

Lemma length_logged_run m1 m2 sched : forall s,
  length_logged s -> length_logged (run m1 m2 sched s).
Proof.
  induction sched as [|t sched IH]; simpl; auto using length_logged_step.
Qed.

(** C6.  [SetLength n] called while the producer has called nothing but
    [SetLength] stores [n], and [Length] would still block then.  Once
    [waitLen] is closed [SetLength] leaves the stream as it is, and
    [Length] returns the stored length, the same after any further
    steps.  [Length] blocks exactly while [waitLen] is open, and a
    length it once returned to the consumer is the stored length ever
    after.  If the program never calls [SetLength], the stored length is
    zero. *)
Theorem SetLength_Length m1 m2 rq P C sched :
  let s := run m1 m2 sched (init rq P C) in
  (forall n rest pick,
      only_SetLength s -> p_todo s = PSetLength n :: rest ->
      Length (stream s) = None /\
      length (stream (step m1 m2 (Producer pick) s)) = n) /\
  (waitLen (stream s) = Closed ->
      (forall n, SetLength n (stream s) = stream s) /\
      (forall sched',
          Length (stream (run m1 m2 sched' s)) = Some (length (stream s)))) /\
  (Length (stream s) = None <-> waitLen (stream s) = Open) /\
  (forall l, In (LengthResult l) (c_log s) -> length (stream s) = l) /\
  (forallb (fun c => negb (is_SetLength c)) P = true ->
      length (stream s) = 0%N).
Proof.
  intros s.
  pose proof (fresh_run m1 m2 sched _ (fresh_init rq P C)) as Hfresh.
  fold s in Hfresh.
  split; [|split; [|split; [|split]]].
  - intros n rest pick Honly Htodo.
    pose proof (Hfresh Honly) as Hw. destruct Honly as [Hps _].
    split.
    + unfold Length. rewrite Hw. reflexivity.
    + simpl. unfold producer_step. rewrite Hps, Htodo. simpl.
      unfold SetLength. rewrite Hw. reflexivity.
  - intros Hw. split.
    + intros n. unfold SetLength. rewrite Hw. reflexivity.
    + intros sched'. destruct (frozen_run m1 m2 sched' s Hw) as [H1 H2].
      unfold Length. rewrite H1, H2. reflexivity.
  - unfold Length. destruct (waitLen (stream s)); split; auto; discriminate.
  - intros l Hin.
    apply (length_logged_run m1 m2 sched (init rq P C)); auto.
    intros l' [].
  - intros H. apply (never_set_run m1 m2 sched (init rq P C)).
    split; auto.
Qed.

Lemma SetLength_Length_witness :
  length (stream (step "" "" (Producer false)
     (run "" "" [] (init live_request
        [PSetLength 7; PEmit (Plain "a"); PSetLength 9] [CLength])))) = 7%N /\
  SetLength 9 (stream (run "" "" [Producer false; Producer false]
     (init live_request
        [PSetLength 7; PEmit (Plain "a"); PSetLength 9] [CLength]))) =
    stream (run "" "" [Producer false; Producer false]
     (init live_request
        [PSetLength 7; PEmit (Plain "a"); PSetLength 9] [CLength])) /\
  length (stream (run "" "" [Producer false; Consumer false]
     (init live_request [PEmit (Plain "a")] [CNext]))) = 0%N.
Proof.
  split; [|split].
  - exact (proj2 (proj1 (SetLength_Length "" "" live_request
             [PSetLength 7; PEmit (Plain "a"); PSetLength 9] [CLength] [])
             7%N [PEmit (Plain "a"); PSetLength 9] false
             (conj eq_refl eq_refl) eq_refl)).
  - exact (proj1 (proj1 (proj2 (SetLength_Length "" "" live_request
             [PSetLength 7; PEmit (Plain "a"); PSetLength 9] [CLength]
             [Producer false; Producer false])) eq_refl) 9%N).
  - exact (proj2 (proj2 (proj2 (proj2 (SetLength_Length "" "" live_request
             [PEmit (Plain "a")] [CNext] [Producer false; Consumer false]))))
             eq_refl).
Defined.

(** *** [Error] *)

Lemma Error_recorded m1 m2 rq e l :
  Error m1 m2 {| req := rq; ch := Closed; closed := true; closeCh := Closed;
                 err := Some (recorded e); waitLen := Closed; length := l |}
  = structured m1 m2 e.
Proof. destruct e as [[]|]; reflexivity. Qed.

(** C7.  On every stream a run can reach: [Error] is nil while the
    stream is not closed; on a closed stream it is nil if the terminal
    error is the end-of-stream sentinel, the [cmdkit.Error] itself if the
    terminal error is one, and otherwise a [cmdkit.Error] of kind 0
    carrying the error's message.  Closing an open stream with [e] makes
    [Error] return what the spec asks for [e]; the close that follows a
    [Single] makes it return nil.  [Error] is a total function of the
    stream (it has no blocking case), and a consumer's call to it is
    over within that consumer step. *)
Theorem Error_nonblocking_structured m1 m2 rq P C sched :
  let s := run m1 m2 sched (init rq P C) in
  let st := stream s in
  (closed st = false -> Error m1 m2 st = None) /\
  (closed st = true ->
     exists e, err st = Some e /\
       (forall c, e <> cmdkit_Error_val c) /\
       Error m1 m2 st =
         match e with
         | io_EOF => None
         | cmdkit_Error_ptr c => Some c
         | _ => Some {| Message := error_string m1 m2 e; Code := 0%N |}
         end) /\
  (closed st = false ->
     (forall e, Error m1 m2 (snd (CloseWithError e st)) = structured m1 m2 e)
     /\ Error m1 m2 (snd (Emit_sent (Single nil_value) st)) = None) /\
  (forall rest pick, c_status s = CIdle -> c_todo s = CError :: rest ->
     c_status (step m1 m2 (Consumer pick) s) = CIdle /\
     c_log (step m1 m2 (Consumer pick) s) =
       c_log s ++ [ErrorResult (Error m1 m2 st)]).
Proof.
  intros s st.
  pose proof (wf_reachable m1 m2 rq P C sched) as W. fold s in W.
  pose proof (wf_stream _ W) as Hst. fold st in Hst.
  destruct Hst as [Hch Hcc Hw Herr Hptr].
  split; [|split; [|split]].
  - intros Hcl. unfold Error. rewrite Hcc, Hcl. reflexivity.
  - intros Hcl. destruct (err st) as [e|] eqn:He.
    + exists e. split; [reflexivity|]. split.
      * intros c Hc. apply (Hptr c). congruence.
      * unfold Error. rewrite Hcc, Hcl, He.
        destruct e; reflexivity.
    + destruct Herr as [_ Herr]. rewrite (Herr eq_refl) in Hcl.
      discriminate.
  - intros Hcl.
    assert (Hst : consistent st) by (constructor; auto).
    split.
    + intros e. unfold CloseWithError. rewrite Hcl.
      rewrite (closeWithError_open e _ Hst Hcl). apply Error_recorded.
    + unfold Emit_sent. simpl is_Single. cbv iota.
      rewrite (closeWithError_open None _ Hst Hcl). reflexivity.
  - intros rest pick Hcs Htodo. simpl. unfold consumer_step.
    rewrite Hcs, Htodo. split; reflexivity.
Qed.

Lemma Error_nonblocking_structured_witness :
  Error "" "" (stream (run "" "" [] (init live_request [PClose] [CError])))
    = None /\
  Error "" "" (snd (CloseWithError
      (Some (cmdkit_Error_val {| Message := "boom"; Code := 3%N |}))
      (stream (run "" "" [] (init live_request [PClose] [CError])))))
    = Some {| Message := "boom"; Code := 3%N |} /\
  c_log (step "" "" (Consumer false)
      (run "" "" [] (init live_request [PClose] [CError])))
    = [ErrorResult None].
Proof.
  pose proof (Error_nonblocking_structured "" "" live_request
                [PClose] [CError] []) as (H1 & _ & H3 & H4).
  split; [exact (H1 eq_refl)|]. split.
  - exact (proj1 (H3 eq_refl)
             (Some (cmdkit_Error_val {| Message := "boom"; Code := 3%N |}))).
  - exact (proj2 (H4 [] false eq_refl eq_refl)).
Defined.

(** *** Cancellation *)

Lemma live_context st :
  has_ctx (req st) = true -> ctx_live (req st) = true ->
  Context (req st) = Some (mk_Context None).
Proof.
  unfold has_ctx, ctx_live, ctx_Done.
  destruct (Context (req st)) as [[[e|]]|]; simpl; intros; congruence.
Qed.

Lemma cancel_live c st :
  Context (req st) = Some (mk_Context None) ->
  cancel c st =
    {| req := mk_Request (Some (mk_Context (Some (context_err c))));
       ch := ch st; closed := closed st; closeCh := closeCh st;
       err := err st; waitLen := waitLen st; length := length st |}.
Proof. unfold cancel. intros ->. reflexivity. Qed.

Lemma extends_refl s : extends s s.
Proof. split; exists []; now rewrite app_nil_r. Qed.

Lemma extends_trans s0 s1 s2 : extends s0 s1 -> extends s1 s2 -> extends s0 s2.
Proof.
  intros [[pl1 P1] [cl1 C1]] [[pl2 P2] [cl2 C2]]. split.
  - exists (pl1 ++ pl2). now rewrite P2, P1, app_assoc.
  - exists (cl1 ++ cl2). now rewrite C2, C1, app_assoc.
Qed.

Lemma extends_emit_at_select v pick s : extends s (emit_at_select v pick s).
Proof.
  unfold emit_at_select.
  destruct (Emit_select (receiver_parked s) pick (stream s)); split; simpl;
    eauto; exists []; now rewrite app_nil_r.
Qed.

Lemma extends_producer_step pick s : extends s (producer_step pick s).
Proof.
  unfold producer_step. destruct (p_status s).
  - destruct (p_todo s) as [|c rest]; [apply extends_refl|].
    destruct c.
    + destruct (Emit_enter v (stream (p_pop s))).
      * split; simpl; eauto. exists []; now rewrite app_nil_r.
      * eapply extends_trans; [|apply extends_emit_at_select].
        split; exists []; simpl; now rewrite app_nil_r.
    + destruct (Close (stream (p_pop s))).
      split; simpl; eauto. exists []; now rewrite app_nil_r.
    + destruct (CloseWithError e (stream (p_pop s))).
      split; simpl; eauto. exists []; now rewrite app_nil_r.
    + split; simpl; eauto. exists []; now rewrite app_nil_r.
  - apply extends_emit_at_select.
  - destruct (Emit_sent v (stream s)).
    split; simpl; eauto. exists []; now rewrite app_nil_r.
  - apply extends_refl.
Qed.

Lemma extends_consumer_step m1 m2 pick s :
  extends s (consumer_step m1 m2 pick s).
Proof.
  destruct (producer_side_consumer_step m1 m2 pick s) as (E & _).
  split.
  - exists []. now rewrite E, app_nil_r.
  - destruct (c_log_consumer_step m1 m2 pick s) as [E' | (r & E' & _)];
      rewrite E'; eauto. exists []; now rewrite app_nil_r.
Qed.

Lemma extends_step m1 m2 t s : extends s (step m1 m2 t s).
Proof.
  destruct t; simpl;
    auto using extends_producer_step, extends_consumer_step.
  apply (wake_inv m1 m2 (extends s)).
  - intros pick s0 H. eapply extends_trans; [exact H|].
    apply extends_producer_step.
  - intros pick s0 H. eapply extends_trans; [exact H|].
    apply extends_consumer_step.
  - split; exists []; simpl; now rewrite app_nil_r.
Qed.

Lemma extends_run m1 m2 sched : forall s, extends s (run m1 m2 sched s).
Proof.
  induction sched as [|t sched IH]; intros s; simpl; [apply extends_refl|].
  eapply extends_trans; [apply extends_step | apply IH].
Qed.

Lemma wake_receiver m1 m2 s :
  (forall v, p_status s <> PSelect v) -> c_status s = CInNext ->
  wake m1 m2 s = next_at_select false s.
Proof.
  intros Hs Hcs. unfold wake.
  destruct (p_status s) eqn:Hps; try (destruct (Hs v eq_refl));
    rewrite Hcs; unfold consumer_step; rewrite Hcs; reflexivity.
Qed.

(** C8.  An [Emit] parked at its [select] when the context is canceled
    returns the context's error there and then: the value is not handed
    over (the consumer's log and status are untouched), the stream is
    the one the cancellation left, and whatever the two goroutines do
    afterwards, in whatever order, the call has returned that error.  A
    [Next] parked on an open [ch] likewise returns nil and the context's
    error, whatever comes after.  The cancellation itself changes no
    field of the stream proper. *)
Theorem cancel_unblocks_Emit_and_Next m1 m2 rq P C sched :
  let s := run m1 m2 sched (init rq P C) in
  ctx_live (req (stream s)) = true ->
  (forall v cause, p_status s = PSelect v ->
     step m1 m2 (Cancel cause) s =
       {| stream := cancel cause (stream s);
          p_todo := p_todo s; p_status := PIdle;
          p_log := p_log s ++ [(PEmit v, Return (Some (context_err cause)))];
          c_todo := c_todo s; c_status := c_status s; c_log := c_log s |} /\
     forall sched', exists pl cl,
       p_log (run m1 m2 sched' (step m1 m2 (Cancel cause) s)) =
         p_log s ++ (PEmit v, Return (Some (context_err cause))) :: pl /\
       c_log (run m1 m2 sched' (step m1 m2 (Cancel cause) s)) =
         c_log s ++ cl) /\
  (forall cause, c_status s = CInNext -> ch (stream s) = Open ->
     has_ctx (req (stream s)) = true ->
     step m1 m2 (Cancel cause) s =
       {| stream := cancel cause (stream s);
          p_todo := p_todo s; p_status := p_status s; p_log := p_log s;
          c_todo := c_todo s; c_status := CIdle;
          c_log := c_log s ++
                   [NextResult nil_value (Some (context_err cause))] |} /\
     forall sched', exists pl cl,
       p_log (run m1 m2 sched' (step m1 m2 (Cancel cause) s)) =
         p_log s ++ pl /\
       c_log (run m1 m2 sched' (step m1 m2 (Cancel cause) s)) =
         c_log s ++ NextResult nil_value (Some (context_err cause)) :: cl) /\
  (forall cause,
     ch (cancel cause (stream s)) = ch (stream s) /\
     closed (cancel cause (stream s)) = closed (stream s) /\
     closeCh (cancel cause (stream s)) = closeCh (stream s) /\
     err (cancel cause (stream s)) = err (stream s) /\
     waitLen (cancel cause (stream s)) = waitLen (stream s) /\
     length (cancel cause (stream s)) = length (stream s)).
Proof.
  intros s Hlive.
  pose proof (wf_reachable m1 m2 rq P C sched) as W. fold s in W.
  split; [|split].
  - intros v cause Hps.
    destruct (wf_emit _ W v (or_introl Hps)) as (Hcl & _ & _ & Hctx).
    assert (Hhc : has_ctx (req (stream s)) = true)
      by (unfold has_ctx; destruct (Context (req (stream s))); congruence).
    pose proof (live_context _ Hhc Hlive) as Hc.
    pose proof (cons_ch _ (wf_stream _ W)) as Hch. rewrite Hcl in Hch.
    pose proof (wf_parked _ W v Hps) as Hcs.
    assert (E : step m1 m2 (Cancel cause) s =
       {| stream := cancel cause (stream s);
          p_todo := p_todo s; p_status := PIdle;
          p_log := p_log s ++ [(PEmit v, Return (Some (context_err cause)))];
          c_todo := c_todo s; c_status := c_status s; c_log := c_log s |}).
    { simpl. unfold wake. simpl. rewrite Hps.
      unfold producer_step. simpl. rewrite Hps.
      unfold emit_at_select, Emit_select, receiver_parked. simpl.
      rewrite (cancel_live cause _ Hc). simpl. rewrite Hch. simpl.
      destruct (c_status s) eqn:Hc'; [| congruence |];
        unfold p_finish, with_stream; simpl; rewrite ?Hc'; reflexivity. }
    split; [exact E|]. intros sched'.
    destruct (extends_run m1 m2 sched' (step m1 m2 (Cancel cause) s))
      as [[pl Hpl] [cl Hcl']].
    exists pl, cl. rewrite Hpl, Hcl', E. simpl.
    rewrite <- app_assoc. auto.
  - intros cause Hcs Hch Hhc.
    pose proof (live_context _ Hhc Hlive) as Hc.
    assert (Hs : forall v, p_status s <> PSelect v).
    { intros v Hps. exact (wf_parked _ W v Hps Hcs). }
    assert (E : step m1 m2 (Cancel cause) s =
       {| stream := cancel cause (stream s);
          p_todo := p_todo s; p_status := p_status s; p_log := p_log s;
          c_todo := c_todo s; c_status := CIdle;
          c_log := c_log s ++
                   [NextResult nil_value (Some (context_err cause))] |}).
    { simpl. rewrite wake_receiver by (simpl; auto).
      assert (Hsp : sender_parked (with_stream (cancel cause (stream s)) s)
                    = None).
      { unfold sender_parked. simpl.
        destruct (p_status s) eqn:Hps; auto. destruct (Hs v eq_refl). }
      unfold next_at_select. rewrite Hsp. unfold Next. simpl.
      rewrite (cancel_live cause _ Hc). simpl. rewrite Hch. simpl.
      reflexivity. }
    split; [exact E|]. intros sched'.
    destruct (extends_run m1 m2 sched' (step m1 m2 (Cancel cause) s))
      as [[pl Hpl] [cl Hcl']].
    exists pl, cl. rewrite Hpl, Hcl', E. simpl.
    rewrite <- app_assoc. auto.
  - intros cause. apply cancel_fields.
Qed.

Lemma cancel_unblocks_Emit_and_Next_witness :
  p_log (step "" "" (Cancel Canceled)
     (run "" "" [Producer false]
        (init live_request [PEmit (Plain "a")] [CNext]))) =
    [(PEmit (Plain "a"), Return (Some (context_err Canceled)))] /\
  c_log (step "" "" (Cancel DeadlineExceeded)
     (run "" "" [Consumer false]
        (init live_request [PEmit (Plain "a")] [CNext]))) =
    [NextResult nil_value (Some (context_err DeadlineExceeded))] /\
  c_log (run "" "" [Producer false; Cancel Canceled; Consumer false;
                    Producer false]
           (init live_request [PEmit (Plain "a")] [CNext])) =
    [NextResult nil_value (Some (context_err Canceled))].
Proof.
  split; [|split].
  - rewrite (proj1 (proj1 (cancel_unblocks_Emit_and_Next "" "" live_request
               [PEmit (Plain "a")] [CNext] [Producer false] eq_refl)
               (Plain "a") Canceled eq_refl)).
    reflexivity.
  - rewrite (proj1 (proj1 (proj2 (cancel_unblocks_Emit_and_Next "" ""
               live_request [PEmit (Plain "a")] [CNext] [Consumer false]
               eq_refl))
               DeadlineExceeded eq_refl eq_refl eq_refl)).
    reflexivity.
  - reflexivity.
Defined.

(** *** Closing *)

Lemma flagged_reachable m1 m2 rq P C sched :
  flagged (run m1 m2 sched (init rq P C)).
Proof. apply flagged_run; [apply wf_init | reflexivity]. Qed.

(** C3 (as amended).  In every run the stream is closed exactly when the
    producer's log holds a [Close]/[CloseWithError] that returned nil or
    an [Emit] of a [Single] that returned nil.  On a stream not yet
    closed, [CloseWithError e] returns nil and closes [ch] (open until
    then) together with the flag, records the error and fires both
    signals; on a closed stream it returns [ErrClosingClosedEmitter] and
    leaves the stream, recorded error included, exactly as it was.
    [Close] is [CloseWithError nil].  No call ever panics on closing [ch]
    a second time. *)
Theorem Close_only_once m1 m2 rq P C sched :
  let s := run m1 m2 sched (init rq P C) in
  let st := stream s in
  closed st = closed_after false (p_log s) /\
  (closed st = false -> forall e,
     ch st = Open /\
     CloseWithError e st =
       (Return None,
        {| req := req st; ch := Closed; closed := true; closeCh := Closed;
           err := Some (recorded e); waitLen := Closed;
           length := length st |})) /\
  (closed st = true -> forall e,
     ch st = Closed /\
     CloseWithError e st = (Return (Some ErrClosingClosedEmitter), st)) /\
  Close st = CloseWithError None st /\
  (forall c p, In (c, Panics p) (p_log s) -> p <> close_of_closed_channel).
Proof.
  intros s st.
  pose proof (wf_reachable m1 m2 rq P C sched) as W. fold s in W.
  pose proof (wf_stream _ W) as Hst. fold st in Hst.
  split; [|split; [|split; [|split]]].
  - apply flagged_reachable.
  - intros Hcl e. split.
    + rewrite (cons_ch _ Hst), Hcl. reflexivity.
    + unfold CloseWithError. rewrite Hcl.
      rewrite (closeWithError_open e _ Hst Hcl). reflexivity.
  - intros Hcl e. split.
    + rewrite (cons_ch _ Hst), Hcl. reflexivity.
    + unfold CloseWithError. rewrite Hcl. reflexivity.
  - reflexivity.
  - intros c p Hin.
    destruct (wf_panics _ W c p Hin) as [(e & _ & ->) | (v & _ & -> & _)];
      discriminate.
Qed.

Lemma Close_only_once_witness :
  CloseWithError (Some (errors_New "boom"))
     (stream (run "" "" [] (init live_request [] []))) =
    (Return None,
     {| req := live_request; ch := Closed; closed := true; closeCh := Closed;
        err := Some (errors_New "boom"); waitLen := Closed;
        length := 0%N |}) /\
  CloseWithError (Some (errors_New "again"))
     (stream (run "" "" [Producer false] (init live_request [PClose] []))) =
    (Return (Some ErrClosingClosedEmitter),
     stream (run "" "" [Producer false] (init live_request [PClose] []))).
Proof.
  split.
  - exact (proj2 (proj1 (proj2 (Close_only_once "" "" live_request [] [] []))
             eq_refl (Some (errors_New "boom")))).
  - exact (proj2 (proj1 (proj2 (proj2 (Close_only_once "" "" live_request
             [PClose] [] [Producer false]))) eq_refl
             (Some (errors_New "again")))).
Defined.

(** The first [Close] call of a handler that emitted a [Single] fails:
    the stream was closed by the [Emit]. *)
Lemma first_Close_after_Single_fails :
  finished (run "" "" (round_robin 3)
     (init live_request [PEmit (Single (Plain "a")); PClose]
        [CNext; CNext])) = true /\
  p_log (run "" "" (round_robin 3)
     (init live_request [PEmit (Single (Plain "a")); PClose]
        [CNext; CNext])) =
    [(PEmit (Single (Plain "a")), Return None);
     (PClose, Return (Some ErrClosingClosedEmitter))] /\
  Return (Some ErrClosingClosedEmitter) <> Return None.
Proof. repeat split. discriminate. Qed.

(** *** Panics *)

Lemma req_closeWithError e st : req (snd (closeWithError e st)) = req st.
Proof. destruct st as [rq c cd cc er w l]. destruct c; reflexivity. Qed.

Lemma req_CloseWithError e st : req (snd (CloseWithError e st)) = req st.
Proof.
  unfold CloseWithError. destruct (closed st); [reflexivity|].
  pose proof (req_closeWithError e st) as F.
  destruct (closeWithError e st) as [[p|] st']; exact F.
Qed.

Lemma req_producer_step pick s :
  req (stream (producer_step pick s)) = req (stream s).
Proof.
  unfold producer_step.
  destruct (p_status s).
  - destruct (p_todo s) as [|c rest]; [reflexivity|].
    destruct c.
    + unfold Emit_enter. simpl stream.
      destruct (AssertNotError v); [reflexivity|].
      simpl closed. simpl req.
      destruct (closed (stream s)); [reflexivity|].
      destruct (Context (req (stream s))); [|reflexivity].
      rewrite stream_emit_at_select. reflexivity.
    + pose proof (req_CloseWithError None (stream s)) as F.
      unfold Close. simpl stream.
      destruct (CloseWithError None (stream s)); exact F.
    + pose proof (req_CloseWithError e (stream s)) as F.
      simpl stream. destruct (CloseWithError e (stream s)); exact F.
    + simpl. unfold SetLength. destruct (waitLen (stream s)); reflexivity.
  - rewrite stream_emit_at_select. reflexivity.
  - unfold Emit_sent. destruct (is_Single v); [|reflexivity].
    pose proof (req_closeWithError None (stream s)) as F.
    destruct (closeWithError None (stream s)) as [[p|] st']; exact F.
  - reflexivity.
Qed.

Lemma context_stays m1 m2 sched : forall s,
  Context (req (stream s)) <> None ->
  Context (req (stream (run m1 m2 sched s))) <> None.
Proof.
  induction sched as [|t sched IH]; simpl; auto.
  intros s Hs. apply IH. destruct t; simpl.
  - rewrite req_producer_step. exact Hs.
  - rewrite stream_consumer_step. exact Hs.
  - rewrite stream_wake. simpl. rewrite cancel_req_none. exact Hs.
Qed.

(** In every run, a call that panicked is an [Emit] of an error value
    stopped by [AssertNotError], or an [Emit] on a request without a
    context. *)
Lemma panics_only_in_Emit m1 m2 rq P C sched c p :
  In (c, Panics p) (p_log (run m1 m2 sched (init rq P C))) ->
  (exists e, c = PEmit (ErrorValue e) /\ p = value_is_an_error) \/
  (exists v, c = PEmit v /\ p = nil_pointer_dereference /\
             Context rq = None).
Proof.
  intros Hin.
  destruct (wf_panics _ (wf_reachable m1 m2 rq P C sched) c p Hin)
    as [H | (v & H1 & H2 & H3)]; [left; exact H | right].
  exists v. repeat split; auto.
  destruct (Context rq) as [ctx|] eqn:Hc; [|reflexivity].
  exfalso.
  apply (context_stays m1 m2 sched (init rq P C)); [simpl; congruence|].
  exact H3.
Qed.

(** C9, at the failing input: on a request whose [Context] is nil, an
    [Emit] of an ordinary value to an open stream panics when the
    [select] evaluates [ctx.Done()], although no error value was emitted;
    [Next] on the same stream takes [context.Background()] instead and
    simply waits. *)
Theorem Emit_without_context_panics :
  p_log (run "" "" [Producer false]
     (init (mk_Request None) [PEmit (Plain "x")] [CNext])) =
    [(PEmit (Plain "x"), Panics nil_pointer_dereference)] /\
  c_status (run "" "" [Consumer false]
     (init (mk_Request None) [PEmit (Plain "x")] [CNext])) = CInNext.
Proof. split; reflexivity. Qed.

(** *** What the consumer sees of a run without cancellation *)



Lemma all_next_filter clog n :
  map call_of clog = repeat CNext n ->
  filter is_next clog = clog /\ List.length clog = n.
Proof.
  revert n; induction clog as [|r clog IH]; intros [|n] Hm;
    try discriminate; auto.
  simpl in Hm. injection Hm as Hr Hm.
  destruct (IH n Hm) as [H1 H2].
  destruct r; try discriminate. simpl. rewrite H1, H2. auto.
Qed.


Lemma closed_after_first_close log : forall cl,
  closed_after cl log = false -> first_close log = None.
Proof.
  induction log as [|[c r] log IH]; simpl; intros cl H; auto.
  destruct (closes c r) eqn:Hc.
  - rewrite orb_true_r in H.
    assert (E : forall l, closed_after true l = true)
      by (induction l as [|[c' r'] l IHl]; simpl; auto).
    rewrite E in H. discriminate.
  - eapply IH; eauto.
Qed.

Lemma req_run_no_cancel m1 m2 sched : forall s,
  no_cancel sched = true -> req (stream (run m1 m2 sched s)) = req (stream s).
Proof.
  induction sched as [|t sched IH]; simpl; intros s Hn; auto.
  apply andb_prop in Hn. destruct Hn as [Ht Hn].
  rewrite IH by auto. destruct t; simpl.
  - apply req_producer_step.
  - rewrite stream_consumer_step. reflexivity.
  - discriminate.
Qed.

(** The three invariants, at the end of a run without cancellation. *)
Lemma quiet_reachable m1 m2 rq P C sched :
  ctx_live rq = true -> no_cancel sched = true ->
  let s := run m1 m2 sched (init rq P C) in
  wf s /\ quiet s /\ follows P C s.
Proof.
  intros Hl Hn s. split; [|split].
  - apply wf_reachable.
  - apply quiet_run; auto using wf_init, quiet_init.
  - apply follows_run, follows_init.
Qed.

(** In such a run that came to its end, the consumer's [Next] results
    are the values sent, in order, and then the recorded error. *)
Lemma nexts_of_finished_run m1 m2 rq P n sched :
  ctx_live rq = true -> no_cancel sched = true ->
  let s := run m1 m2 sched (init rq P (repeat CNext n)) in
  finished s = true ->
  exists k,
    c_log s = map Next_received (sent_values (p_log s)) ++
              repeat (NextResult nil_value (first_close (p_log s))) k /\
    List.length (sent_values (p_log s)) + k = n /\
    (k <> 0 -> first_close (p_log s) <> None) /\
    map fst (p_log s) = P /\ no_panic (p_log s) /\
    sound (has_ctx rq) false (p_log s).
Proof.
  intros Hl Hn s Hf.
  destruct (quiet_reachable m1 m2 rq P (repeat CNext n) sched Hl Hn)
    as (W & Q & F). fold s in W, Q, F.
  destruct (finished_logs _ _ _ F Hf) as (HP & HC & Hnp).
  destruct (all_next_filter _ _ HC) as [Hfil Hlen].
  destruct Q as [_ Hcl Hsound Herr [k [Hk1 Hk2]]].
  assert (Hps : p_status s = PIdle).
  { unfold finished in Hf. destruct (p_todo s); try discriminate.
    destruct (p_status s); try discriminate. reflexivity. }
  unfold delivered in Hk1. rewrite Hps in Hk1. simpl in Hk1.
  rewrite app_nil_r, Hfil, Herr in Hk1.
  exists k. repeat split; auto.
  - rewrite <- Hlen, Hk1, length_app, length_map, repeat_length.
    reflexivity.
  - intros Hk. rewrite <- Herr. specialize (Hk2 Hk).
    intros He. apply (cons_err _ (wf_stream _ W)) in He. congruence.
  - pose proof (req_run_no_cancel m1 m2 sched
                  (init rq P (repeat CNext n)) Hn) as Hreq.
    fold s in Hreq. simpl in Hreq. rewrite <- Hreq. exact Hsound.
Qed.

(** *** A schedule that brings a handler's run to its end *)

Lemma run_app m1 m2 a b s :
  run m1 m2 (a ++ b) s = run m1 m2 b (run m1 m2 a s).
Proof. revert s; induction a as [|t a IH]; simpl; auto. Qed.

Lemma no_cancel_app a b :
  no_cancel (a ++ b) = no_cancel a && no_cancel b.
Proof. apply forallb_app. Qed.






(** *** The three end-to-end properties *)









(** C5.  A handler emits [Single x], then tries another [Emit] and a
    [Close]; the consumer calls [Next] twice; nothing is canceled.
    However the goroutines are interleaved, if the run comes to its end
    then the first [Emit] returned nil, the second [ErrClosedEmitter],
    the [Close] [ErrClosingClosedEmitter], and the consumer got exactly
    one value, [x] itself, and then nil with [io.EOF].  Such a run
    exists when [v] is not an error value. *)
Theorem Single_delivers_one_value_and_closes m1 m2 rq x v :
  ctx_live rq = true ->
  (forall sched, no_cancel sched = true ->
     let s := run m1 m2 sched
                (init rq [PEmit (Single x); PEmit v; PClose]
                   [CNext; CNext]) in
     finished s = true ->
     p_log s = [(PEmit (Single x), Return None);
                (PEmit v, Return (Some ErrClosedEmitter));
                (PClose, Return (Some ErrClosingClosedEmitter))] /\
     c_log s = [NextResult x None; NextResult nil_value (Some io_EOF)])
  /\
  (has_ctx rq = true -> is_error v = false ->
   exists sched, no_cancel sched = true /\
     finished (run m1 m2 sched
        (init rq [PEmit (Single x); PEmit v; PClose] [CNext; CNext]))
     = true).
Proof.
  intros Hl. split.
  - intros sched Hn s Hf.
    pose proof (nexts_of_finished_run m1 m2 rq
                  [PEmit (Single x); PEmit v; PClose] 2 sched Hl Hn) as H.
    cbn [repeat] in H. specialize (H Hf). fold s in H.
    destruct H as (k & Hlog & Hlen & Hk & HP & Hnp & Hsound).
    destruct (p_log s) as [|[c1 r1] [|[c2 r2] [|[c3 r3] [|? ?]]]];
      try discriminate.
    simpl in HP. inversion HP. subst c1 c2 c3. clear HP.
    simpl in Hsound. destruct Hsound as (E1 & E2 & E3 & _).
    destruct (has_ctx rq);
      [|exfalso; apply (Hnp (PEmit (Single x)) nil_pointer_dereference);
        left; congruence].
    subst r1. simpl in E2, E3.
    destruct (is_error v);
      [exfalso; apply (Hnp (PEmit v) value_is_an_error);
       right; left; congruence|].
    subst r2. simpl in E3. subst r3.
    split; [reflexivity|].
    simpl in Hlog, Hlen. assert (k = 1) by lia. subst k. exact Hlog.
  - intros Hh Hv.
    exists [Consumer false; Producer false; Producer false; Producer false;
            Producer false; Consumer false].
    split; [reflexivity|].
    assert (Hc : Context rq = Some (mk_Context None)).
    { change rq with (req (NewChanResponsePair rq)).
      apply live_context; auto. }
    destruct rq as [octx]. simpl in Hc. subst octx.
    unfold run, step, consumer_step, producer_step; simpl.
    unfold next_at_select, Next; simpl.
    unfold Emit_enter, AssertNotError; simpl. rewrite Hv. reflexivity.
Qed.

Lemma Single_delivers_one_value_and_closes_witness :
  p_log (run "" "" (round_robin 4)
     (init live_request
        [PEmit (Single (Plain "only")); PEmit (Plain "more"); PClose]
        [CNext; CNext])) =
    [(PEmit (Single (Plain "only")), Return None);
     (PEmit (Plain "more"), Return (Some ErrClosedEmitter));
     (PClose, Return (Some ErrClosingClosedEmitter))] /\
  c_log (run "" "" (round_robin 4)
     (init live_request
        [PEmit (Single (Plain "only")); PEmit (Plain "more"); PClose]
        [CNext; CNext])) =
    [NextResult (Plain "only") None; NextResult nil_value (Some io_EOF)].
Proof.
  exact (proj1 (Single_delivers_one_value_and_closes "" "" live_request
           (Plain "only") (Plain "more") eq_refl)
           (round_robin 4) eq_refl eq_refl).
Defined.

(* ------------------------------------------------------------------ *)
(** ** Further properties of the stream                                 *)
(* ------------------------------------------------------------------ *)

(** *** The stream's fields in every run *)


(** *** The terminal error is written once *)

Lemma sealed_producer_step pick s :
  wf s -> closed (stream s) = true ->
  closed (stream (producer_step pick s)) = true /\
  err (stream (producer_step pick s)) = err (stream s).
Proof.
  intros W Hcl. unfold producer_step.
  destruct (p_status s) eqn:Hps.
  - destruct (p_todo s) as [|c rest]; [auto|].
    destruct c.
    + unfold Emit_enter. simpl stream.
      destruct (AssertNotError v); [auto|].
      simpl closed. rewrite Hcl. auto.
    + unfold Close, CloseWithError. simpl stream. rewrite Hcl. auto.
    + unfold CloseWithError. simpl stream. rewrite Hcl. auto.
    + simpl. unfold SetLength. destruct (waitLen (stream s)); auto.
  - destruct (wf_emit _ W v (or_introl Hps)) as (H & _). congruence.
  - destruct (wf_emit _ W v (or_intror Hps)) as (H & _). congruence.
  - auto.
Qed.

Lemma sealed_step m1 m2 t s :
  wf s -> closed (stream s) = true ->
  closed (stream (step m1 m2 t s)) = true /\
  err (stream (step m1 m2 t s)) = err (stream s).
Proof.
  intros W Hcl. destruct t; simpl.
  - apply sealed_producer_step; auto.
  - rewrite stream_consumer_step. auto.
  - rewrite stream_wake. simpl.
    destruct (cancel_fields c (stream s)) as (_ & F2 & _ & F4 & _).
    split; congruence.
Qed.

(** Once the stream is closed, nothing that anyone does afterwards (a
    second [CloseWithError] with another error, an [Emit], a
    cancellation) reopens it or changes the recorded error. *)
Theorem terminal_error_written_once m1 m2 rq P C sched sched' :
  let s := run m1 m2 sched (init rq P C) in
  closed (stream s) = true ->
  closed (stream (run m1 m2 sched' s)) = true /\
  err (stream (run m1 m2 sched' s)) = err (stream s).
Proof.
  intros s Hcl.
  pose proof (wf_reachable m1 m2 rq P C sched) as W. fold s in W.
  clearbody s. revert s W Hcl.
  induction sched' as [|t sched' IH]; simpl; intros s W Hcl; auto.
  destruct (sealed_step m1 m2 t s W Hcl) as [H1 H2].
  destruct (IH (step m1 m2 t s) (wf_step m1 m2 t s W) H1) as [H3 H4].
  split; congruence.
Qed.

Lemma terminal_error_written_once_witness :
  err (stream (run "" "" [Producer false; Cancel Canceled; Producer true]
     (run "" "" [Producer false]
        (init live_request
           [PCloseWithError (Some (errors_New "first"));
            PCloseWithError (Some (errors_New "second"));
            PEmit (Plain "late")] [])))) =
    Some (errors_New "first").
Proof.
  exact (proj2 (terminal_error_written_once "" "" live_request
           [PCloseWithError (Some (errors_New "first"));
            PCloseWithError (Some (errors_New "second"));
            PEmit (Plain "late")] [] [Producer false]
           [Producer false; Cancel Canceled; Producer true] eq_refl)).
Defined.

(** *** Every value is delivered once, in order *)


Lemma received_app l1 l2 : received (l1 ++ l2) = received l1 ++ received l2.
Proof.
  induction l1 as [|r l1 IH]; simpl; auto.
  destruct r as [v [e|]| |]; simpl; rewrite ?IH; reflexivity.
Qed.

Lemma delivery_p_finish c r st s :
  delivery s -> sent_values [(c, r)] = pending (p_status s) ->
  delivery (p_finish c r st s).
Proof.
  unfold delivery, delivered. intros H E. simpl.
  rewrite sent_values_app, E, H.
  destruct r; simpl; rewrite app_nil_r; reflexivity.
Qed.

Lemma delivery_handoff v s s' :
  delivery s -> pending (p_status s) = [] ->
  p_log s' = p_log s -> p_status s' = PSent v ->
  c_log s' = c_log s ++ [Next_received v] ->
  delivery s'.
Proof.
  unfold delivery, delivered. intros H Hp E1 E2 E3.
  rewrite E1, E2, E3, received_app, H, Hp, app_nil_r, map_app.
  reflexivity.
Qed.

Lemma delivery_ext s s' :
  p_log s' = p_log s -> pending (p_status s') = pending (p_status s) ->
  received (c_log s') = received (c_log s) ->
  delivery s -> delivery s'.
Proof.
  unfold delivery, delivered. intros E1 E2 E3 H. rewrite E1, E2, E3. exact H.
Qed.

Lemma Emit_select_canceled r pick st e :
  Emit_select r pick st = EmitCanceled e -> e <> None.
Proof.
  unfold Emit_select.
  destruct (Context (req st)) as [[[e'|]]|]; try discriminate;
    destruct (ch st); simpl;
    repeat match goal with
           | |- context [if ?b then _ else _] => destruct b
           end; intros H; inversion H; discriminate.
Qed.

Lemma delivery_emit_at_select v pick s :
  delivery s -> pending (p_status s) = [] ->
  delivery (emit_at_select v pick s).
Proof.
  intros H Hp. unfold emit_at_select.
  destruct (Emit_select (receiver_parked s) pick (stream s)) eqn:He.
  - apply (delivery_handoff v s); auto.
  - apply delivery_p_finish; auto. rewrite Hp.
    apply Emit_select_canceled in He. destruct e; [reflexivity | congruence].
  - apply delivery_p_finish; auto.
  - eapply delivery_ext; try exact H; auto.
Qed.

Lemma delivery_producer_step pick s :
  wf s -> delivery s -> delivery (producer_step pick s).
Proof.
  intros W H. unfold producer_step.
  destruct (p_status s) eqn:Hps.
  - destruct (p_todo s) as [|c rest]; [exact H|].
    assert (Hpop : delivery (p_pop s))
      by (eapply delivery_ext; try exact H; auto).
    assert (Hpend : pending (p_status (p_pop s)) = [])
      by (simpl; rewrite Hps; reflexivity).
    destruct c.
    + destruct (Emit_enter v (stream (p_pop s))) as [r st|ctx st] eqn:He.
      * apply delivery_p_finish; auto. rewrite Hpend.
        unfold Emit_enter in He.
        destruct (AssertNotError v); [inversion He; reflexivity|].
        destruct (closed _); [inversion He; reflexivity|].
        destruct (Context _); inversion He; reflexivity.
      * apply delivery_emit_at_select; auto.
    + destruct (Close (stream (p_pop s))) as [r st].
      apply delivery_p_finish; auto.
    + destruct (CloseWithError e (stream (p_pop s))) as [r st].
      apply delivery_p_finish; auto.
    + apply delivery_p_finish; auto.
  - apply delivery_emit_at_select; auto. rewrite Hps; reflexivity.
  - destruct (wf_emit _ W v (or_intror Hps)) as (H1 & _).
    unfold Emit_sent. destruct (is_Single v).
    + rewrite (closeWithError_open None _ (wf_stream _ W) H1).
      apply delivery_p_finish; auto. rewrite Hps. reflexivity.
    + apply delivery_p_finish; auto. rewrite Hps. reflexivity.
  - exact H.
Qed.

Lemma Next_return_error st sender pick v e :
  consistent st ->
  Next (Some st) sender pick = NextReturn v e -> e <> None.
Proof.
  intros Hst. unfold Next.
  destruct (Context (req st)) as [[[e'|]]|]; simpl;
    destruct (ch st) eqn:Hch; simpl; destruct sender; simpl;
    repeat match goal with
           | |- context [if ?b then _ else _] => destruct b
           end; intros H; inversion H; subst; try discriminate.
  all: pose proof (cons_ch _ Hst) as Hc; rewrite Hch in Hc;
    destruct (closed st) eqn:Hcl; try discriminate;
    intros He; apply (cons_err _ Hst) in He; congruence.
Qed.

Lemma delivery_c_finish_other r s :
  received [r] = [] -> delivery s -> delivery (c_finish r s).
Proof.
  intros Hr H. eapply delivery_ext; try exact H; auto.
  simpl. rewrite received_app, Hr, app_nil_r. reflexivity.
Qed.

Lemma delivery_next_at_select pick s :
  wf s -> delivery s -> delivery (next_at_select pick s).
Proof.
  intros W H. unfold next_at_select.
  destruct (Next (Some (stream s)) (sender_parked s) pick) eqn:Hn.
  - apply delivery_c_finish_other; auto.
    apply (Next_return_error _ _ _ _ _ (wf_stream _ W)) in Hn.
    destruct e; [reflexivity | congruence].
  - assert (Hs : sender_parked s = Some v).
    { unfold Next in Hn.
      destruct (sender_parked s) as [v'|];
        repeat match type of Hn with
               | context [if ?b then _ else _] => destruct b
               | context [match ch ?st with _ => _ end] => destruct (ch st)
               end; inversion Hn; reflexivity. }
    unfold sender_parked in Hs.
    destruct (p_status s) as [|v'| |] eqn:Hps; try discriminate.
    apply (delivery_handoff v s); auto. rewrite Hps. reflexivity.
  - eapply delivery_ext; try exact H; auto.
Qed.

Lemma delivery_length_at_wait s : delivery s -> delivery (length_at_wait s).
Proof.
  intros H. unfold length_at_wait. destruct (Length (stream s)).
  - apply delivery_c_finish_other; auto.
  - eapply delivery_ext; try exact H; auto.
Qed.

Lemma delivery_consumer_step m1 m2 pick s :
  wf s -> delivery s -> delivery (consumer_step m1 m2 pick s).
Proof.
  intros W H. unfold consumer_step. destruct (c_status s).
  - destruct (c_todo s) as [|c rest]; [exact H|].
    assert (Hpop : delivery (c_pop s))
      by (eapply delivery_ext; try exact H; auto).
    destruct c; auto using delivery_next_at_select, delivery_length_at_wait,
      delivery_c_finish_other, wf_c_pop.
  - auto using delivery_next_at_select.
  - auto using delivery_length_at_wait.
Qed.

Lemma delivery_step m1 m2 t s : wf s -> delivery s -> delivery (step m1 m2 t s).
Proof.
  intros W H. destruct t; simpl.
  - apply delivery_producer_step; auto.
  - apply delivery_consumer_step; auto.
  - apply (wake_inv m1 m2 (fun s => wf s /\ delivery s)).
    + intros pick s0 [W0 H0].
      auto using wf_producer_step, delivery_producer_step.
    + intros pick s0 [W0 H0].
      auto using wf_consumer_step, delivery_consumer_step.
    + split; [apply wf_cancel; exact W|].
      eapply delivery_ext; try exact H; auto.
Qed.

(** In every run, canceled or not, and at every moment of it: the values
    that [Next] has returned are, in order and once each, the values of
    the [Emit] calls that returned nil, plus the value of an [Emit] that
    has handed its value over and is about to return ([Single] values
    unwrapped).  So no value is lost, repeated or invented, the value of
    an [Emit] that failed is never seen, and the consumer is never more
    than one value ahead of the producer's returns. *)
Theorem every_value_delivered_once m1 m2 rq P C sched :
  let s := run m1 m2 sched (init rq P C) in
  received (c_log s) =
    map unwrap (sent_values (p_log s) ++ pending (p_status s)) /\
  (List.length (sent_values (p_log s)) <=
     List.length (received (c_log s)))%nat /\
  (List.length (received (c_log s)) <=
     S (List.length (sent_values (p_log s))))%nat.
Proof.
  intros s.
  assert (H : delivery s).
  { subst s. generalize (wf_init rq P C).
    assert (H0 : delivery (init rq P C)) by reflexivity.
    revert H0. generalize (init rq P C).
    induction sched as [|t sched IH]; simpl; intros s0 H0 W0; auto.
    apply IH; auto using delivery_step, wf_step. }
  split; [exact H|].
  rewrite H. unfold delivered. rewrite length_map, length_app.
  destruct (p_status s); simpl; lia.
Qed.

(** *** The end of the stream is final *)

Lemma suffix_after_prefix {A} (Q : A -> Prop) (l1 : list A) :
  forall l2 pre a post,
  Forall Q l1 -> ~ Q a -> l1 ++ l2 = pre ++ a :: post ->
  exists l2', l2 = l2' ++ a :: post.
Proof.
  induction l1 as [|x l1 IH]; simpl; intros l2 pre a post HQ Ha E.
  - exists pre. exact E.
  - inversion HQ as [|? ? Hx Hl1]; subst.
    destruct pre as [|y pre]; simpl in E; inversion E; subst.
    + contradiction.
    + eapply IH; eauto.
Qed.

Lemma repeat_suffix {A} (x : A) k : forall l a post,
  repeat x k = l ++ a :: post -> a = x /\ forall r, In r post -> r = x.
Proof.
  intros l a post E.
  assert (H : forall r, In r (l ++ a :: post) -> r = x).
  { rewrite <- E. intros r Hr. eapply repeat_spec; eauto. }
  split.
  - apply H. apply in_or_app. right. left. reflexivity.
  - intros r Hr. apply H. apply in_or_app. right. right. exact Hr.
Qed.

(** In a run without cancellation, whatever the two programs are: once
    a [Next] call has returned an error, that error is the recorded
    terminal error, it came with a nil value, and every later [Next]
    call returns the same, never a value again. *)
Theorem end_of_stream_is_final m1 m2 rq P C sched pre v e post :
  ctx_live rq = true -> no_cancel sched = true ->
  let s := run m1 m2 sched (init rq P C) in
  filter is_next (c_log s) = pre ++ NextResult v (Some e) :: post ->
  v = nil_value /\ err (stream s) = Some e /\
  forall r, In r post -> r = NextResult nil_value (Some e).
Proof.
  intros Hl Hn s E.
  destruct (quiet_reachable m1 m2 rq P C sched Hl Hn) as (_ & Q & _).
  fold s in Q. destruct Q as [_ _ _ _ [k [Hk _]]].
  rewrite Hk in E.
  apply (suffix_after_prefix
           (fun r => exists w, r = NextResult w None)) in E.
  - destruct E as [l2' E]. apply repeat_suffix in E.
    destruct E as [E1 E2]. inversion E1; subst.
    repeat split; auto. intros r Hr. rewrite (E2 r Hr). congruence.
  - apply Forall_forall. intros r Hr. apply in_map_iff in Hr.
    destruct Hr as (w & <- & _). eexists. reflexivity.
  - intros [w Hw]. discriminate.
Qed.

Lemma end_of_stream_is_final_witness :
  err (stream (run "" "" (round_robin 4)
     (init live_request
        [PEmit (Plain "a"); PCloseWithError (Some (errors_New "boom"))]
        [CNext; CError; CNext; CNext]))) = Some (errors_New "boom").
Proof.
  exact (proj1 (proj2 (end_of_stream_is_final "" "" live_request
           [PEmit (Plain "a"); PCloseWithError (Some (errors_New "boom"))]
           [CNext; CError; CNext; CNext] (round_robin 4)
           [NextResult (Plain "a") None] nil_value (errors_New "boom")
           [NextResult nil_value (Some (errors_New "boom"))]
           eq_refl eq_refl eq_refl))).
Defined.

(** *** The results do not depend on the schedule *)

Lemma sound_unique hc : forall l1 l2 cl,
  sound hc cl l1 -> sound hc cl l2 -> map fst l1 = map fst l2 -> l1 = l2.
Proof.
  induction l1 as [|[c1 r1] l1 IH]; intros [|[c2 r2] l2] cl H1 H2 E;
    try discriminate; auto.
  simpl in *. injection E as Ec E. subst c2.
  destruct H1 as [-> H1]. destruct H2 as [-> H2].
  f_equal. eapply IH; eauto.
Qed.

Lemma count_next clog :
  List.length (filter is_next clog) =
  List.length (filter is_CNext (map call_of clog)).
Proof.
  induction clog as [|r clog IH]; simpl; auto.
  destruct r; simpl; rewrite IH; reflexivity.
Qed.

(** What a finished run without cancellation leaves, in terms of the
    two programs only. *)
Lemma finished_run_summary m1 m2 rq P C sched :
  ctx_live rq = true -> no_cancel sched = true ->
  let s := run m1 m2 sched (init rq P C) in
  finished s = true ->
  map fst (p_log s) = P /\ sound (has_ctx rq) false (p_log s) /\
  err (stream s) = first_close (p_log s) /\
  closed (stream s) = closed_after false (p_log s) /\
  exists k,
    filter is_next (c_log s) =
      map Next_received (sent_values (p_log s)) ++
      repeat (NextResult nil_value (first_close (p_log s))) k /\
    List.length (sent_values (p_log s)) + k =
      List.length (filter is_CNext C).
Proof.
  intros Hl Hn s Hf.
  destruct (quiet_reachable m1 m2 rq P C sched Hl Hn) as (W & Q & F).
  fold s in W, Q, F.
  destruct (finished_logs _ _ _ F Hf) as (HP & HC & _).
  destruct Q as [_ Hcl Hsound Herr [k [Hk1 _]]].
  assert (Hps : p_status s = PIdle).
  { unfold finished in Hf. destruct (p_todo s); try discriminate.
    destruct (p_status s); try discriminate. reflexivity. }
  unfold delivered in Hk1. rewrite Hps in Hk1. simpl in Hk1.
  rewrite app_nil_r, Herr in Hk1.
  pose proof (req_run_no_cancel m1 m2 sched (init rq P C) Hn) as Hreq.
  fold s in Hreq. simpl in Hreq. rewrite Hreq in Hsound.
  repeat split; auto.
  exists k. split; [exact Hk1|].
  rewrite <- HC, <- count_next, Hk1, length_app, length_map, repeat_length.
  reflexivity.
Qed.

(** Two runs of the same programs on the same request, without
    cancellation, that both come to their end: whatever the two
    schedules, the producer got the same result from every call, the
    consumer got the same from every [Next], and the stream ended closed
    or open alike, with the same terminal error. *)
Theorem results_do_not_depend_on_schedule m1 m2 rq P C sched1 sched2 :
  ctx_live rq = true ->
  no_cancel sched1 = true -> no_cancel sched2 = true ->
  let s1 := run m1 m2 sched1 (init rq P C) in
  let s2 := run m1 m2 sched2 (init rq P C) in
  finished s1 = true -> finished s2 = true ->
  p_log s1 = p_log s2 /\
  filter is_next (c_log s1) = filter is_next (c_log s2) /\
  closed (stream s1) = closed (stream s2) /\
  err (stream s1) = err (stream s2).
Proof.
  intros Hl Hn1 Hn2 s1 s2 Hf1 Hf2.
  destruct (finished_run_summary m1 m2 rq P C sched1 Hl Hn1 Hf1)
    as (HP1 & Hs1 & He1 & Hc1 & k1 & Hk1 & Hlen1).
  destruct (finished_run_summary m1 m2 rq P C sched2 Hl Hn2 Hf2)
    as (HP2 & Hs2 & He2 & Hc2 & k2 & Hk2 & Hlen2).
  fold s1 in HP1, Hs1, He1, Hc1, Hk1, Hlen1.
  fold s2 in HP2, Hs2, He2, Hc2, Hk2, Hlen2.
  assert (E : p_log s1 = p_log s2).
  { apply (sound_unique (has_ctx rq) _ _ false); auto. congruence. }
  rewrite E in *.
  assert (k1 = k2) by lia. subst k2.
  repeat split; congruence.
Qed.

Lemma results_do_not_depend_on_schedule_witness :
  p_log (run "" "" (round_robin 4)
     (init live_request [PEmit (Plain "a"); PClose; PEmit (Plain "b")]
        [CNext; CNext])) =
  p_log (run "" "" (relay 1 ++ [Producer true; Producer true; Consumer true])
     (init live_request [PEmit (Plain "a"); PClose; PEmit (Plain "b")]
        [CNext; CNext])).
Proof.
  exact (proj1 (results_do_not_depend_on_schedule "" "" live_request
           [PEmit (Plain "a"); PClose; PEmit (Plain "b")] [CNext; CNext]
           (round_robin 4)
           (relay 1 ++ [Producer true; Producer true; Consumer true])
           eq_refl eq_refl eq_refl eq_refl eq_refl)).
Defined.

(** *** [Length] returns what was declared before the first activity *)

Lemma declared_snoc_set calls : forall l0 l,
  forallb is_SetLength calls = true ->
  declared l0 (calls ++ [PSetLength l]) = l.
Proof.
  induction calls as [|c calls IH]; simpl; intros l0 l H; auto.
  destruct c; try discriminate. apply IH. exact H.
Qed.

Lemma declared_app_other calls : forall l0 rest,
  forallb is_SetLength calls = false ->
  declared l0 (calls ++ rest) = declared l0 calls.
Proof.
  induction calls as [|c calls IH]; simpl; intros l0 rest H;
    [discriminate|].
  destruct c; auto.
Qed.

Lemma declared_app_cons calls : forall l0 c rest,
  is_SetLength c = false ->
  declared l0 (calls ++ c :: rest) = declared l0 calls.
Proof.
  induction calls as [|c0 calls IH]; simpl; intros l0 c rest H.
  - destruct c; auto; discriminate.
  - destruct c0; auto.
Qed.

Lemma length_declared_p_finish c r st s :
  length (stream s) = declared 0%N (map fst (p_log s)) ->
  is_SetLength c = false ->
  length st = length (stream s) -> waitLen st = Closed ->
  length_declared (p_finish c r st s).
Proof.
  intros H1 Hc El Ew. constructor; simpl.
  - rewrite map_app. simpl. rewrite declared_app_cons by auto. congruence.
  - intros _. rewrite Ew, map_app, forallb_app. simpl. rewrite Hc.
    rewrite andb_false_r. split; discriminate.
Qed.

Lemma length_declared_emit_at_select v pick s :
  length (stream s) = declared 0%N (map fst (p_log s)) ->
  waitLen (stream s) = Closed ->
  length_declared (emit_at_select v pick s).
Proof.
  intros H Hw. unfold emit_at_select.
  destruct (Emit_select (receiver_parked s) pick (stream s)).
  - constructor; simpl; auto. discriminate.
  - apply length_declared_p_finish; auto.
  - apply length_declared_p_finish; auto.
  - constructor; simpl; auto. discriminate.
Qed.

Lemma length_declared_close e c s :
  wf s -> length_declared s -> is_SetLength c = false ->
  length_declared (let (r, st) := CloseWithError e (stream (p_pop s)) in
                   p_finish c r st (p_pop s)).
Proof.
  intros W [H1 _] Hc.
  pose proof (wf_stream _ W) as Hst.
  unfold CloseWithError. simpl stream.
  destruct (closed (stream s)) eqn:Hcl.
  - apply length_declared_p_finish; auto.
    apply (cons_waitLen _ Hst Hcl).
  - rewrite (closeWithError_open e _ Hst Hcl).
    apply length_declared_p_finish; auto.
Qed.

Lemma length_declared_producer_step pick s :
  wf s -> length_declared s -> length_declared (producer_step pick s).
Proof.
  intros W H. pose proof (wf_stream _ W) as Hst.
  pose proof (ld_length _ H) as H1.
  unfold producer_step.
  destruct (p_status s) eqn:Hps.
  - destruct (p_todo s) as [|c rest]; [exact H|].
    destruct c.
    + unfold Emit_enter. simpl stream.
      destruct (AssertNotError v).
      * constructor; simpl.
        -- rewrite map_app. simpl.
           rewrite declared_app_cons by auto. exact H1.
        -- discriminate.
      * rewrite close_unless_closed_Closed. simpl closed. simpl req.
        destruct (closed (stream s)).
        -- apply length_declared_p_finish; auto.
        -- destruct (Context (req (stream s))).
           ++ apply length_declared_emit_at_select; auto.
           ++ constructor; simpl.
              ** rewrite map_app. simpl.
                 rewrite declared_app_cons by auto. exact H1.
              ** discriminate.
    + apply (length_declared_close None); auto.
    + apply length_declared_close; auto.
    + pose proof (ld_open _ H Hps) as H2.
      constructor; simpl.
      * rewrite map_app. simpl. unfold SetLength.
        destruct (waitLen (stream s)) eqn:Hw.
        -- simpl. symmetry. apply declared_snoc_set. apply H2. reflexivity.
        -- rewrite declared_app_other; auto.
           destruct (forallb is_SetLength (map fst (p_log s))); auto.
           destruct H2 as [_ H2]. discriminate H2. reflexivity.
      * intros _. rewrite map_app, forallb_app. simpl.
        rewrite andb_true_r. unfold SetLength.
        destruct (waitLen (stream s)) eqn:Hw; simpl; rewrite ?Hw; exact H2.
  - destruct (wf_emit _ W v (or_introl Hps)) as (_ & _ & Hw & _).
    apply length_declared_emit_at_select; auto.
  - destruct (wf_emit _ W v (or_intror Hps)) as (Hcl & _ & Hw & _).
    unfold Emit_sent. destruct (is_Single v).
    + rewrite (closeWithError_open None _ Hst Hcl).
      apply length_declared_p_finish; auto.
    + apply length_declared_p_finish; auto.
  - exact H.
Qed.

Lemma length_declared_consumer_step m1 m2 pick s :
  length_declared s -> length_declared (consumer_step m1 m2 pick s).
Proof.
  intros [H1 H2].
  destruct (producer_side_consumer_step m1 m2 pick s) as (E1 & _ & E3).
  constructor; rewrite stream_consumer_step, E1; auto.
Qed.

Lemma length_declared_step m1 m2 t s :
  wf s -> length_declared s -> length_declared (step m1 m2 t s).
Proof.
  intros W H. destruct t; simpl.
  - apply length_declared_producer_step; auto.
  - apply length_declared_consumer_step; auto.
  - apply (wake_inv m1 m2 (fun s => wf s /\ length_declared s)).
    + intros pick s0 [W0 H0].
      auto using wf_producer_step, length_declared_producer_step.
    + intros pick s0 [W0 H0].
      auto using wf_consumer_step, length_declared_consumer_step.
    + split; [apply wf_cancel; exact W|].
      destruct H as [H1 H2].
      destruct (cancel_fields c (stream s)) as (_ & _ & _ & _ & F5 & F6).
      constructor; simpl; rewrite ?F5, ?F6; auto.
Qed.

Lemma length_declared_run m1 m2 sched : forall s,
  wf s -> length_declared s -> length_declared (run m1 m2 sched s).
Proof.
  induction sched as [|t sched IH]; simpl;
    auto using length_declared_step, wf_step.
Qed.

Lemma length_declared_init rq P C : length_declared (init rq P C).
Proof. constructor; simpl; auto. intros _. split; reflexivity. Qed.

(** In every run, canceled or not: whenever [Length] has returned, it
    returned the argument of the last [SetLength] call that the handler
    made before its first [Emit] or [Close] (0 if it made none), however
    many [SetLength] calls it made later. *)
Theorem Length_returns_declared_length m1 m2 rq P C sched l :
  let s := run m1 m2 sched (init rq P C) in
  In (LengthResult l) (c_log s) -> l = declared 0%N P.
Proof.
  intros s Hin.
  pose proof (wf_reachable m1 m2 rq P C sched) as W. fold s in W.
  pose proof (length_declared_run m1 m2 sched _ (wf_init rq P C)
                (length_declared_init rq P C)) as [H1 H2]. fold s in H1, H2.
  pose proof (follows_run m1 m2 P C sched _ (follows_init rq P C))
    as [HP _ _]. fold s in HP.
  assert (HL : length_logged s).
  { apply length_logged_run. intros l' []. }
  destruct (HL l Hin) as [Hw <-].
  rewrite H1, <- HP.
  destruct (forallb is_SetLength (map fst (p_log s))) eqn:Hall.
  - destruct (p_status s) eqn:Hps; simpl.
    + destruct (H2 eq_refl) as [_ H3]. rewrite H3 in Hw; [discriminate|auto].
    + symmetry. apply declared_app_cons. reflexivity.
    + symmetry. apply declared_app_cons. reflexivity.
    + exfalso. destruct (wf_dead _ W p Hps) as [c Hc].
      pose proof (wf_panics _ W c p Hc) as Hcause.
      assert (Hs : is_SetLength c = true).
      { rewrite forallb_forall in Hall. apply Hall.
        apply in_map_iff. exists (c, Panics p). auto. }
      destruct Hcause as [(e & -> & _) | (v & -> & _)]; discriminate.
  - symmetry. apply declared_app_other. exact Hall.
Qed.

Lemma Length_returns_declared_length_witness :
  7%N = declared 0%N
          [PSetLength 3; PSetLength 7; PEmit (Plain "a"); PSetLength 9].
Proof.
  exact (Length_returns_declared_length "" "" live_request
           [PSetLength 3; PSetLength 7; PEmit (Plain "a"); PSetLength 9]
           [CLength; CNext]
           [Consumer false; Producer false; Producer false; Producer false;
            Consumer false; Producer false; Producer false]
           7%N (or_introl eq_refl)).
Defined.

(** *** [SetLength] is not activity *)

(** A handler that calls nothing but [SetLength], however often, leaves
    [waitLen] open: in every run of it [Length] has not returned. *)
Theorem SetLength_alone_keeps_Length_blocked m1 m2 rq P C sched :
  forallb is_SetLength P = true ->
  let s := run m1 m2 sched (init rq P C) in
  waitLen (stream s) = Open /\ forall l, ~ In (LengthResult l) (c_log s).
Proof.
  intros HP s.
  pose proof (wf_reachable m1 m2 rq P C sched) as W. fold s in W.
  pose proof (follows_run m1 m2 P C sched _ (follows_init rq P C))
    as [Hf _ _]. fold s in Hf.
  rewrite <- Hf, !forallb_app in HP.
  apply andb_prop in HP. destruct HP as [Hlog HP].
  apply andb_prop in HP. destruct HP as [Hfl _].
  assert (Hps : p_status s = PIdle).
  { destruct (p_status s) eqn:Hps; try discriminate; auto.
    exfalso. destruct (wf_dead _ W p Hps) as [c Hc].
    assert (Hs : is_SetLength c = true).
    { rewrite forallb_forall in Hlog. apply Hlog.
      apply in_map_iff. exists (c, Panics p). auto. }
    destruct (wf_panics _ W c p Hc) as [(e & -> & _) | (v & -> & _)];
      discriminate. }
  assert (Hw : waitLen (stream s) = Open).
  { apply (fresh_run m1 m2 sched _ (fresh_init rq P C)).
    split; [exact Hps|].
    rewrite forallb_forall in *. intros [c r] Hin. apply Hlog.
    apply in_map_iff. exists (c, r). auto. }
  split; [exact Hw|].
  intros l Hin.
  assert (HL : length_logged s) by (apply length_logged_run; intros l' []).
  destruct (HL l Hin) as [Hc _]. congruence.
Qed.

Lemma SetLength_alone_keeps_Length_blocked_witness :
  waitLen (stream (run "" "" (round_robin 3)
     (init live_request [PSetLength 4; PSetLength 5] [CLength]))) = Open.
Proof.
  exact (proj1 (SetLength_alone_keeps_Length_blocked "" "" live_request
           [PSetLength 4; PSetLength 5] [CLength] (round_robin 3) eq_refl)).
Defined.

(** *** [Emit] never sends on a closed channel *)

(** In every run, an [Emit] that is at its [select] finds [ch] open and
    the stream not closed, and no call ever panics with a send on a
    closed channel: the [closed] check under the lock is enough. *)
Theorem Emit_never_sends_on_closed_channel m1 m2 rq P C sched :
  let s := run m1 m2 sched (init rq P C) in
  (forall v, p_status s = PSelect v ->
     ch (stream s) = Open /\ closed (stream s) = false /\
     forall r pick, Emit_select r pick (stream s) <>
                    EmitPanics send_on_closed_channel) /\
  (forall c p, In (c, Panics p) (p_log s) -> p <> send_on_closed_channel).
Proof.
  intros s.
  pose proof (wf_reachable m1 m2 rq P C sched) as W. fold s in W.
  split.
  - intros v Hps.
    destruct (wf_emit _ W v (or_introl Hps)) as (Hcl & _ & _ & _).
    pose proof (cons_ch _ (wf_stream _ W)) as Hch. rewrite Hcl in Hch.
    repeat split; auto.
    intros r pick. unfold Emit_select. rewrite Hch.
    destruct (Context (req (stream s))); [|discriminate].
    repeat match goal with
           | |- context [if ?b then _ else _] => destruct b
           end; discriminate.
  - intros c p Hin.
    destruct (wf_panics _ W c p Hin) as [(e & _ & ->) | (v & _ & -> & _)];
      discriminate.
Qed.

(** *** [Emit] waits for the consumer *)

Lemma waiting_producer_step v rest pick s :
  is_error v = false ->
  waiting_for_receiver v rest s ->
  waiting_for_receiver v rest (producer_step pick s).
Proof.
  intros Hv [Hlog Hst Htodo Hcons Hrec [Hcl Hch] Hctx].
  unfold producer_step.
  destruct Hst as [[Hps Hpt] | Hps]; rewrite Hps.
  - rewrite Hpt. unfold Emit_enter, AssertNotError. rewrite Hv.
    simpl closed. simpl req. rewrite Hcl, Hctx.
    unfold emit_at_select, Emit_select, receiver_parked. simpl.
    rewrite Hctx, Hch.
    destruct (c_status s) eqn:Hcs; [|congruence|]; simpl;
      constructor; simpl; rewrite ?Hcs; auto; discriminate.
  - unfold emit_at_select, Emit_select, receiver_parked.
    rewrite Hctx, Hch.
    destruct (c_status s) eqn:Hcs; [|congruence|]; simpl;
      constructor; simpl; rewrite ?Hcs; auto; discriminate.
Qed.

Lemma waiting_consumer_step m1 m2 v rest pick s :
  waiting_for_receiver v rest s ->
  waiting_for_receiver v rest (consumer_step m1 m2 pick s).
Proof.
  intros [Hlog Hst Htodo Hcons Hrec [Hcl Hch] Hctx].
  assert (Hfin : forall r s', received [r] = [] ->
            waiting_for_receiver v rest s' ->
            waiting_for_receiver v rest (c_finish r s')).
  { intros r s' Hr [H1 H2 H3 H4 H5 H6 H7].
    constructor; simpl; auto; try discriminate.
    rewrite received_app, H5, Hr. reflexivity. }
  assert (Hlen : forall s', waiting_for_receiver v rest s' ->
            waiting_for_receiver v rest (length_at_wait s')).
  { intros s' H'. unfold length_at_wait.
    destruct (Length (stream s')); [apply Hfin; auto|].
    destruct H' as [H1 H2 H3 H4 H5 H6 H7].
    constructor; simpl; auto; discriminate. }
  assert (H : waiting_for_receiver v rest s) by (constructor; auto).
  unfold consumer_step.
  destruct (c_status s) eqn:Hcs; [|congruence|auto].
  destruct (c_todo s) as [|c ctl] eqn:Hct; [exact H|].
  simpl in Htodo. apply andb_prop in Htodo. destruct Htodo as [Hc Htl].
  assert (Hpop : waiting_for_receiver v rest (c_pop s)).
  { constructor; simpl; rewrite ?Hct, ?Hcs; auto. }
  destruct c; [discriminate|auto|auto].
Qed.

(** Without a cancellation and without a [Next], an [Emit] on an open
    stream does not return: however long the run and whatever else the
    consumer calls ([Length], [Error]), the producer's log stays empty
    and nothing is delivered. *)
Theorem Emit_waits_for_Next m1 m2 rq v rest C sched :
  Context rq = Some (mk_Context None) -> is_error v = false ->
  forallb (fun c => negb (is_CNext c)) C = true ->
  no_cancel sched = true ->
  let s := run m1 m2 sched (init rq (PEmit v :: rest) C) in
  p_log s = [] /\ received (c_log s) = [] /\
  (p_status s = PIdle \/ p_status s = PSelect v).
Proof.
  intros Hctx Hv HC Hn s.
  assert (H : waiting_for_receiver v rest s).
  { subst s.
    assert (H0 : waiting_for_receiver v rest (init rq (PEmit v :: rest) C))
      by (constructor; simpl; auto; discriminate).
    revert H0 Hn. generalize (init rq (PEmit v :: rest) C).
    induction sched as [|t sched IH]; simpl; intros s0 H0 Hn; auto.
    apply andb_prop in Hn. destruct Hn as [Ht Hn].
    apply IH; auto.
    destruct t; simpl; try discriminate;
      auto using waiting_producer_step, waiting_consumer_step. }
  destruct H as [Hlog Hst _ _ Hrec _ _].
  repeat split; auto. tauto.
Qed.

Lemma Emit_waits_for_Next_witness :
  p_log (run "" "" (round_robin 5)
     (init live_request [PEmit (Plain "a"); PClose] [CLength; CError])) = [].
Proof.
  exact (proj1 (Emit_waits_for_Next "" "" live_request (Plain "a") [PClose]
           [CLength; CError] (round_robin 5)
           eq_refl eq_refl eq_refl eq_refl)).
Defined.

(** *** A consumer that keeps asking never blocks the handler *)

Lemma idle_emit_open m1 m2 s v pt ct :
  idle s -> closed (stream s) = false -> is_error v = false ->
  p_todo s = PEmit v :: pt -> c_todo s = CNext :: ct ->
  exists s', run m1 m2 relay_one s = s' /\ idle s' /\
    p_todo s' = pt /\ c_todo s' = ct /\
    closed (stream s') = is_Single v.
Proof.
  intros [Hp Hc Hch Hctx] Hcl Hv Hpt Hct.
  destruct s as [st p ps pl c cs cl].
  destruct st as [rq ch0 cd cc er w l].
  destruct rq as [octx].
  simpl in *. subst. simpl in *. subst.
  eexists. split; [reflexivity|].
  unfold relay_one, run, step, consumer_step, producer_step; simpl.
  unfold next_at_select, Next; simpl.
  unfold Emit_enter, AssertNotError; simpl. rewrite Hv. simpl.
  unfold emit_at_select, Emit_select; simpl.
  unfold Emit_sent.
  destruct (is_Single v); simpl; repeat split; reflexivity.
Qed.

Lemma idle_producer_call m1 m2 s c pt :
  idle s -> p_todo s = c :: pt ->
  match c with
  | PEmit v => closed (stream s) = true /\ is_error v = false
  | _ => True
  end ->
  exists s', run m1 m2 [Producer false] s = s' /\ idle s' /\
    p_todo s' = pt /\ c_todo s' = c_todo s /\
    closed (stream s') =
      match c with
      | PClose | PCloseWithError _ => true
      | _ => closed (stream s)
      end.
Proof.
  intros [Hp Hc Hch Hctx] Hpt Hcall.
  destruct s as [st p ps pl ct cs cl].
  destruct st as [rq ch0 cd cc er w l].
  destruct rq as [octx].
  simpl in *. subst.
  eexists. split; [reflexivity|].
  unfold run, step, producer_step; simpl.
  destruct c as [v| |e|n]; simpl.
  - destruct Hcall as [-> Hv].
    unfold Emit_enter, AssertNotError; simpl. rewrite Hv. simpl.
    repeat split; reflexivity.
  - unfold Close, CloseWithError; simpl.
    destruct cd; simpl; repeat split; reflexivity.
  - unfold CloseWithError; simpl.
    destruct cd; simpl; [repeat split; reflexivity|].
    destruct e as [[]|]; simpl; repeat split; reflexivity.
  - unfold SetLength; simpl. destruct w; simpl; repeat split; reflexivity.
Qed.

Lemma idle_next_closed m1 m2 s ct :
  idle s -> closed (stream s) = true -> c_todo s = CNext :: ct ->
  exists s', run m1 m2 [Consumer false] s = s' /\ idle s' /\
    p_todo s' = p_todo s /\ c_todo s' = ct /\ closed (stream s') = true.
Proof.
  intros [Hp Hc Hch Hctx] Hcl Hct.
  destruct s as [st p ps pl c cs cl].
  destruct st as [rq ch0 cd cc er w l].
  destruct rq as [octx].
  simpl in *. subst. simpl in *. subst.
  eexists. split; [reflexivity|].
  unfold run, step, consumer_step; simpl.
  repeat split; reflexivity.
Qed.

Lemma no_cancel_schedule_for P : forall cl,
  no_cancel (schedule_for cl P) = true.
Proof.
  induction P as [|c P IH]; intros cl; simpl; auto.
  destruct c; simpl; auto. destruct cl; simpl; auto.
Qed.

Lemma drive m1 m2 P : forall s n,
  idle s -> p_todo s = P -> c_todo s = repeat CNext n ->
  emits_no_error P = true ->
  needs (closed (stream s)) P <= n ->
  exists s', run m1 m2 (schedule_for (closed (stream s)) P) s = s' /\
    idle s' /\ p_todo s' = [] /\
    c_todo s' = repeat CNext (n - needs (closed (stream s)) P) /\
    closed (stream s') = closed_by (closed (stream s)) P.
Proof.
  induction P as [|c P IH]; intros s n Hi Hpt Hct Hne Hn.
  - exists s. simpl. replace (n - 0) with n by lia.
    repeat split; auto; apply Hi.
  - simpl in Hne. apply andb_prop in Hne. destruct Hne as [Hc Hne].
    destruct c as [v| |e|l].
    + apply negb_true_iff in Hc.
      destruct (closed (stream s)) eqn:Hcl.
      * destruct (idle_producer_call m1 m2 s (PEmit v) P Hi Hpt
                    (conj Hcl Hc)) as (s1 & E & Hi1 & Hp1 & Hc1 & Hcl1).
        rewrite Hcl in Hcl1. rewrite Hct in Hc1.
        simpl in Hn. cbn [schedule_for needs closed_by orb].
        change (Producer false :: schedule_for true P)
          with ([Producer false] ++ schedule_for true P).
        rewrite run_app, E.
        destruct (IH s1 n Hi1 Hp1 Hc1 Hne) as (s2 & E2 & H2);
          rewrite ?Hcl1; auto.
        rewrite Hcl1 in E2, H2. exists s2. split; auto.
      * simpl in Hn. destruct n as [|n]; [lia|]. simpl in Hct.
        destruct (idle_emit_open m1 m2 s v P (repeat CNext n) Hi Hcl Hc
                    Hpt Hct) as (s1 & E & Hi1 & Hp1 & Hc1 & Hcl1).
        cbn [schedule_for needs closed_by orb].
        rewrite run_app, E.
        destruct (IH s1 n Hi1 Hp1 Hc1 Hne) as (s2 & E2 & H2);
          rewrite ?Hcl1; [lia|].
        rewrite Hcl1 in E2, H2. exists s2. split; auto.
    + destruct (idle_producer_call m1 m2 s PClose P Hi Hpt I)
        as (s1 & E & Hi1 & Hp1 & Hc1 & Hcl1).
      rewrite Hct in Hc1. simpl in Hn.
      cbn [schedule_for needs closed_by].
      change (Producer false :: schedule_for true P)
        with ([Producer false] ++ schedule_for true P).
      rewrite run_app, E.
      destruct (IH s1 n Hi1 Hp1 Hc1 Hne) as (s2 & E2 & H2);
        rewrite ?Hcl1; auto.
      rewrite Hcl1 in E2, H2. exists s2. split; auto.
    + destruct (idle_producer_call m1 m2 s (PCloseWithError e) P Hi Hpt I)
        as (s1 & E & Hi1 & Hp1 & Hc1 & Hcl1).
      rewrite Hct in Hc1. simpl in Hn.
      cbn [schedule_for needs closed_by].
      change (Producer false :: schedule_for true P)
        with ([Producer false] ++ schedule_for true P).
      rewrite run_app, E.
      destruct (IH s1 n Hi1 Hp1 Hc1 Hne) as (s2 & E2 & H2);
        rewrite ?Hcl1; auto.
      rewrite Hcl1 in E2, H2. exists s2. split; auto.
    + destruct (idle_producer_call m1 m2 s (PSetLength l) P Hi Hpt I)
        as (s1 & E & Hi1 & Hp1 & Hc1 & Hcl1).
      rewrite Hct in Hc1. simpl in Hn.
      cbn [schedule_for needs closed_by].
      change (Producer false :: schedule_for (closed (stream s)) P)
        with ([Producer false] ++ schedule_for (closed (stream s)) P).
      rewrite run_app, E.
      destruct (IH s1 n Hi1 Hp1 Hc1 Hne) as (s2 & E2 & H2);
        rewrite ?Hcl1; auto.
      rewrite Hcl1 in E2, H2. exists s2. split; auto.
Qed.

Lemma drain m1 m2 k : forall s,
  idle s -> closed (stream s) = true -> p_todo s = [] ->
  c_todo s = repeat CNext k ->
  finished (run m1 m2 (repeat (Consumer false) k) s) = true.
Proof.
  induction k as [|k IH]; simpl; intros s Hi Hcl Hpt Hct.
  - unfold finished. rewrite Hpt, Hct, (idle_p _ Hi), (idle_c _ Hi).
    reflexivity.
  - destruct (idle_next_closed m1 m2 s (repeat CNext k) Hi Hcl Hct)
      as (s1 & E & Hi1 & Hp1 & Hc1 & Hcl1).
    simpl in E. rewrite E. apply IH; auto. congruence.
Qed.

Lemma no_cancel_consumers k : no_cancel (repeat (Consumer false) k) = true.
Proof. induction k; simpl; auto. Qed.

(** The sends and the closing of a sound log are those its calls tell. *)
Lemma sound_counts log : forall cl,
  sound true cl log -> no_panic log ->
  List.length (sent_values log) = needs cl (map fst log) /\
  closed_after cl log = closed_by cl (map fst log).
Proof.
  induction log as [|[c r] log IH]; simpl; intros cl Hs Hnp; auto.
  destruct Hs as [Hr Hs].
  assert (Hnp' : no_panic log)
    by (intros c' p' Hin; apply (Hnp c' p'); right; exact Hin).
  specialize (IH _ Hs Hnp'). destruct IH as [IH1 IH2].
  destruct c as [v| |e|l]; simpl in Hr.
  - destruct (is_error v);
      [exfalso; apply (Hnp (PEmit v) value_is_an_error);
       left; congruence|].
    destruct cl; subst r; simpl in *; auto.
  - destruct cl; subst r; simpl in *; auto.
  - destruct cl; subst r; simpl in *; auto.
  - subst r. simpl in *. rewrite orb_false_r in *. auto.
Qed.

(** A handler whose [Emit]s are of no error value, on a request whose
    context is never canceled, against a consumer that calls [Next] [n]
    times: some schedule brings both to their end exactly when [n] is
    the number of [Emit] calls made while the stream is open, or is
    larger and the handler closes the stream.  With fewer [Next] calls
    an [Emit] waits for ever; with more and no close, a [Next] does. *)
Theorem handler_finishes_iff m1 m2 rq P n :
  Context rq = Some (mk_Context None) -> emits_no_error P = true ->
  ((exists sched, no_cancel sched = true /\
      finished (run m1 m2 sched (init rq P (repeat CNext n))) = true)
   <->
   (n = needs false P \/ (closed_by false P = true /\ needs false P <= n))).
Proof.
  intros Hctx Hne.
  assert (Hl : ctx_live rq = true) by (unfold ctx_live; rewrite Hctx; auto).
  assert (Hh : has_ctx rq = true) by (unfold has_ctx; rewrite Hctx; auto).
  split.
  - intros (sched & Hn & Hf).
    destruct (nexts_of_finished_run m1 m2 rq P n sched Hl Hn Hf)
      as (k & _ & Hlen & Hk & HP & Hnp & Hs).
    rewrite Hh in Hs.
    destruct (sound_counts _ false Hs Hnp) as [H1 H2].
    rewrite HP in H1, H2. rewrite H1 in Hlen.
    destruct k as [|k]; [left; lia | right].
    split; [|lia]. rewrite <- H2.
    destruct (closed_after false _) eqn:Hc; auto.
    exfalso. apply Hk; [discriminate|].
    eapply closed_after_first_close; eauto.
  - intros Hcase.
    assert (Hi : idle (init rq P (repeat CNext n)))
      by (constructor; simpl; auto).
    assert (Hle : needs false P <= n) by (destruct Hcase; lia).
    destruct (drive m1 m2 P _ n Hi eq_refl eq_refl Hne Hle)
      as (s1 & E & Hi1 & Hp1 & Hc1 & Hcl1).
    simpl in E, Hc1, Hcl1.
    exists (schedule_for false P ++
            repeat (Consumer false) (n - needs false P)).
    rewrite no_cancel_app, no_cancel_schedule_for, no_cancel_consumers.
    split; [reflexivity|]. rewrite run_app, E.
    destruct Hcase as [-> | [Hcl _]].
    + replace (needs false P - needs false P) with 0 in * by lia.
      simpl. unfold finished.
      rewrite Hp1, Hc1, (idle_p _ Hi1), (idle_c _ Hi1). reflexivity.
    + apply drain; auto. congruence.
Qed.

Lemma handler_finishes_iff_witness :
  (exists sched, no_cancel sched = true /\
      finished (run "" "" sched
         (init live_request
            [PSetLength 2; PEmit (Plain "a"); PEmit (Single (Plain "b"));
             PEmit (Plain "c")]
            (repeat CNext 4))) = true)
   <->
   (4 = 2 \/ (true = true /\ 2 <= 4)).
Proof.
  exact (handler_finishes_iff "" "" live_request
           [PSetLength 2; PEmit (Plain "a"); PEmit (Single (Plain "b"));
            PEmit (Plain "c")] 4 eq_refl eq_refl).
Defined.

(* ------------------------------------------------------------------ *)
(** ** Strings                                                          *)
(* ------------------------------------------------------------------ *)

Lemma append_assoc (a b c : string) :
  ((a ++ b) ++ c = a ++ b ++ c)%string.
Proof. induction a as [|x a IH]; simpl; [reflexivity|now rewrite IH]. Qed.

Lemma append_nil_r (a : string) : (a ++ "" = a)%string.
Proof. induction a as [|x a IH]; simpl; [reflexivity|now rewrite IH]. Qed.

(* ------------------------------------------------------------------ *)
(** ** Properties of the adder commands                                 *)
(* ------------------------------------------------------------------ *)

Module AdderFacts.
Import Adder AdderSpec.

Lemma last_nonempty {A} (l : list A) : forall x a b,
  last (x :: l) a = last (x :: l) b.
Proof.
  induction l as [|y l IH]; intros x a b; [reflexivity|].
  change (last (y :: l) a = last (y :: l) b). apply IH.
Qed.

Section Facts.

Variable Atoi : string -> Z + error.
Context {E : Type} (re : ResponseEmitter E).

Lemma simpleAdd_loop_spec args : forall n i sum e,
  simpleAdd_loop Atoi re n i args sum e =
  let (nums, perr) := parse_all Atoi args in
  match emit_each re (lines_from n i (running sum nums)) e with
  | (Some err, e') => (inl err, e')
  | (None, e') =>
      match perr with
      | Some err => (inl err, e')
      | None => (inr (last (running sum nums) sum), e')
      end
  end.
Proof.
  induction args as [|str args IH]; intros n i sum e; simpl; auto.
  destruct (Atoi str) as [num|err]; simpl; auto.
  revert IH. destruct (parse_all Atoi args) as [nums perr]. intros IH. simpl.
  destruct (Emit re _ e) as [[err|] e']; auto.
  rewrite IH.
  destruct (emit_each re _ e') as [[err|] e'']; auto.
  destruct perr; auto.
  destruct (running (int_wrap (sum + num)) nums) as [|z l]; auto.
  now rewrite (last_nonempty l z sum (int_wrap (sum + num))).
Qed.

(** [simpleAdd] on any emitter: it emits, one after the other, an
    intermediate result for each argument before the first that
    [Atoi] rejects, with the sum so far and the number of arguments
    still to come, and stops at the first [Emit] that fails, returning
    its error; if none fails it returns [Atoi]'s error, if there is
    one, and otherwise emits the total and returns what that [Emit]
    returns. *)
Theorem simpleAdd_emits args e :
  simpleAdd Atoi re args e =
  let (nums, perr) := parse_all Atoi args in
  match emit_each re (lines_from (List.length args) 0 (running 0 nums)) e with
  | (Some err, e') => (Some err, e')
  | (None, e') =>
      match perr with
      | Some err => (Some err, e')
      | None => Emit re (Str (total_line (last (running 0 nums) 0%Z))) e'
      end
  end.
Proof.
  unfold simpleAdd. rewrite simpleAdd_loop_spec.
  destruct (parse_all Atoi args) as [nums perr].
  destruct (emit_each re _ e) as [[err|] e']; auto.
  destruct perr; auto.
Qed.

Lemma statusAdd_loop_spec args : forall n i sum e,
  statusAdd_loop Atoi re n i args sum e =
  let (nums, perr) := parse_all Atoi args in
  match emit_each re (map Status (statuses_from n i (running sum nums))) e with
  | (Some err, e') => (Some err, e')
  | (None, e') => (perr, e')
  end.
Proof.
  induction args as [|str args IH]; intros n i sum e; simpl; auto.
  destruct (Atoi str) as [num|err]; simpl; auto.
  revert IH. destruct (parse_all Atoi args) as [nums perr]. intros IH. simpl.
  destruct (Emit re _ e) as [[err|] e']; auto.
Qed.

End Facts.

Lemma int_wrap_add a b : int_wrap (int_wrap a + b) = int_wrap (a + b).
Proof.
  unfold int_wrap. f_equal.
  replace ((a + 2 ^ 63) mod 2 ^ 64 - 2 ^ 63 + b + 2 ^ 63)%Z
    with ((a + 2 ^ 63) mod 2 ^ 64 + b)%Z by lia.
  rewrite Zplus_mod_idemp_l. f_equal. lia.
Qed.

Lemma last_running nums : forall s,
  last (running (int_wrap s) nums) (int_wrap s) =
  int_wrap (s + fold_right Z.add 0%Z nums).
Proof.
  induction nums as [|num nums IH]; intros s; cbn [running fold_right].
  - cbn. f_equal. lia.
  - rewrite int_wrap_add.
    replace (s + (num + fold_right Z.add 0 nums))%Z
      with (s + num + fold_right Z.add 0 nums)%Z by lia.
    rewrite <- (IH (s + num)%Z).
    destruct (running (int_wrap (s + num)) nums) as [|z l]; [reflexivity|].
    change (last (z :: l) (int_wrap s) = last (z :: l) (int_wrap (s + num))).
    apply last_nonempty.
Qed.

Lemma last_running_0 nums : last (running 0 nums) 0%Z = int_sum nums.
Proof. exact (last_running nums 0%Z). Qed.

Lemma running_length s nums : List.length (running s nums) = List.length nums.
Proof. revert s. induction nums; intros s; simpl; auto. Qed.

Lemma parse_all_length Atoi args : forall nums perr,
  parse_all Atoi args = (nums, perr) ->
  (List.length nums <= List.length args)%nat /\
  (perr = None -> List.length nums = List.length args).
Proof.
  induction args as [|str args IH]; intros nums perr H; simpl in H.
  - inversion H. simpl. auto.
  - destruct (Atoi str) as [num|err].
    + destruct (parse_all Atoi args) as [nums' perr'].
      inversion H; subst. destruct (IH nums' perr eq_refl) as [Hle Heq].
      simpl. split; [lia|]. intros Hn. rewrite (Heq Hn). reflexivity.
    + inversion H; subst. simpl. split; [lia|discriminate].
Qed.

Lemma emit_each_recording vs : forall r,
  emit_each recording vs r =
  (None, {| taken := taken r ++ vs; closes := closes r; status := status r |}).
Proof.
  induction vs as [|v vs IH]; intros r; simpl.
  - rewrite app_nil_r. destruct r; reflexivity.
  - rewrite IH. simpl. rewrite <- app_assoc. reflexivity.
Qed.

(** [simpleAdd] on arguments that all parse, on an emitter that takes
    every value: it returns nil after emitting one intermediate result
    per argument and then the total, and the total is the sum of the
    numbers, wrapped around as an [int]. *)
Theorem simpleAdd_total_is_sum Atoi args nums r
    (Hparse : parse_all Atoi args = (nums, None)) :
  List.length nums = List.length args /\
  simpleAdd Atoi recording args r =
    (None,
     {| taken := taken r ++
                 lines_from (List.length args) 0 (running 0 nums) ++
                 [Str (total_line (int_sum nums))];
        closes := closes r; status := status r |}).
Proof.
  split; [exact (proj2 (parse_all_length Atoi args nums None Hparse) eq_refl)|].
  unfold simpleAdd.
  rewrite simpleAdd_loop_spec, Hparse, emit_each_recording.
  rewrite last_running_0. simpl. rewrite <- app_assoc. reflexivity.
Qed.

Lemma simpleAdd_total_is_sum_witness :
  simpleAdd digit_Atoi recording ["1"; "2"; "3"] fresh_recorder =
    (None,
     {| taken := [Str "intermediate result: 1; 2 left";
                  Str "intermediate result: 3; 1 left";
                  Str "intermediate result: 6; 0 left";
                  Str "total: 6"];
        closes := 0; status := None |}).
Proof.
  exact (proj2 (simpleAdd_total_is_sum digit_Atoi ["1"; "2"; "3"]
                  [1; 2; 3]%Z fresh_recorder eq_refl)).
Defined.


Lemma statusAdd_recording Atoi args nums perr r
    (Hparse : parse_all Atoi args = (nums, perr)) :
  statusAdd Atoi recording args r =
    (perr,
     {| taken := taken r ++
                 map Status (statuses_from (List.length args) 0 (running 0 nums));
        closes := closes r; status := status r |}).
Proof.
  unfold statusAdd. rewrite statusAdd_loop_spec, Hparse, emit_each_recording.
  reflexivity.
Qed.

Lemma encode_statuses sums : forall n i w,
  i + List.length sums = n -> sums <> [] ->
  encode_all (map Status (statuses_from n i sums)) w =
    (None,
     (w ++ text_of (removelast (lines_from n i sums)) ++
      total_line (last sums 0%Z) ++ LF)%string).
Proof.
  induction sums as [|s sums IH]; intros n i w Hn Hne; [congruence|].
  destruct sums as [|s2 sums].
  - simpl in Hn. cbn [statuses_from map encode_all encodeText Left Current].
    replace (n - i - 1) with 0 by lia. simpl Z.eqb. cbv iota.
    cbn [lines_from removelast text_of last]. unfold total_line.
    simpl append at 2. now rewrite !append_assoc.
  - remember (s2 :: sums) as tl eqn:Htl.
    cbn [statuses_from map encode_all encodeText Left Current].
    destruct (Z.eqb_spec (Z.of_nat (n - i - 1)) 0) as [H0|_].
    { subst tl. simpl in Hn. lia. }
    rewrite (IH n (S i)) by (subst tl; simpl in *; try lia; congruence).
    subst tl. f_equal.
    change (lines_from n i (s :: s2 :: sums))
      with (Str (intermediate_line s (Z.of_nat (n - i - 1))) ::
            lines_from n (S i) (s2 :: sums)).
    change (last (s :: s2 :: sums) 0%Z) with (last (s2 :: sums) 0%Z).
    remember (lines_from n (S i) (s2 :: sums)) as L eqn:HL.
    destruct L as [|l L]; [discriminate|].
    change (removelast (Str (intermediate_line s (Z.of_nat (n - i - 1))) :: l :: L))
      with (Str (intermediate_line s (Z.of_nat (n - i - 1))) :: removelast (l :: L)).
    cbn [text_of]. now rewrite !append_assoc.
Qed.

(** The text output of [encodeAdd]: for arguments that all parse, at
    least one, the encoder applied in turn to the values [Run] emits
    accepts them all and writes the intermediate results of
    [simpleAdd] but the last, and then the total; every line ends in
    a newline. *)
Theorem encodeAdd_text Atoi args nums w
    (Hparse : parse_all Atoi args = (nums, None))
    (Hsome : args <> []) :
  fst (statusAdd Atoi recording args fresh_recorder) = None /\
  encode_all (taken (snd (statusAdd Atoi recording args fresh_recorder))) w =
    (None,
     (w ++ text_of (removelast
                      (lines_from (List.length args) 0 (running 0 nums))) ++
      total_line (int_sum nums) ++ LF)%string).
Proof.
  rewrite (statusAdd_recording Atoi args nums None _ Hparse). simpl.
  split; [reflexivity|].
  pose proof (proj2 (parse_all_length Atoi args nums None Hparse) eq_refl) as Hl.
  rewrite encode_statuses.
  - now rewrite last_running_0.
  - rewrite running_length. lia.
  - intros Hr. apply (f_equal (@List.length Z)) in Hr.
    rewrite running_length, Hl in Hr. destruct args; [congruence|discriminate].
Qed.

Lemma encodeAdd_text_witness :
  encode_all
    (taken (snd (statusAdd digit_Atoi recording ["1"; "2"; "3"]
                   fresh_recorder))) "" =
    (None,
     ("intermediate result: 1; 2 left" ++ LF ++
      "intermediate result: 3; 1 left" ++ LF ++
      "total: 6" ++ LF)%string).
Proof.
  exact (proj2 (encodeAdd_text digit_Atoi ["1"; "2"; "3"] [1; 2; 3]%Z ""
                  eq_refl ltac:(discriminate))).
Defined.

Lemma postRun_loop_scripted err ss : forall fuel lastLen exit out,
  List.length ss < fuel ->
  postRun_loop (scripted err) fuel lastLen exit (map Status ss) out =
    (Some (Returned (if error_eqb_EOF err then None else Some err)),
     [], (out ++ rendering lastLen ss)%string,
     fold_left (fun exit s => if (0 <? Left s)%Z then exit else Current s)
       ss exit).
Proof.
  induction ss as [|s ss IH]; intros fuel lastLen exit out Hf;
    (destruct fuel as [|fuel]; [simpl in Hf; lia|]).
  - simpl. rewrite append_nil_r. now destruct (error_eqb_EOF err).
  - cbn [map postRun_loop scripted Next].
    rewrite IH by (simpl in Hf; lia).
    cbn [rendering fold_left]. now rewrite !append_assoc.
Qed.

Lemma postRun_loop_panics err ss v rest :
  (forall s, v <> Status s) ->
  forall fuel lastLen exit out,
  List.length ss < fuel ->
  postRun_loop (scripted err) fuel lastLen exit
    (map Status ss ++ v :: rest) out =
    (Some Panicked, rest,
     (out ++ rendering lastLen ss ++ CR ++ spaces (last_len lastLen ss))%string,
     fold_left (fun exit s => if (0 <? Left s)%Z then exit else Current s)
       ss exit).
Proof.
  intros Hv. unfold last_len.
  induction ss as [|s ss IH]; intros fuel lastLen exit out Hf;
    (destruct fuel as [|fuel]; [simpl in Hf; lia|]).
  - cbn [map app postRun_loop scripted Next rendering fold_left].
    destruct v as [x|x|x]; try reflexivity. now destruct (Hv x).
  - cbn [map app postRun_loop scripted Next].
    rewrite IH by (simpl in Hf; lia).
    cbn [rendering fold_left]. now rewrite !append_assoc.
Qed.

(** [postRunAdd]'s [PostRun] on a response that delivers the statuses
    [ss] and then ends with [err]: it returns nil when [err] is
    [io.EOF] and [err] otherwise, has read the whole response, has
    closed the emitter, and has printed one progress line per status,
    each after blanking as many columns as the line before it had, and
    then a newline. *)
Theorem postRunAdd_prints_progress {E} (re : ResponseEmitter E)
    err ss fuel e out
    (Hfuel : List.length ss < fuel) :
  postRunAdd (scripted err) re fuel (map Status ss) e out =
    Some (Returned (if error_eqb_EOF err then None else Some err),
          [], snd (Close re e),
          (out ++ rendering 0 ss ++ LF)%string).
Proof.
  unfold postRunAdd. rewrite postRun_loop_scripted by exact Hfuel.
  now rewrite append_assoc.
Qed.

Lemma postRunAdd_prints_progress_witness :
  postRunAdd (scripted io_EOF) recording 3
    (map Status [{| Current := 1; Left := 1 |}; {| Current := 3; Left := 0 |}])
    fresh_recorder "" =
    Some (Returned None, [],
          {| taken := []; closes := 1; status := None |},
          (CR ++ CR ++ "calculation sum... current: 1; left: 1" ++
           CR ++ spaces 39 ++ CR ++ "sum is 3." ++ LF)%string).
Proof.
  exact (postRunAdd_prints_progress recording io_EOF
           [{| Current := 1; Left := 1 |}; {| Current := 3; Left := 0 |}]
           3 fresh_recorder "" (le_n 3)).
Defined.

(** [postRunAdd]'s [PostRun] on a response that delivers, after the
    statuses [ss], a value that is no status: the type assertion
    panics after the line has been blanked, the values behind it are
    not read, and the deferred calls still print the newline and close
    the emitter. *)
Theorem postRunAdd_panic_still_closes {E} (re : ResponseEmitter E)
    err ss v rest fuel e out
    (Hv : forall s, v <> Status s)
    (Hfuel : List.length ss < fuel) :
  postRunAdd (scripted err) re fuel (map Status ss ++ v :: rest) e out =
    Some (Panicked, rest, snd (Close re e),
          (out ++ rendering 0 ss ++ CR ++ spaces (last_len 0 ss) ++ LF)%string).
Proof.
  unfold postRunAdd. rewrite (postRun_loop_panics err ss v rest Hv) by exact Hfuel.
  now rewrite !append_assoc.
Qed.

Lemma postRunAdd_panic_still_closes_witness :
  postRunAdd (scripted io_EOF) recording 2
    (map Status [{| Current := 1; Left := 1 |}] ++
     [Str "x"; Status {| Current := 3; Left := 0 |}])
    fresh_recorder "" =
    Some (Panicked, [Status {| Current := 3; Left := 0 |}],
          {| taken := []; closes := 1; status := None |},
          (CR ++ CR ++ "calculation sum... current: 1; left: 1" ++
           CR ++ spaces 39 ++ LF)%string).
Proof.
  exact (postRunAdd_panic_still_closes recording io_EOF
           [{| Current := 1; Left := 1 |}] (Str "x")
           [Status {| Current := 3; Left := 0 |}] 2 fresh_recorder ""
           ltac:(discriminate) (le_n 2)).
Defined.

Lemma exit_none sums : forall n i exit,
  i + List.length sums < n ->
  fold_left (fun exit s => if (0 <? Left s)%Z then exit else Current s)
    (statuses_from n i sums) exit = exit.
Proof.
  induction sums as [|s sums IH]; intros n i exit Hn; [reflexivity|].
  cbn [statuses_from fold_left Left Current]. simpl in Hn.
  destruct (Z.ltb_spec 0 (Z.of_nat (n - i - 1))) as [_|H0]; [|lia].
  apply IH. lia.
Qed.

Lemma exit_last sums : forall n i exit,
  i + List.length sums = n ->
  fold_left (fun exit s => if (0 <? Left s)%Z then exit else Current s)
    (statuses_from n i sums) exit = last sums exit.
Proof.
  induction sums as [|s sums IH]; intros n i exit Hn; [reflexivity|].
  cbn [statuses_from fold_left Left Current]. simpl in Hn.
  destruct sums as [|s2 sums].
  - simpl in Hn. replace (n - i - 1) with 0 by lia. reflexivity.
  - destruct (Z.ltb_spec 0 (Z.of_nat (n - i - 1))) as [_|H0];
      [|simpl in Hn; lia].
    rewrite (IH n (S i)) by (simpl in *; lia).
    change (last (s :: s2 :: sums) exit) with (last (s2 :: sums) exit).
    reflexivity.
Qed.

Lemma parse_all_short Atoi args : forall nums err,
  parse_all Atoi args = (nums, Some err) ->
  List.length nums < List.length args.
Proof.
  induction args as [|str args IH]; intros nums err H; simpl in H.
  - discriminate.
  - destruct (Atoi str) as [num|e].
    + destruct (parse_all Atoi args) as [nums' perr'].
      inversion H; subst. simpl. specialize (IH nums' err eq_refl). lia.
    + inversion H; subst. simpl. lia.
Qed.

Lemma statuses_from_length n sums : forall i,
  List.length (statuses_from n i sums) = List.length sums.
Proof. induction sums; intros i; simpl; auto. Qed.

(** [exitAdd] end to end: on the statuses its [Run] emits for the
    arguments, followed by the end of the response, its [PostRun] sets
    the exit status once, to the sum of the numbers when all arguments
    parsed, and to 0 when one did not. *)
Theorem exitAdd_status_is_sum Atoi args nums perr err fuel r out
    (Hparse : parse_all Atoi args = (nums, perr))
    (Hfuel : List.length args < fuel) :
  exitAdd (scripted err) recording fuel
    (taken (snd (statusAdd Atoi recording args fresh_recorder))) r out =
    Some (Returned (if error_eqb_EOF err then None else Some err), [],
          {| taken := taken r; closes := closes r;
             status := Some (match perr with
                             | None => int_sum nums
                             | Some _ => 0%Z
                             end) |},
          (out ++
           rendering 0 (statuses_from (List.length args) 0 (running 0 nums)) ++
           LF)%string).
Proof.
  rewrite (statusAdd_recording Atoi args nums perr _ Hparse).
  destruct (parse_all_length Atoi args nums perr Hparse) as [Hle Heq].
  unfold exitAdd. cbn [SetStatus recording taken snd fresh_recorder app].
  rewrite postRun_loop_scripted
    by (rewrite statuses_from_length, running_length; lia).
  rewrite append_assoc. do 2 f_equal.
  destruct perr as [perr|]; do 3 f_equal.
  - apply exit_none. rewrite running_length. simpl.
    exact (parse_all_short Atoi args nums perr Hparse).
  - rewrite exit_last by (rewrite running_length; simpl; auto).
    apply last_running_0.
Qed.

Lemma exitAdd_status_is_sum_witness :
  option_map (fun x => status (snd (fst x)))
    (exitAdd (scripted io_EOF) recording 4
       (taken (snd (statusAdd digit_Atoi recording ["1"; "2"; "3"]
                      fresh_recorder))) fresh_recorder "") =
  Some (Some 6%Z).
Proof.
  exact (f_equal (option_map (fun x => status (snd (fst x))))
           (exitAdd_status_is_sum digit_Atoi ["1"; "2"; "3"] [1; 2; 3]%Z None
              io_EOF 4 fresh_recorder "" eq_refl (le_n 4))).
Defined.

End AdderFacts.

(* ------------------------------------------------------------------ *)
(** ** Properties of the suggestions                                    *)
(* ------------------------------------------------------------------ *)

Module SuggestFacts.
Import Suggest.

Lemma prefix_app sub : forall s,
  String.prefix sub s = true <-> exists post, s = (sub ++ post)%string.
Proof.
  induction sub as [|a sub IH]; intros s.
  - destruct s; simpl; split; eauto.
  - destruct s as [|b s]; simpl.
    + split; [discriminate|]. intros [post H]. discriminate.
    + destruct (ascii_dec a b) as [->|Hab].
      * rewrite IH. split; intros [post H]; exists post.
        -- now rewrite H.
        -- now inversion H.
      * split; [discriminate|]. intros [post H]. inversion H. congruence.
Qed.

Lemma Contains_occurs s : forall sub,
  Contains s sub = true <-> occurs_in sub s.
Proof.
  induction s as [|c s IH]; intros sub; cbn [Contains].
  - rewrite orb_false_r, prefix_app. split.
    + intros [post H]. exists "", post. exact H.
    + intros (pre & post & H). destruct pre as [|x pre]; [|discriminate].
      exists post. exact H.
  - rewrite orb_true_iff, prefix_app, IH. split.
    + intros [[post H] | (pre & post & H)].
      * exists "", post. exact H.
      * exists (String c pre), post. simpl. now rewrite H.
    + intros (pre & post & H). destruct pre as [|x pre].
      * left. exists post. exact H.
      * right. simpl in H. inversion H. exists pre, post. reflexivity.
Qed.

Lemma Permutation_filter {A} (f : A -> bool) (l l' : list A) :
  Permutation l l' -> Permutation (filter f l) (filter f l').
Proof.
  induction 1 as [|x l l' _ IH|x y l|l l' l'' _ IH1 _ IH2]; simpl.
  - constructor.
  - destruct (f x); auto.
  - destruct (f x), (f y); auto. apply perm_swap.
  - eapply perm_trans; eauto.
Qed.

Lemma concat_lines l : forall s,
  String.concat (NL ++ TAB) (s :: l) = (s ++ each_on_a_line l)%string.
Proof.
  induction l as [|s' l IH]; intros s.
  - cbn. now rewrite append_nil_r.
  - change (String.concat (NL ++ TAB) (s :: s' :: l))
      with (s ++ (NL ++ TAB) ++ String.concat (NL ++ TAB) (s' :: l))%string.
    rewrite IH. cbn [each_on_a_line]. now rewrite !append_assoc.
Qed.

Section Facts.

Variables range1 range2 : list string -> list string.
Variable DistanceForStrings : string -> string -> Z.
Variable sort_Sort : list suggestion -> list suggestion.

Lemma contains_loop_filter arg names : forall suggestions,
  contains_loop arg names suggestions =
  suggestions ++ filter (Contains arg) names.
Proof.
  induction names as [|name names IH]; intros acc; simpl.
  - now rewrite app_nil_r.
  - rewrite IH. destruct (Contains arg name); auto.
    now rewrite <- app_assoc.
Qed.

Lemma distance_loop_filter arg names : forall sortable,
  distance_loop DistanceForStrings arg names sortable =
  sortable ++
  map (fun name => mk_suggestion name (DistanceForStrings arg name))
    (filter (near DistanceForStrings arg) names).
Proof.
  induction names as [|name names IH]; intros acc; simpl.
  - now rewrite app_nil_r.
  - rewrite IH. unfold near at 2.
    destruct (DistanceForStrings arg name <=? MinLevenshtein)%Z; auto.
    now rewrite <- app_assoc.
Qed.

Lemma sorted_names arg (l : list suggestion) :
  Forall (fun s => levenshtein s = DistanceForStrings arg (cmd s)) l ->
  StronglySorted by_distance l ->
  StronglySorted
    (fun a b => (DistanceForStrings arg a <= DistanceForStrings arg b)%Z)
    (map cmd l).
Proof.
  intros HF HS. induction HS as [|a l HS IH Ha]; simpl; constructor.
  - apply IH. now inversion HF.
  - inversion HF as [|? ? Hda HFl]; subst.
    rewrite Forall_forall in *. intros n Hn.
    apply in_map_iff in Hn. destruct Hn as (b & <- & Hb).
    rewrite <- Hda, <- (HFl b Hb). exact (Ha b Hb).
Qed.

(** [suggestUnknownCmd] on a root and at least one argument, for any
    visiting orders and any sort that sorts: it returns.  If some
    subcommand name occurs in the first argument, the suggestions are
    exactly the names that occur in it, each once, and the distance is
    not looked at.  Otherwise they are exactly the names at distance 3
    or less, nearest first. *)
Theorem suggestUnknownCmd_spec
    (Hrange1 : visits_all range1) (Hrange2 : visits_all range2)
    (Hsort : sorts sort_Sort) arg rest root :
  exists res,
    suggestUnknownCmd range1 range2 DistanceForStrings sort_Sort
      (arg :: rest) (Some root) = Some res /\
    (forall name, Contains arg name = true <-> occurs_in name arg) /\
    if existsb (Contains arg) (Subcommands root)
    then Permutation res (filter (Contains arg) (Subcommands root))
    else Permutation res
           (filter (near DistanceForStrings arg) (Subcommands root)) /\
         StronglySorted
           (fun a b =>
              (DistanceForStrings arg a <= DistanceForStrings arg b)%Z) res.
Proof.
  unfold suggestUnknownCmd.
  rewrite contains_loop_filter, distance_loop_filter. cbn [app].
  pose proof (Permutation_filter (Contains arg) _ _
                (Hrange1 (Subcommands root))) as P1.
  assert (Hex : existsb (Contains arg) (Subcommands root) =
                (0 <? List.length
                        (filter (Contains arg) (range1 (Subcommands root))))%nat).
  { rewrite (Permutation_length P1). clear.
    induction (Subcommands root) as [|n l IH]; simpl; auto.
    destruct (Contains arg n); simpl; auto. }
  rewrite Hex.
  destruct (0 <? _)%nat.
  - eexists. split; [reflexivity|]. split; [apply Contains_occurs|]. exact P1.
  - set (l := map _ (filter (near DistanceForStrings arg)
                       (range2 (Subcommands root)))).
    destruct (Hsort l) as [P S].
    eexists. split; [reflexivity|]. split; [apply Contains_occurs|]. split.
    + apply (Permutation_map cmd) in P.
      eapply perm_trans; [exact P|]. subst l.
      rewrite map_map. cbn [cmd]. rewrite map_id.
      apply Permutation_filter, Hrange2.
    + apply sorted_names; auto.
      apply Forall_forall. intros s Hs.
      apply (Permutation_in _ P) in Hs. subst l.
      apply in_map_iff in Hs. destruct Hs as (n & <- & _). reflexivity.
Qed.

(** [printSuggestions] for any root, nil or not: with no input it
    panics; otherwise it returns an error that names the first input as
    the unknown command and, when [suggestUnknownCmd] has suggestions,
    asks about this one or about any of these and lists each
    suggestion on a line of its own. *)
Theorem printSuggestions_message root w rest :
  printSuggestions range1 range2 DistanceForStrings sort_Sort [] root = None /\
  exists res,
    suggestUnknownCmd range1 range2 DistanceForStrings sort_Sort
      (w :: rest) root = Some res /\
    printSuggestions range1 range2 DistanceForStrings sort_Sort
      (w :: rest) root =
    Some (("Unknown Command " ++ QUOTE ++ w ++ QUOTE ++ NL) ++
          match res with
          | [] => ""
          | [_] => NL ++ "Did you mean this?" ++ NL ++ each_on_a_line res
          | _ => NL ++ "Did you mean any of these?" ++ NL ++
                 each_on_a_line res
          end)%string.
Proof.
  split.
  - unfold printSuggestions. now destruct root.
  - unfold printSuggestions.
    destruct (suggestUnknownCmd range1 range2 DistanceForStrings sort_Sort
                (w :: rest) root) as [res|] eqn:Hres.
    2:{ unfold suggestUnknownCmd in Hres.
        destruct root; [destruct (0 <? _)%nat|]; discriminate. }
    exists res. split; [reflexivity|].
    destruct res as [|s0 [|s1 res]];
      cbn [List.length Nat.ltb Nat.leb].
    + now rewrite append_nil_r.
    + cbn [each_on_a_line]. now rewrite append_nil_r, ?append_assoc.
    + rewrite concat_lines. cbn [each_on_a_line].
      now rewrite !append_assoc.
Qed.

End Facts.

Lemma visits_all_same : visits_all (fun names => names).
Proof. intros names. apply Permutation_refl. Qed.

Lemma visits_all_rev : visits_all (@rev string).
Proof. intros names. apply Permutation_sym, Permutation_rev. Qed.

Lemma insert_by_distance_perm x l :
  Permutation (insert_by_distance x l) (x :: l).
Proof.
  induction l as [|y l IH]; simpl; auto.
  destruct (levenshtein x <=? levenshtein y)%Z; auto.
  eapply perm_trans; [apply perm_skip, IH | apply perm_swap].
Qed.

Lemma insert_by_distance_sorted x l :
  StronglySorted by_distance l ->
  StronglySorted by_distance (insert_by_distance x l).
Proof.
  induction 1 as [|y l HS IH Hy]; simpl.
  - repeat constructor.
  - destruct (Z.leb_spec (levenshtein x) (levenshtein y)) as [Hxy|Hxy].
    + constructor; [constructor; assumption|].
      constructor; [exact Hxy|].
      rewrite Forall_forall in *. intros z Hz.
      specialize (Hy z Hz). unfold by_distance in *. lia.
    + constructor; [exact IH|].
      rewrite Forall_forall in *. intros z Hz.
      apply (Permutation_in _ (insert_by_distance_perm x l)) in Hz.
      destruct Hz as [<-|Hz]; [unfold by_distance; lia | auto].
Qed.

Lemma sorts_insertion_sort : sorts insertion_sort.
Proof.
  intros l. induction l as [|x l [P S]]; simpl.
  - split; constructor.
  - split.
    + eapply perm_trans; [apply insert_by_distance_perm | auto].
    + apply insert_by_distance_sorted, S.
Qed.

Lemma suggestUnknownCmd_spec_witness :
  exists res,
    suggestUnknownCmd (fun names => names) (@rev string) edit_distance
      insertion_sort ["sta"; "x"]
      (Some (mk_Command ["start"; "cat"; "stat"; "list"])) = Some res /\
    (forall name, Contains "sta" name = true <-> occurs_in name "sta") /\
    Permutation res ["start"; "stat"] /\
    StronglySorted
      (fun a b => (edit_distance "sta" a <= edit_distance "sta" b)%Z) res.
Proof.
  exact (suggestUnknownCmd_spec (fun names => names) (@rev string)
           edit_distance insertion_sort visits_all_same visits_all_rev
           sorts_insertion_sort "sta" ["x"]
           (mk_Command ["start"; "cat"; "stat"; "list"])).
Defined.

End SuggestFacts.
